(** * Staging core of the merge queue ([runbot_merge/models/stagings_create.py])

    A shallow embedding of the staging module: the commit-message trailer
    model ([Message]), the ref-advertisement reader ([parse_refs_smart],
    [check_visibility]), the ready-set selector ([ready_prs], [try_staging])
    and the staging transaction ([stage_batches], [stage_batch], [stage] and
    the four strategies), followed by the properties established about them.

    Conventions of the embedding.
    - A Python [str] is a [string]; its characters are the code points below
      256.  A recordset of one pull request is the id of its row; a field read
      is a lookup in the store.
    - Code that raises returns [Err e]; the state reached when the exception
      left the function is kept, as it is in Python.
    - The hosting-provider client ([gh]), the record store helpers living in
      other modules of the addon and the libraries (werkzeug [Headers],
      [requests], [json]) are not part of the module: the first two are taken
      as parameters, the libraries are modelled by their documented
      behaviour. *)

From Stdlib Require Import String Ascii ZArith List Bool Lia.
From stdpp Require Import base option list gmap strings pretty.

Import ListNotations.
Local Open Scope string_scope.
Local Open Scope list_scope.

(** ** Python primitives used by the module *)

Module Py.

(** The exceptions that the module raises or lets escape.  [args] of the
    merge-queue exceptions are positional: the handler in [stage_batches]
    reads [e.args[0]] and uses it as a pull request, whatever was put there. *)
Inductive pyval :=
| VPr (id : nat)
| VStr (s : string)
| VDict.

Inductive exn :=
| IndexError
| AttributeError (what : string)
| UnboundLocalError (name : string)
| AssertionError
| ValueError
| MissingError
| KeyError
| RemoteError (what : string)
| GhMergeError (what : string)
| MergeError (args : list pyval) (cause : string)
| Unmergeable (args : list pyval)
| Mismatch (invalid : list string) (diff : list (string * string * string))
| UnicodeDecodeError
| TimeoutError (what : string).

Inductive result (A : Type) :=
| Ok (a : A)
| Err (e : exn).
Arguments Ok {A} a.
Arguments Err {A} e.

Definition nl : ascii := ascii_of_nat 10.
Definition cr : ascii := ascii_of_nat 13.
Definition tab : ascii := ascii_of_nat 9.
Definition sp : ascii := ascii_of_nat 32.

Definition code (c : ascii) : nat := nat_of_ascii c.

(** Line boundaries of [str.splitlines]: LF, VT, FF, CR, FS, GS, RS, NEL. *)
Definition is_linebreak (c : ascii) : bool :=
  let n := code c in
  (((10 <=? n) && (n <=? 13)) || ((28 <=? n) && (n <=? 30)) || (n =? 133))%nat.

(** Characters removed by [str.strip()]. *)
Definition is_space (c : ascii) : bool :=
  let n := code c in
  (((9 <=? n) && (n <=? 13)) || ((28 <=? n) && (n <=? 32)) || (n =? 133) || (n =? 160))%nat.

Definition snoc (s : string) (c : ascii) : string := s ++ String c EmptyString.

Definition is_empty (s : string) : bool :=
  match s with EmptyString => true | _ => false end.

(** [str.splitlines()]: CR LF is one boundary, and a final boundary does not
    open a last empty line. *)
Fixpoint splitlines_from (cur : string) (s : string) : list string :=
  match s with
  | EmptyString => if is_empty cur then [] else [cur]
  | String c rest =>
      if is_linebreak c then
        cur :: match rest with
               | String c' rest' =>
                   if ((code c =? 13) && (code c' =? 10))%nat
                   then splitlines_from EmptyString rest'
                   else splitlines_from EmptyString rest
               | EmptyString => []
               end
      else splitlines_from (snoc cur c) rest
  end.

Definition splitlines (s : string) : list string := splitlines_from EmptyString s.

Fixpoint lstrip (s : string) : string :=
  match s with
  | String c rest => if is_space c then lstrip rest else s
  | EmptyString => EmptyString
  end.

Fixpoint rstrip (s : string) : string :=
  match s with
  | String c rest =>
      let r := rstrip rest in
      if is_empty r && is_space c then EmptyString else String c r
  | EmptyString => EmptyString
  end.

Definition strip (s : string) : string := lstrip (rstrip s).

(** ['\n'.join(l)] *)
Definition join_nl (l : list string) : string :=
  String.concat (String nl EmptyString) l.

Fixpoint all_chars (p : ascii -> bool) (s : string) : bool :=
  match s with
  | EmptyString => true
  | String c rest => p c && all_chars p rest
  end.

Fixpoint count_char (p : ascii -> bool) (s : string) : nat :=
  match s with
  | EmptyString => 0
  | String c rest => (if p c then 1 else 0) + count_char p rest
  end.

(** Longest prefix of [s] whose characters satisfy [p], and the rest. *)
Fixpoint span (p : ascii -> bool) (s : string) : string * string :=
  match s with
  | String c rest =>
      if p c then let '(a, b) := span p rest in (String c a, b)
      else (EmptyString, s)
  | EmptyString => (EmptyString, EmptyString)
  end.

Definition is_upper (c : ascii) : bool := ((65 <=? code c) && (code c <=? 90))%nat.
Definition is_lower (c : ascii) : bool := ((97 <=? code c) && (code c <=? 122))%nat.
Definition is_digit (c : ascii) : bool := ((48 <=? code c) && (code c <=? 57))%nat.

Definition lower_char (c : ascii) : ascii :=
  if is_upper c then ascii_of_nat (code c + 32) else c.
Definition upper_char (c : ascii) : ascii :=
  if is_lower c then ascii_of_nat (code c - 32) else c.

Fixpoint lower (s : string) : string :=
  match s with
  | EmptyString => EmptyString
  | String c rest => String (lower_char c) (lower rest)
  end.

(** [str.capitalize()].  The keys it is applied to are ASCII (letters and
    hyphens), where it upper-cases the first character and lower-cases the
    others. *)
Definition capitalize (s : string) : string :=
  match s with
  | EmptyString => EmptyString
  | String c rest => String (upper_char c) (lower rest)
  end.

Fixpoint startswith (pre s : string) : bool :=
  match pre, s with
  | EmptyString, _ => true
  | String a pre', String b s' => Ascii.eqb a b && startswith pre' s'
  | String _ _, EmptyString => false
  end.

End Py.
Export Py.

(** ** The commit-message model: [Message] *)

Module Msg.

(** [BREAK], a thematic break: up to three spaces, then a star, an
    underscore or a hyphen,
    then at least two more of the same marker, spaces and tabs in between and
    after. *)
Definition is_marker (c : ascii) : bool :=
  Ascii.eqb c "*"%char || Ascii.eqb c "_"%char || Ascii.eqb c "-"%char.

Definition BREAK_fullmatch (line : string) : bool :=
  let '(indent, rest) := span (Ascii.eqb sp) line in
  (String.length indent <=? 3)%nat &&
  match rest with
  | String m rest' =>
      is_marker m &&
      all_chars (fun c => Ascii.eqb c m || Ascii.eqb c sp || Ascii.eqb c tab) rest' &&
      (2 <=? count_char (Ascii.eqb m) rest')%nat
  | EmptyString => false
  end.

(** [SETEX_UNDERLINE]: up to three spaces, a run of [-] and [=], then spaces. *)
Definition SETEX_UNDERLINE_fullmatch (line : string) : bool :=
  let '(indent, rest) := span (Ascii.eqb sp) line in
  let '(run, trail) := span (fun c => Ascii.eqb c "-"%char || Ascii.eqb c "="%char) rest in
  (String.length indent <=? 3)%nat && negb (is_empty run) && all_chars (Ascii.eqb sp) trail.

(** [HEADER]: a key of letters and hyphens, a colon and a space, then any
    value on the same line; the two groups of a full match. *)
Definition is_key_char (c : ascii) : bool :=
  is_upper c || is_lower c || Ascii.eqb c "-"%char.

Definition HEADER_fullmatch (line : string) : option (string * string) :=
  let '(key, rest) := span is_key_char line in
  match rest with
  | String c1 (String c2 value) =>
      if negb (is_empty key) && Ascii.eqb c1 ":"%char && Ascii.eqb c2 sp
         && all_chars (fun c => negb (Ascii.eqb c nl)) value
      then Some (key, value) else None
  | _ => None
  end.

(** werkzeug's [Headers]: an ordered list of pairs whose keys compare without
    regard to case. *)
Definition Headers := list (string * string).

Definition key_eq (a b : string) : bool := String.eqb (lower a) (lower b).

Definition keys (h : Headers) : list string := map fst h.

Definition getlist (h : Headers) (k : string) : list string :=
  map snd (List.filter (fun kv => key_eq (fst kv) k) h).

Definition hadd (h : Headers) (k v : string) : Headers := h ++ [(k, v)].

Definition hpop (h : Headers) (k : string) : Headers :=
  List.filter (fun kv => negb (key_eq (fst kv) k)) h.

Definition hextend (h : Headers) (l : list (string * string)) : Headers := h ++ l.

Record Message := mkMessage { body : string; headers : Headers }.

(** [Message.__init__] with the [body] setter, which strips what it stores. *)
Definition new_message (b : string) (h : Headers) : Message :=
  {| body := strip b; headers := h |}.

(** The argument of [from_message]: a string, or a pull request, of which only
    the [message] field is read. *)
Inductive msg_source :=
| OfStr (s : string)
| OfPr (pr_message : string).

(** The variables of the scanning loop.  [body_rev] and [headers_rev] hold the
    Python lists newest first, which is the order [reversed(...)] gives them
    in at the end. *)
Record scan := mkScan {
  in_headers : bool;
  maybe_setex : option string;
  body_rev : list string;
  headers_rev : list (string * string)
}.

Definition scan0 : scan :=
  {| in_headers := true; maybe_setex := None; body_rev := []; headers_rev := [] |}.

Definition last_is_nonblank (b : list string) : bool :=
  match b with
  | x :: _ => negb (is_empty x)
  | [] => false
  end.

(** The [if maybe_setex:] block at the top of the loop body. *)
Definition resolve_setex (line : string) (st : scan) : scan :=
  match maybe_setex st with
  | Some u =>
      {| in_headers := in_headers st; maybe_setex := None;
         body_rev := if is_empty line then [] else u :: body_rev st;
         headers_rev := headers_rev st |}
  | None => st
  end.

(** One iteration of [for line in reversed(lines[1:])]. *)
Definition scan_line (handle_break : bool) (st0 : scan) (line : string) : scan :=
  let st := resolve_setex line st0 in
  if is_empty line then
    if negb (in_headers st) && last_is_nonblank (body_rev st)
    then {| in_headers := in_headers st; maybe_setex := maybe_setex st;
            body_rev := line :: body_rev st; headers_rev := headers_rev st |}
    else st
  else if handle_break && BREAK_fullmatch line then
    if SETEX_UNDERLINE_fullmatch line
    then {| in_headers := in_headers st; maybe_setex := Some line;
            body_rev := body_rev st; headers_rev := headers_rev st |}
    else {| in_headers := in_headers st; maybe_setex := maybe_setex st;
            body_rev := []; headers_rev := headers_rev st |}
  else
    let plain :=
      {| in_headers := false; maybe_setex := maybe_setex st;
         body_rev := line :: body_rev st; headers_rev := headers_rev st |} in
    match HEADER_fullmatch line with
    | Some (k, v) =>
        if in_headers st || String.eqb (lower k) "co-authored-by"
        then {| in_headers := in_headers st; maybe_setex := maybe_setex st;
                body_rev := body_rev st; headers_rev := (k, v) :: headers_rev st |}
        else plain
    | None => plain
    end.

Definition scan_lines (handle_break : bool) (rest : list string) : scan :=
  fold_left (scan_line handle_break) (rev rest) scan0.

(** What follows the loop: the separation after the title, the title, and the
    construction of the result. *)
Definition finish (title : string) (st : scan) : Message :=
  let b := if last_is_nonblank (body_rev st) then EmptyString :: body_rev st
           else body_rev st in
  new_message (join_nl (title :: b)) (headers_rev st).

Definition from_lines (handle_break : bool) (lines : list string) : result Message :=
  match lines with
  | [] => Err IndexError
  | title :: rest => Ok (finish title (scan_lines handle_break rest))
  end.

Definition from_message (msg : msg_source) : result Message :=
  match msg with
  | OfStr s => from_lines false (splitlines s)
  | OfPr m => from_lines true (splitlines m)
  end.

(** [OrderedSet]: the first occurrence of each element, in order. *)
Fixpoint ordered_set (seen l : list string) : list string :=
  match l with
  | [] => []
  | x :: l' =>
      if existsb (String.eqb x) seen then ordered_set seen l'
      else x :: ordered_set (x :: seen) l'
  end.

Definition is_cab (k : string) : bool := String.eqb k "Co-authored-by".

(** [keys.sort(key=lambda k: k == 'Co-authored-by')]: the sort is stable. *)
Definition sort_cab_last (ks : list string) : list string :=
  List.filter (fun k => negb (is_cab k)) ks ++ List.filter is_cab ks.

Definition trailer_line (k v : string) : string :=
  k ++ ": " ++ v ++ String nl EmptyString.

Definition trailer_block (h : Headers) : string :=
  String.concat EmptyString
    (flat_map (fun k => map (trailer_line k) (getlist h k))
       (sort_cab_last (ordered_set [] (map capitalize (keys h))))).

(** [Message.__str__] *)
Definition to_str (m : Message) : string :=
  match headers m with
  | [] => body m ++ String nl EmptyString
  | _ => body m ++ String nl (String nl EmptyString) ++ trailer_block (headers m)
  end.

End Msg.

(** ** The visibility verifier: [parse_refs_smart] and [check_visibility] *)

Module Visibility.

Local Open Scope Z_scope.

(** A [bytes] value is a [string] as well: one character per byte. *)
Definition bytes := string.

(** ASCII white space, what [int()] and [bytes.rstrip()] skip. *)
Definition is_ascii_space (c : ascii) : bool :=
  (((9 <=? code c) && (code c <=? 13)) || (code c =? 32))%nat.

Fixpoint lstrip_ascii (s : bytes) : bytes :=
  match s with
  | String c rest => if is_ascii_space c then lstrip_ascii rest else s
  | EmptyString => EmptyString
  end.

Fixpoint rstrip_ascii (s : bytes) : bytes :=
  match s with
  | String c rest =>
      let r := rstrip_ascii rest in
      if is_empty r && is_ascii_space c then EmptyString else String c r
  | EmptyString => EmptyString
  end.

Definition hex_digit (c : ascii) : option Z :=
  let n := Z.of_nat (code c) in
  if (48 <=? n) && (n <=? 57) then Some (n - 48)
  else if (97 <=? n) && (n <=? 102) then Some (n - 87)
  else if (65 <=? n) && (n <=? 70) then Some (n - 55)
  else None.

(** The digits of [int(x, 16)]: hexadecimal digits, single underscores allowed
    between two of them.  [prev] tells whether the previous character was a
    digit. *)
Fixpoint hex_digits (acc : Z) (prev : bool) (s : bytes) : option Z :=
  match s with
  | EmptyString => if prev then Some acc else None
  | String c rest =>
      match hex_digit c with
      | Some d => hex_digits (16 * acc + d) true rest
      | None =>
          if Ascii.eqb c "_"%char && prev then hex_digits acc false rest else None
      end
  end.

(** [int(x, 16)] on [bytes]: surrounding white space, a sign, a [0x] prefix
    (after which one underscore may come) and the digits. *)
Definition int16 (x : bytes) : result Z :=
  let s := rstrip_ascii (lstrip_ascii x) in
  let '(neg, s1) :=
    match s with
    | String c rest =>
        if Ascii.eqb c "-"%char then (true, rest)
        else if Ascii.eqb c "+"%char then (false, rest)
        else (false, s)
    | EmptyString => (false, s)
    end in
  let after_prefix :=
    match s1 with
    | String z (String x' rest) =>
        if Ascii.eqb z "0"%char && (Ascii.eqb x' "x"%char || Ascii.eqb x' "X"%char)
        then Some rest else None
    | _ => None
    end in
  let digits :=
    match after_prefix with
    | Some (String u rest) =>
        if Ascii.eqb u "_"%char then hex_digits 0 false rest
        else hex_digits 0 false (String u rest)
    | Some EmptyString => None
    | None => hex_digits 0 false s1
    end in
  match digits with
  | Some n => Ok (if neg then - n else n)
  | None => Err ValueError
  end.

(** The response body being read: [read(n)] hands out the next [n] bytes, or
    fewer at the end; a negative [n] reads all that is left. *)
Fixpoint take_bytes (n : nat) (s : bytes) : bytes * bytes :=
  match n, s with
  | S n', String c rest => let '(a, b) := take_bytes n' rest in (String c a, b)
  | _, _ => (EmptyString, s)
  end.

Definition read (n : Z) (s : bytes) : bytes * bytes :=
  if n <? 0 then (s, EmptyString) else take_bytes (Z.to_nat n) s.

(** [read_line]: [None] is a flush packet. *)
Definition read_line (s : bytes) : result (option bytes) * bytes :=
  let '(len, s1) := read 4 s in
  match int16 len with
  | Err e => (Err e, s1)
  | Ok length =>
      if length =? 0 then (Ok None, s1)
      else let '(data, s2) := read (length - 4) s1 in (Ok (Some data), s2)
  end.

Definition is_hex_lower (c : ascii) : bool :=
  is_digit c || ((97 <=? code c) && (code c <=? 102))%nat.

(** [refline], on a packet: forty hexadecimal characters, a space, a name
    without NUL or LF, then optionally a NUL and capabilities, then optionally
    a LF.  The two groups that are read. *)
Definition refline_fullmatch (line : bytes) : option (bytes * bytes) :=
  let '(sha, r) := take_bytes 40 line in
  if (String.length sha =? 40)%nat && all_chars is_hex_lower sha then
    match r with
    | String c r1 =>
        if Ascii.eqb c sp then
          let '(name, r2) :=
            span (fun c => negb (Ascii.eqb c Ascii.zero) && negb (Ascii.eqb c nl)) r1 in
          let tail_ok :=
            let caps :=
              match r2 with
              | String z caps' => if Ascii.eqb z Ascii.zero then snd (span (fun c => negb (Ascii.eqb c nl)) caps') else r2
              | EmptyString => r2
              end in
            String.eqb caps EmptyString || String.eqb caps (String nl EmptyString) in
          if negb (is_empty name) && tail_ok then Some (sha, name) else None
        else None
    | EmptyString => None
    end
  else None.

Definition ZERO_REF : bytes := "0000000000000000000000000000000000000000".

(** [bytes.decode()], UTF-8 and strict.  [Ok None] stands for a text with a
    code point from 256 on, which no string of the model equals. *)
Definition is_cont (lo hi : nat) (c : ascii) : bool :=
  ((lo <=? code c) && (code c <=? hi))%nat.

Fixpoint decode_from (fuel : nat) (s : bytes) : result (option string) :=
  match fuel with
  | O => Ok (Some EmptyString)
  | S fuel' =>
      let cons c r :=
        match r with
        | Ok (Some t) => Ok (Some (String c t))
        | other => other
        end in
      let wide r :=
        match r with
        | Ok _ => Ok None
        | other => other
        end in
      match s with
      | EmptyString => Ok (Some EmptyString)
      | String b rest =>
          let n := code b in
          if (n <? 128)%nat then cons b (decode_from fuel' rest)
          else match rest with
          | String c1 rest1 =>
              if ((194 <=? n) && (n <=? 223))%nat then
                if is_cont 128 191 c1 then
                  if (n <=? 195)%nat
                  then cons (ascii_of_nat ((n - 192) * 64 + (code c1 - 128)))
                            (decode_from fuel' rest1)
                  else wide (decode_from fuel' rest1)
                else Err UnicodeDecodeError
              else match rest1 with
              | String c2 rest2 =>
                  if ((224 <=? n) && (n <=? 239))%nat then
                    if is_cont (if (n =? 224)%nat then 160 else 128)
                               (if (n =? 237)%nat then 159 else 191) c1
                       && is_cont 128 191 c2
                    then wide (decode_from fuel' rest2)
                    else Err UnicodeDecodeError
                  else match rest2 with
                  | String c3 rest3 =>
                      if ((240 <=? n) && (n <=? 244))%nat
                         && is_cont (if (n =? 240)%nat then 144 else 128)
                                    (if (n =? 244)%nat then 143 else 191) c1
                         && is_cont 128 191 c2 && is_cont 128 191 c3
                      then wide (decode_from fuel' rest3)
                      else Err UnicodeDecodeError
                  | EmptyString => Err UnicodeDecodeError
                  end
              | EmptyString => Err UnicodeDecodeError
              end
          | EmptyString => Err UnicodeDecodeError
          end
      end
  end.

Definition decode (s : bytes) : result (option string) :=
  decode_from (String.length s) s.

(** A generator is modelled by what it does when it is run to its end: the
    values it yields, in order, and the exception that ends it, if any.  A
    consumer that stops early never sees what comes later. *)
Definition generated (A : Type) : Type := list A * option exn.

(** The loop [for line in iter(read_line, None)] of [parse_refs_smart].  Every
    packet takes at least one byte off a non-empty input and the empty input
    ends the loop ([int(b'', 16)] raises), so [S (length s)] rounds are
    enough: [ref_lines_fuel]. *)
Fixpoint ref_lines (fuel : nat) (s : bytes) : generated (option string * option string) :=
  match fuel with
  | O => ([], None)
  | S fuel' =>
      match read_line s with
      | (Err e, _) => ([], Some e)
      | (Ok None, _) => ([], None)
      | (Ok (Some line), s') =>
          if startswith ZERO_REF line then ([], None)
          else match refline_fullmatch line with
               | None => ([], Some AssertionError)
               | Some (h, r) =>
                   match decode h, decode r with
                   | Err e, _ => ([], Some e)
                   | Ok _, Err e => ([], Some e)
                   | Ok h', Ok r' =>
                       let '(items, fin) := ref_lines fuel' s' in
                       ((h', r') :: items, fin)
                   end
               end
      end
  end.

Definition service_header : bytes := "# service=git-upload-pack".

Definition parse_refs_smart (s : bytes) : generated (option string * option string) :=
  match read_line s with
  | (Err e, _) => ([], Some e)
  | (Ok header, s1) =>
      let header_ok :=
        match header with
        | Some h => negb (is_empty h) && String.eqb (rstrip_ascii h) service_header
        | None => false
        end in
      if negb header_ok then ([], Some AssertionError)
      else match read_line s1 with
           | (Err e, _) => ([], Some e)
           | (Ok (Some _), _) => ([], Some AssertionError)
           | (Ok None, s2) => ref_lines (S (String.length s2)) s2
           end
  end.

(** What [requests.get] hands back: [resp.ok] and the body behind
    [resp.raw.read]. *)
Record Response := mkResponse { ok : bool; raw : bytes }.

Definition refs_url (repo_name : string) : string :=
  "https://github.com/" ++ repo_name ++ ".git/info/refs?service=git-upload-pack".

(** The [for head, ref in ...] loop of [check_visibility]. *)
Fixpoint scan_refs (wanted expected_head : string)
    (items : list (option string * option string)) (fin : option exn) : result bool :=
  match items with
  | [] => match fin with Some e => Err e | None => Ok false end
  | (head, ref) :: items' =>
      if match ref with Some r => String.eqb r wanted | None => false end
      then Ok match head with Some h => String.eqb h expected_head | None => false end
      else scan_refs wanted expected_head items' fin
  end.

Section CheckVisibility.

(** [requests.get(url, stream=True, auth=(token, ''))], which may raise. *)
Variable http_get : string -> string -> result Response.

Definition check_visibility (repo_name branch_name expected_head token : string)
  : result bool :=
  match http_get (refs_url repo_name) token with
  | Err e => Err e
  | Ok resp =>
      if negb (ok resp) then Ok false
      else let '(items, fin) := parse_refs_smart (raw resp) in
           scan_refs ("refs/heads/" ++ branch_name) expected_head items fin
  end.

End CheckVisibility.

End Visibility.

(** ** The record store and the remote *)

Module Store.

Inductive Method := merge | rebase_merge | rebase_ff | squash_m.

Definition method_name (m : Method) : string :=
  match m with
  | merge => "merge"
  | rebase_merge => "rebase-merge"
  | rebase_ff => "rebase-ff"
  | squash_m => "squash"
  end.

Record Repository := mkRepository {
  repo_id : nat;
  repo_name : string;
  repo_project : nat
}.

Record Branch := mkBranch {
  branch_id : nat;
  branch_name : string;
  branch_project : nat;
  active_staging_id : option nat;
  split_ids : list nat
}.

Record Partner := mkPartner {
  partner_name : string;
  github_login : string
}.

(** A row of [runbot_merge_pull_requests], without its id, which is the key it
    is stored under.  [commits_map] holds the dictionary that the code stores
    as JSON text. *)
Record PullRequest := mkPullRequest {
  number : nat;
  repository : nat;
  target : nat;
  head : string;
  label : string;
  priority : nat;
  merge_method : option Method;
  squash : bool;
  message : string;
  commits_map : gmap string string;
  state : string;
  reviewed_by : option nat;
  blocked : bool
}.

Record BatchRec := mkBatchRec {
  batch_id : nat;
  batch_target : nat;
  batch_prs : list nat
}.

Record Split := mkSplit {
  split_id : nat;
  split_batch_ids : list nat
}.

Record StagingRec := mkStagingRec {
  staging_target : nat;
  staging_batch_ids : list nat;
  staging_heads : list (nat * string);
  staging_commits : list (nat * string)
}.

Record Project := mkProject {
  project_name : string;
  batch_limit : nat;
  github_token : string
}.

(** What is handed to a feedback template by [_send]: the repository, the
    number of the pull request, and the format arguments that matter here
    (the pull request; the reason, or the fields and their differences, which
    the code renders with [difflib]). *)
Inductive Feedback :=
| MergeFailed (repo number pr : nat) (reason : option string)
| StagingMismatch (repo number pr : nat) (mismatch : list string)
    (diff : list (string * string * string)).

(** What [gh.pr] and [gh.commits] answer. *)
Record PrDict := mkPrDict {
  pd_commits : nat;
  pd_base_ref : string;
  pd_title : string;
  pd_body : string
}.

Record Identity := mkIdentity { id_name : string; id_email : string }.

Record PrCommit := mkPrCommit {
  sha : string;
  parents : list string;
  c_message : string;
  c_author : Identity;
  c_committer : Identity
}.

(** The body of a [POST git/commits]. *)
Record CommitSpec := mkCommitSpec {
  cs_message : string;
  cs_tree : string;
  cs_parents : list string;
  cs_author : option Identity;
  cs_committer : option Identity
}.

Record MergeResp := mkMergeResp { m_sha : string; m_tree : string }.

(** The remote: the refs of every repository, by repository and ref name, and
    whatever else the hosting provider keeps ([X]). *)
Record Remote (X : Type) := mkRemote {
  refs : gmap (nat * string) string;
  hidden : X
}.
Arguments mkRemote {X} refs hidden.
Arguments refs {X} r.
Arguments hidden {X} r.

Record World (X : Type) := mkWorld {
  remote : Remote X;
  prs : gmap nat PullRequest;
  partners : gmap nat Partner;
  branches : gmap nat Branch;
  repos : gmap nat Repository;
  batches : gmap nat BatchRec;
  splits : gmap nat Split;
  projects : gmap nat Project;
  stagings : list StagingRec;
  commit_rows : gmap string bool;
  sent : list Feedback
}.
Arguments mkWorld {X}.
Arguments remote {X} w.
Arguments prs {X} w.
Arguments partners {X} w.
Arguments branches {X} w.
Arguments repos {X} w.
Arguments batches {X} w.
Arguments splits {X} w.
Arguments projects {X} w.
Arguments stagings {X} w.
Arguments commit_rows {X} w.
Arguments sent {X} w.

(** *** Computations: a state, and a value or an exception *)

Definition M (X A : Type) : Type := World X -> result A * World X.

Definition ret {X A} (a : A) : M X A := fun w => (Ok a, w).
Definition raise {X A} (e : exn) : M X A := fun w => (Err e, w).
Definition bind {X A B} (m : M X A) (k : A -> M X B) : M X B :=
  fun w => match m w with
           | (Ok a, w') => k a w'
           | (Err e, w') => (Err e, w')
           end.
(** [try: m except Exception as e: h e] *)
Definition try_except {X A} (m : M X A) (h : exn -> M X A) : M X A :=
  fun w => match m w with
           | (Ok a, w') => (Ok a, w')
           | (Err e, w') => h e w'
           end.
Definition get {X} : M X (World X) := fun w => (Ok w, w).
Definition modify {X} (f : World X -> World X) : M X unit := fun w => (Ok tt, f w).
Definition lift_result {X A} (r : result A) : M X A := fun w => (r, w).
Definition from_option {X A} (e : exn) (o : option A) : M X A :=
  match o with Some a => ret a | None => raise e end.

Declare Scope m_scope.
Delimit Scope m_scope with M.
Notation "'let*' x ':=' m 'in' k" := (bind m (fun x => k))
  (at level 10, x name, m at level 100, k at level 200) : m_scope.
Notation "'let*' ' p ':=' m 'in' k" := (bind m (fun x => match x with p => k end))
  (at level 10, p pattern, m at level 100, k at level 200) : m_scope.

(** Monadic loop over a list, [for x in l: f x]. *)
Fixpoint for_each {X A} (l : list A) (f : A -> M X unit) : M X unit :=
  match l with
  | [] => ret tt
  | x :: l' => bind (f x) (fun _ => for_each l' f)
  end.

Section Fields.
Context {X : Type}.

Definition set_remote (v : Remote X) (w : World X) : World X :=
  mkWorld v (prs w) (partners w) (branches w) (repos w) (batches w) (splits w) (projects w) (stagings w) (commit_rows w) (sent w).
Definition set_prs (v : gmap nat PullRequest) (w : World X) : World X :=
  mkWorld (remote w) v (partners w) (branches w) (repos w) (batches w) (splits w) (projects w) (stagings w) (commit_rows w) (sent w).
Definition set_partners (v : gmap nat Partner) (w : World X) : World X :=
  mkWorld (remote w) (prs w) v (branches w) (repos w) (batches w) (splits w) (projects w) (stagings w) (commit_rows w) (sent w).
Definition set_branches (v : gmap nat Branch) (w : World X) : World X :=
  mkWorld (remote w) (prs w) (partners w) v (repos w) (batches w) (splits w) (projects w) (stagings w) (commit_rows w) (sent w).
Definition set_batches (v : gmap nat BatchRec) (w : World X) : World X :=
  mkWorld (remote w) (prs w) (partners w) (branches w) (repos w) v (splits w) (projects w) (stagings w) (commit_rows w) (sent w).
Definition set_splits (v : gmap nat Split) (w : World X) : World X :=
  mkWorld (remote w) (prs w) (partners w) (branches w) (repos w) (batches w) v (projects w) (stagings w) (commit_rows w) (sent w).
Definition set_stagings (v : list StagingRec) (w : World X) : World X :=
  mkWorld (remote w) (prs w) (partners w) (branches w) (repos w) (batches w) (splits w) (projects w) v (commit_rows w) (sent w).
Definition set_commit_rows (v : gmap string bool) (w : World X) : World X :=
  mkWorld (remote w) (prs w) (partners w) (branches w) (repos w) (batches w) (splits w) (projects w) (stagings w) v (sent w).
Definition set_sent (v : list Feedback) (w : World X) : World X :=
  mkWorld (remote w) (prs w) (partners w) (branches w) (repos w) (batches w) (splits w) (projects w) (stagings w) (commit_rows w) v.

(** Reading a record: a row that is gone raises [MissingError]. *)
Definition get_pr (id : nat) : M X PullRequest :=
  fun w => (match prs w !! id with Some p => Ok p | None => Err MissingError end, w).
Definition get_branch (id : nat) : M X Branch :=
  fun w => (match branches w !! id with Some b => Ok b | None => Err MissingError end, w).
Definition get_repo (id : nat) : M X Repository :=
  fun w => (match repos w !! id with Some r => Ok r | None => Err MissingError end, w).
Definition get_partner (id : nat) : M X Partner :=
  fun w => (match partners w !! id with Some p => Ok p | None => Err MissingError end, w).

(** Writing fields of a pull request. *)
Definition write_pr (id : nat) (f : PullRequest -> PullRequest) : M X unit :=
  fun w => match prs w !! id with
           | Some p => (Ok tt, set_prs (<[id := f p]> (prs w)) w)
           | None => (Err MissingError, w)
           end.
(** [pr.unlink()] *)
Definition unlink_pr (id : nat) : M X unit :=
  modify (fun w => set_prs (delete id (prs w)) w).

Definition with_head (h : string) (p : PullRequest) : PullRequest :=
  mkPullRequest (number p) (repository p) (target p) h (label p) (priority p)
    (merge_method p) (squash p) (message p) (commits_map p) (state p) (reviewed_by p)
    (blocked p).
Definition with_target (t : nat) (p : PullRequest) : PullRequest :=
  mkPullRequest (number p) (repository p) t (head p) (label p) (priority p)
    (merge_method p) (squash p) (message p) (commits_map p) (state p) (reviewed_by p)
    (blocked p).
Definition with_squash (s : bool) (p : PullRequest) : PullRequest :=
  mkPullRequest (number p) (repository p) (target p) (head p) (label p) (priority p)
    (merge_method p) s (message p) (commits_map p) (state p) (reviewed_by p)
    (blocked p).
Definition with_message (m : string) (p : PullRequest) : PullRequest :=
  mkPullRequest (number p) (repository p) (target p) (head p) (label p) (priority p)
    (merge_method p) (squash p) m (commits_map p) (state p) (reviewed_by p)
    (blocked p).
Definition with_commits_map (m : gmap string string) (p : PullRequest) : PullRequest :=
  mkPullRequest (number p) (repository p) (target p) (head p) (label p) (priority p)
    (merge_method p) (squash p) (message p) m (state p) (reviewed_by p)
    (blocked p).
Definition with_state (s : string) (p : PullRequest) : PullRequest :=
  mkPullRequest (number p) (repository p) (target p) (head p) (label p) (priority p)
    (merge_method p) (squash p) (message p) (commits_map p) s (reviewed_by p)
    (blocked p).

(** The remote refs: [gh.head(ref)] of the client of repository [repo].  A ref
    that does not exist cannot be read. *)
Definition gh_head (repo : nat) (ref : string) : M X string :=
  fun w => (match refs (remote w) !! (repo, ref) with
            | Some h => Ok h
            | None => Err (RemoteError "no such ref")
            end, w).

(** [_send] of a feedback template. *)
Definition send (f : Feedback) : M X unit :=
  modify (fun w => set_sent (sent w ++ [f]) w).

End Fields.

End Store.

(** ** The staging transaction *)

Module Staging.
Import Store.
Local Open Scope m_scope.

(** The argument of [_build_merge_message]: a pull request or a string. *)
Inductive message_arg :=
| ArgPr (id : nat)
| ArgStr (s : string).

(** What the module calls and does not define.

    - The client of the hosting provider: [gh.pr], [gh.commits], [gh.user],
      [gh.commit] read the remote; [gh.merge], [gh.rebase], the creation of
      a commit object and [gh.set_ref] change it, in whatever way the provider
      does, and may fail, also after having changed it.  A call is told the
      repository whose client is used.
    - [git_setup]: fetching into the local store and cloning the working copy.
    - [http_get]: the request of the visibility check, at a given attempt.
    - [utils.make_message], [PullRequests._build_merge_message],
      [repo_ids.having_branch], [re.search], [re.escape], the message of a
      JSON document, [os.urandom] in base 64. *)
Record Collab (X : Type) := mkCollab {
  gh_pr : Remote X -> nat -> nat -> result PrDict;
  gh_commits : Remote X -> nat -> nat -> result (list PrCommit);
  gh_user : Remote X -> nat -> string -> result string;
  gh_commit_tree : Remote X -> nat -> string -> result string;
  gh_merge : Remote X -> nat -> string -> string -> string -> result MergeResp * Remote X;
  gh_rebase : Remote X -> nat -> nat -> string -> bool -> list PrCommit
              -> result (string * gmap string string) * Remote X;
  gh_post_commit : Remote X -> nat -> CommitSpec -> result string * Remote X;
  gh_set_ref : Remote X -> nat -> string -> string -> result unit * Remote X;
  git_setup : Repository -> string -> list string -> result string;
  http_get : Remote X -> nat -> string -> string -> result Visibility.Response;
  make_message : PrDict -> string;
  build_merge_message : World X -> nat -> message_arg -> list nat -> Msg.Message;
  having_branch : World X -> Branch -> list Repository;
  re_search : string -> string -> bool;
  re_escape : string -> string;
  json_message : string -> option string;
  uniquifier : World X -> string
}.
Arguments gh_pr {X} c.
Arguments gh_commits {X} c.
Arguments gh_user {X} c.
Arguments gh_commit_tree {X} c.
Arguments gh_merge {X} c.
Arguments gh_rebase {X} c.
Arguments gh_post_commit {X} c.
Arguments gh_set_ref {X} c.
Arguments git_setup {X} c.
Arguments http_get {X} c.
Arguments make_message {X} c.
Arguments build_merge_message {X} c.
Arguments having_branch {X} c.
Arguments re_search {X} c.
Arguments re_escape {X} c.
Arguments json_message {X} c.
Arguments uniquifier {X} c.

(** [StagingSlice], without the client, which is the one of the repository the
    slice is stored under. *)
Record StagingSlice := mkSlice {
  slice_head : string;
  working_copy : string
}.

Abbreviation StagingState := (gmap nat StagingSlice).

(** Python sets of strings or pairs are listed without repetition, in order of
    first occurrence. *)
Fixpoint dedup_by {A} (eqb : A -> A -> bool) (l : list A) : list A :=
  match l with
  | [] => []
  | x :: l' => x :: List.filter (fun y => negb (eqb x y)) (dedup_by eqb l')
  end.

Definition identity_eqb (a b : string * string) : bool :=
  String.eqb (fst a) (fst b) && String.eqb (snd a) (snd b).

Fixpoint insert_sorted (x : string) (l : list string) : list string :=
  match l with
  | [] => [x]
  | y :: l' => if String.leb x y then x :: l else y :: insert_sorted x l'
  end.

(** [sorted], on strings. *)
Definition sorted (l : list string) : list string := fold_right insert_sorted [] l.

Definition in_strings (x : string) (l : list string) : bool := existsb (String.eqb x) l.

(** [bool != int], as Python compares them: [True] is 1 and [False] is 0. *)
Definition bool_ne_int (b : bool) (n : nat) : bool :=
  negb (Nat.eqb n (if b then 1 else 0)).

Definition str_of_bool (b : bool) : string := if b then "True" else "False".

Definition with_c_message (m : string) (c : PrCommit) : PrCommit :=
  mkPrCommit (sha c) (parents c) m (c_author c) (c_committer c).

Section WithCollab.
Context {X : Type} (C : Collab X).

Definition remote_read {A} (f : Remote X -> result A) : M X A :=
  fun w => (f (remote w), w).

Definition remote_call {A} (f : Remote X -> result A * Remote X) : M X A :=
  fun w => let '(r, rm) := f (remote w) in (r, set_remote rm w).

(** [gh.set_ref(ref, sha)] of the client of repository [repo]. *)
Definition set_ref (repo : nat) (ref : string) (h : string) : M X unit :=
  remote_call (fun r => gh_set_ref C r repo ref h).

(** [pr.display_name]: the name of the repository, [#], the number. *)
Definition display_name (pr : PullRequest) : M X string :=
  let* r := get_repo (repository pr) in
  ret (repo_name r ++ "#" ++ pretty (number pr))%string.

(** [is_mentioned], without [full_reference]. *)
Definition is_mentioned (msg : string) (pr : PullRequest) (full_reference : bool)
  : M X bool :=
  if full_reference then
    let* dn := display_name pr in
    ret (re_search C ("\b" ++ re_escape C dn ++ "\b")%string msg)
  else
    let* r := get_repo (repository pr) in
    ret (re_search C ("( |\b" ++ repo_name r ++ ")#" ++ pretty (number pr) ++ "\b")%string msg).

(** [add_self_references]; the commits are returned instead of updated. *)
Fixpoint add_self_references (pr : PullRequest) (commits : list PrCommit)
  : M X (list PrCommit) :=
  match commits with
  | [] => ret []
  | c :: commits' =>
      let* mentioned := is_mentioned (c_message c) pr false in
      let* c' :=
        if mentioned then ret c
        else
          let* m := lift_result (Msg.from_message (Msg.OfStr (c_message c))) in
          let* dn := display_name pr in
          let h := Msg.hadd (Msg.hpop (Msg.headers m) "Part-Of") "Part-Of" dn in
          ret (with_c_message (Msg.to_str (Msg.mkMessage (Msg.body m) h)) c) in
      let* rest := add_self_references pr commits' in
      ret (c' :: rest)
  end.

Definition set_commits_map (id : nat) (m : gmap string string) : M X unit :=
  write_pr id (with_commits_map m).

Definition author_pair (c : PrCommit) : string * string :=
  (id_name (c_author c), id_email (c_author c)).
Definition committer_pair (c : PrCommit) : string * string :=
  (id_name (c_committer c), id_email (c_committer c)).

Definition stage_squash (id : nat) (pr : PullRequest) (repo : nat) (target : string)
    (commits : list PrCommit) (related_prs : list nat) : M X string :=
  let* w := get in
  let msg := build_merge_message C w id (ArgPr id) related_prs in
  let authors := dedup_by identity_eqb (map author_pair commits) in
  let '(author, msg) :=
    match authors with
    | [(name, email)] => (Some (mkIdentity name email), msg)
    | _ =>
        (None,
         Msg.mkMessage (Msg.body msg)
           (Msg.hextend (Msg.headers msg)
              (map (fun v => ("Co-Authored-By", v))
                 (sorted (map (fun a => fst a ++ " <" ++ snd a ++ ">")%string authors)))))
    end in
  let committers := dedup_by identity_eqb (map committer_pair commits) in
  let committer :=
    match committers with
    | [(name, email)] => Some (mkIdentity name email)
    | _ => None
    end in
  let* original_head := gh_head repo target in
  let* merged := remote_call (fun r => gh_merge C r repo (head pr) target "temp merge") in
  let* new_head := remote_call (fun r => gh_post_commit C r repo
                     (mkCommitSpec (Msg.to_str msg) (m_tree merged) [original_head]
                                   author committer)) in
  let* _ := set_ref repo target new_head in
  let commits_map : gmap string string :=
    <[EmptyString := new_head]> (list_to_map (map (fun c => (sha c, new_head)) commits)) in
  let* _ := set_commits_map id commits_map in
  ret new_head.

Definition stage_rebase_ff (id : nat) (pr : PullRequest) (repo : nat) (target : string)
    (commits : list PrCommit) (related_prs : list nat) : M X string :=
  let* last_commit := from_option IndexError (last commits) in
  let* w := get in
  let msg := build_merge_message C w id (ArgStr (c_message last_commit)) related_prs in
  let* earlier := add_self_references pr (removelast commits) in
  let commits' := earlier ++ [with_c_message (Msg.to_str msg) last_commit] in
  let* '(new_head, mapping) :=
    remote_call (fun r => gh_rebase C r repo (number pr) target false commits') in
  let* _ := set_commits_map id (<[EmptyString := new_head]> mapping) in
  ret new_head.

Definition stage_rebase_merge (id : nat) (pr : PullRequest) (repo : nat) (target : string)
    (commits : list PrCommit) (related_prs : list nat) : M X string :=
  let* commits' := add_self_references pr commits in
  let* '(h, mapping) :=
    remote_call (fun r => gh_rebase C r repo (number pr) target true commits') in
  let* w := get in
  let msg := build_merge_message C w id (ArgPr id) related_prs in
  let* merged := remote_call (fun r => gh_merge C r repo h target (Msg.to_str msg)) in
  let merge_head := m_sha merged in
  let* _ := set_commits_map id (<[EmptyString := merge_head]> mapping) in
  ret merge_head.

Definition stage_merge (id : nat) (pr : PullRequest) (repo : nat) (target : string)
    (commits : list PrCommit) (related_prs : list nat) : M X string :=
  let* pr_head := from_option IndexError (last commits) in
  let head_parents := dedup_by String.eqb (parents pr_head) in
  let* base_commit :=
    if (1 <? length head_parents)%nat then
      let merge := List.filter (fun p => negb (in_strings p (map sha commits))) head_parents in
      let external_parents := length merge in
      if (1 <? external_parents)%nat then
        raise (Unmergeable
                 [VStr ("The PR head can only have one parent from the base branch "
                        ++ "(not part of the PR itself), found "
                        ++ pretty external_parents ++ ": "
                        ++ String.concat ", " merge)%string])
      else ret (match merge with [b] => Some b | _ => None end)
    else ret None in
  let commits_map : gmap string string := list_to_map (map (fun c => (sha c, sha c)) commits) in
  match base_commit with
  | Some base =>
      if negb (is_empty base) then
        (* replicate pr_head with base_commit replaced by the current head *)
        let* original_head := gh_head repo target in
        let* merged :=
          remote_call (fun r => gh_merge C r repo (sha pr_head) target "temp merge") in
        let new_parents :=
          original_head :: List.filter (fun p => negb (String.eqb p base)) head_parents in
        let* w := get in
        let msg := build_merge_message C w id (ArgStr (c_message pr_head)) related_prs in
        let* copy := remote_call (fun r => gh_post_commit C r repo
                       (mkCommitSpec (Msg.to_str msg) (m_tree merged) new_parents
                                     (Some (c_author pr_head)) (Some (c_committer pr_head)))) in
        let* _ := set_ref repo target copy in
        let* _ := set_commits_map id
                    (<[sha pr_head := copy]> (<[EmptyString := copy]> commits_map)) in
        ret copy
      else
        let* w := get in
        let msg := build_merge_message C w id (ArgPr id) [] in
        let* merged := remote_call (fun r => gh_merge C r repo (head pr) target (Msg.to_str msg)) in
        let* _ := set_commits_map id (<[EmptyString := m_sha merged]> commits_map) in
        ret (m_sha merged)
  | None =>
      (* otherwise do a regular merge *)
      let* w := get in
      let msg := build_merge_message C w id (ArgPr id) [] in
      let* merged := remote_call (fun r => gh_merge C r repo (head pr) target (Msg.to_str msg)) in
      let* _ := set_commits_map id (<[EmptyString := m_sha merged]> commits_map) in
      ret (m_sha merged)
  end.

(** The four fields compared by [stage], with the values to write back. *)
Record Invalid := mkInvalid {
  inv_head : option string;
  inv_target : option nat;
  inv_squash : option bool;
  inv_message : option string
}.

Definition invalid_keys (i : Invalid) : list string :=
  match inv_head i with Some _ => ["head"] | None => [] end
  ++ match inv_target i with Some _ => ["target"] | None => [] end
  ++ match inv_squash i with Some _ => ["squash"] | None => [] end
  ++ match inv_message i with Some _ => ["message"] | None => [] end.

(** [{**invalid, 'state': 'opened', 'head': pr_head}] *)
Definition apply_invalid (i : Invalid) (pr_head : string) (p : PullRequest) : PullRequest :=
  let p := match inv_target i with Some t => with_target t p | None => p end in
  let p := match inv_squash i with Some s => with_squash s p | None => p end in
  let p := match inv_message i with Some m => with_message m p | None => p end in
  with_head pr_head (with_state "opened" p).

Definition has_emails (c : PrCommit) : bool :=
  negb (is_empty (id_email (c_author c))) && negb (is_empty (id_email (c_committer c))).

(** [match method: ...], which binds [fn]. *)
Definition strategy (method : Method)
  : nat -> PullRequest -> nat -> string -> list PrCommit -> list nat -> M X string :=
  match method with
  | merge => stage_merge
  | rebase_merge => stage_rebase_merge
  | rebase_ff => stage_rebase_ff
  | squash_m => stage_squash
  end.

(** [pr.merge_method or ('rebase-ff' if commits == 1 else None)] *)
Definition choose_method (pr : PullRequest) (commits : nat) : option Method :=
  match merge_method pr with
  | Some m => Some m
  | None => if (commits =? 1)%nat then Some rebase_ff else None
  end.

(** [stage] up to the choice of the strategy: the pull request as read, the
    method and the commits. *)
Definition stage_prepare (id : nat) (repo : nat)
  : M X (PullRequest * option Method * list PrCommit) :=
  let* pr := get_pr id in
  let* prdict := remote_read (fun r => gh_pr C r repo (number pr)) in
  let commits := pd_commits prdict in
  let method : option Method := choose_method pr commits in
  let* _ :=
    if (50 <? commits)%nat then
      match method with
      | None => raise (AttributeError "'NoneType' object has no attribute 'startswith'")
      | Some m =>
          if startswith "rebase" (method_name m)
          then raise (Unmergeable [VPr id; VStr "Rebasing 50 commits is too much."])
          else ret tt
      end
    else ret tt in
  let* _ :=
    if (250 <? commits)%nat then
      raise (Unmergeable
               [VPr id;
                VStr ("Merging PRs of 250 or more commits is not supported "
                      ++ "(https://developer.github.com/v3/pulls/#list-commits-on-a-pull-request)")%string])
    else ret tt in
  let* pr_commits := remote_read (fun r => gh_commits C r repo (number pr)) in
  let* _ :=
    for_each pr_commits (fun c =>
      if has_emails c then ret tt
      else raise (Unmergeable
                    [VPr id;
                     VStr ("All commits must have author and committer email, "
                           ++ "missing email on " ++ sha c ++ " indicates the authorship is "
                           ++ "most likely incorrect.")%string])) in
  (* sync and signal possibly missed updates *)
  let* last_commit := from_option IndexError (last pr_commits) in
  let pr_head := sha last_commit in
  let '(i_head, diff) :=
    if negb (String.eqb (head pr) pr_head)
    then (Some pr_head, [("Head", head pr, pr_head)])
    else (None, []) in
  let* target_branch := get_branch (Store.target pr) in
  let* '(i_target, diff) :=
    if negb (String.eqb (branch_name target_branch) (pd_base_ref prdict)) then
      let* r := get_repo (repository pr) in
      let* w := get in
      let found := List.filter (fun b => String.eqb (branch_name b) (pd_base_ref prdict)
                                    && Nat.eqb (branch_project b) (repo_project r))
                          (map snd (map_to_list (branches w))) in
      match found with
      | [] =>
          let* _ := unlink_pr id in
          raise (Unmergeable
                   [VPr id;
                    VStr "While staging, found this PR had been retargeted to an un-managed branch."])
      | [b] =>
          ret (Some (branch_id b),
               diff ++ [("Target branch", branch_name target_branch, branch_name b)])
      | _ => raise ValueError
      end
    else ret (None, diff) in
  let '(i_squash, diff) :=
    if bool_ne_int (squash pr) commits && (commits =? 1)%nat
    then (Some (commits =? 1)%nat,
          diff ++ [("Single commit", str_of_bool (squash pr), str_of_bool (commits =? 1)%nat)])
    else (None, diff) in
  let msg := make_message C prdict in
  let '(i_message, diff) :=
    if negb (String.eqb (message pr) msg)
    then (Some msg, diff ++ [("Message", message pr, msg)])
    else (None, diff) in
  let invalid := mkInvalid i_head i_target i_squash i_message in
  let* _ :=
    match invalid_keys invalid with
    | [] => ret tt
    | keys =>
        let* _ := write_pr id (apply_invalid invalid pr_head) in
        raise (Mismatch keys diff)
    end in
  let* _ :=
    match reviewed_by pr with
    | Some partner_id =>
        let* partner := get_partner partner_id in
        if String.eqb (partner_name partner) (github_login partner) then
          let* gh_name := remote_read (fun r => gh_user C r repo (github_login partner)) in
          if negb (is_empty gh_name) then
            modify (fun w => set_partners
                               (<[partner_id := mkPartner gh_name (github_login partner)]>
                                  (partners w)) w)
          else ret tt
        else ret tt
    | None => ret tt
    end in
  ret (pr, method, pr_commits).

Definition stage (id : nat) (repo : nat) (target : string) (related_prs : list nat)
  : M X (Method * string) :=
  let* '(pr, method, pr_commits) := stage_prepare id repo in
  match method with
  | Some m =>
      let* new_head := strategy m id pr repo target pr_commits related_prs in
      ret (m, new_head)
  | None =>
      (* no case of the [match] bound [fn] *)
      raise (UnboundLocalError "fn")
  end.

Definition tmp_ref (name : string) : string := ("tmp." ++ name)%string.

(** [new_heads[pr] = head]: a dictionary keeps the place of a key it has. *)
Fixpoint dict_set (k : nat) (v : string) (d : list (nat * string)) : list (nat * string) :=
  match d with
  | [] => [(k, v)]
  | (k', v') :: d' => if Nat.eqb k k' then (k, v) :: d' else (k', v') :: dict_set k v d'
  end.

(** The body of [for to_revert in new_heads.keys()]. *)
Definition revert_one (staging : StagingState) (to_revert : nat) : M X unit :=
  let* p := get_pr to_revert in
  let* it := from_option KeyError (staging !! repository p) in
  let* b := get_branch (Store.target p) in
  set_ref (repository p) (tmp_ref (branch_name b)) (slice_head it).

(** The handler [except Exception:] of [stage_batch], up to its [raise]. *)
Definition rollback (staging : StagingState) (repo : nat) (target original_head : string)
    (new_heads : list (nat * string)) : M X unit :=
  (* reset the head which failed *)
  let* _ := set_ref repo target original_head in
  (* then reset every previous update *)
  for_each (map fst new_heads) (revert_one staging).

(** How the loop of [stage_batch] goes on after a pull request: with the new
    heads, or out of the function with an empty batch. *)
Inductive progress :=
| Staged (new_heads : list (nat * string))
| Mismatched.

(** What the two [except] clauses of the outer [try] do with an exception. *)
Definition classify (id : nat) (pr : PullRequest) (e : exn) : M X progress :=
  match e with
  | GhMergeError what => raise (MergeError [VPr id] what)
  | Mismatch keys diff =>
      let* _ := send (StagingMismatch (repository pr) (number pr) id keys diff) in
      ret Mismatched
  | _ => raise e
  end.

(** One round of [for pr in prs] in [stage_batch]. *)
Definition stage_one (prs : list nat) (staging : StagingState)
    (new_heads : list (nat * string)) (id : nat) : M X progress :=
  let* pr := get_pr id in
  let* _ := from_option KeyError (staging !! repository pr) in
  let* b := get_branch (Store.target pr) in
  let target := tmp_ref (branch_name b) in
  let* original_head := gh_head (repository pr) target in
  try_except
    (let* '(_, new_head) :=
       try_except
         (stage id (repository pr) target (List.filter (fun q => negb (Nat.eqb q id)) prs))
         (fun e =>
            let* _ := rollback staging (repository pr) target original_head new_heads in
            raise e) in
     ret (Staged (dict_set id new_head new_heads)))
    (classify id pr).

Fixpoint stage_loop (prs : list nat) (staging : StagingState) (todo : list nat)
    (new_heads : list (nat * string)) : M X progress :=
  match todo with
  | [] => ret (Staged new_heads)
  | id :: todo' =>
      let* r := stage_one prs staging new_heads id in
      match r with
      | Staged new_heads' => stage_loop prs staging todo' new_heads'
      | Mismatched => ret Mismatched
      end
  end.

(** [for pr, head in new_heads.items(): staging[pr.repository].head = head] *)
Fixpoint update_heads (new_heads : list (nat * string)) (staging : StagingState)
  : M X StagingState :=
  match new_heads with
  | [] => ret staging
  | (id, h) :: rest =>
      let* p := get_pr id in
      let* it := from_option KeyError (staging !! repository p) in
      update_heads rest (<[repository p := mkSlice h (working_copy it)]> staging)
  end.

Definition fresh_id {A} (m : gmap nat A) : nat := S (max_list (map fst (map_to_list m))).

(** [stage_batch].  The staging state is handed back instead of updated in
    place; the batch is [None] for the empty recordset. *)
Definition stage_batch (prs : list nat) (staging : StagingState)
  : M X (option nat * StagingState) :=
  let* r := stage_loop prs staging prs [] in
  match r with
  | Mismatched => ret (None, staging)
  | Staged new_heads =>
      (* update meta to new heads *)
      let* staging' := update_heads new_heads staging in
      let* first := from_option IndexError (List.head prs) in
      let* p := get_pr first in
      let* w := get in
      let id := fresh_id (batches w) in
      let* _ := modify (fun w => set_batches
                           (<[id := mkBatchRec id (Store.target p) prs]> (batches w)) w) in
      ret (Some id, staging')
  end.

(** The classes of the addon's [exceptions] module: [Unmergeable] and
    [Mismatch] derive from [MergeError]. *)
Definition is_merge_error (e : exn) : bool :=
  match e with
  | MergeError _ _ | Unmergeable _ | Mismatch _ _ => true
  | _ => false
  end.

Definition is_unmergeable (e : exn) : bool :=
  match e with Unmergeable _ => true | _ => false end.

Definition exn_args (e : exn) : list pyval :=
  match e with
  | MergeError args _ | Unmergeable args => args
  | Mismatch _ _ => [VDict; VDict]
  | _ => []
  end.

(** [e.__cause__ or e.__context__], as text. *)
Definition exn_cause (e : exn) : option string :=
  match e with
  | MergeError _ what => Some what
  | _ => None
  end.

(** [str(v)] of a value that is true, [None] of one that is false. *)
Definition truthy_text (v : pyval) : option string :=
  match v with
  | VStr r => if is_empty r then None else Some r
  | VPr id => Some ("runbot_merge.pull_requests(" ++ pretty id ++ ",)")%string
  | VDict => Some "{...}"
  end.

Definition failure_reason (e : exn) : option string :=
  let reason :=
    match exn_args e with
    | _ :: a1 :: _ =>
        match truthy_text a1 with
        | Some r => Some r
        | None => exn_cause e
        end
    | _ => exn_cause e
    end in
  (* if the reason is a json document, assume it's a github error *)
  match reason with
  | Some r =>
      match json_message C r with
      | Some m => Some (lower m)
      | None => Some r
      end
  | None => None
  end.

(** The handler [except exceptions.MergeError as e:] of [stage_batches]. *)
Definition on_merge_error (staged : list nat) (e : exn) : M X unit :=
  let* a0 := from_option IndexError (List.head (exn_args e)) in
  let* id :=
    match a0 with
    | VPr id => ret id
    | VStr _ => raise (AttributeError "'str' object has no attribute 'display_name'")
    | VDict => raise (AttributeError "'dict' object has no attribute 'display_name'")
    end in
  (* the log line reads [pr.display_name] *)
  let* pr := get_pr id in
  if (match staged with [] => true | _ => false end) || is_unmergeable e then
    let reason := failure_reason e in
    let* _ := write_pr id (with_state "error") in
    send (MergeFailed (repository pr) (number pr) id reason)
  else ret tt.

Definition union_ids (a b : list nat) : list nat :=
  a ++ List.filter (fun x => negb (existsb (Nat.eqb x) a)) b.

Fixpoint stage_batches_loop (batch_limit : nat) (batched_prs : list (list nat))
    (staging : StagingState) (staged : list nat) : M X (list nat * StagingState) :=
  match batched_prs with
  | [] => ret (staged, staging)
  | batch :: others =>
      if (batch_limit <=? length staged)%nat then ret (staged, staging)
      else
        let* '(staged', staging') :=
          try_except
            (let* '(b, staging') := stage_batch batch staging in
             ret (union_ids staged (match b with Some id => [id] | None => [] end),
                  staging'))
            (fun e =>
               if is_merge_error e
               then let* _ := on_merge_error staged e in ret (staged, staging)
               else raise e) in
        stage_batches_loop batch_limit others staging' staged'
  end.

Definition stage_batches (branch : Branch) (batched_prs : list (list nat))
    (staging : StagingState) : M X (list nat * StagingState) :=
  let* w := get in
  let* project := from_option MissingError (projects w !! branch_project branch) in
  stage_batches_loop (batch_limit project) batched_prs staging [].

(** [pr.head for pr in all_prs if pr.repository == repo] *)
Fixpoint heads_in (repo : nat) (ids : list nat) : M X (list string) :=
  match ids with
  | [] => ret []
  | id :: ids' =>
      let* p := get_pr id in
      let* hs := heads_in repo ids' in
      ret (if Nat.eqb (repository p) repo then head p :: hs else hs)
  end.

(** The loop of [staging_setup] over the repositories of the branch. *)
Fixpoint setup_repos (target : Branch) (all_prs : list nat) (rs : list Repository)
    (original_heads : gmap nat string) (staging : StagingState)
  : M X (gmap nat string * StagingState) :=
  match rs with
  | [] => ret (original_heads, staging)
  | repo :: rs' =>
      let* h := gh_head (repo_id repo) (branch_name target) in
      (* create tmp staging branch *)
      let* _ := set_ref (repo_id repo) (tmp_ref (branch_name target)) h in
      let* pr_heads := heads_in (repo_id repo) all_prs in
      let* wc := lift_result (git_setup C repo (branch_name target) pr_heads) in
      setup_repos target all_prs rs' (<[repo_id repo := h]> original_heads)
                  (<[repo_id repo := mkSlice h wc]> staging)
  end.

(** [staging_setup].  The third component lists the repositories in the
    order in which the dictionaries received them. *)
Definition staging_setup (target : Branch) (batched_prs : list (list nat))
  : M X (gmap nat string * StagingState * list Repository) :=
  let all_prs := concat batched_prs in
  let* w := get in
  let rs := having_branch C w target in
  let* '(original_heads, staging) := setup_repos target all_prs rs ∅ ∅ in
  ret (original_heads, staging, rs).

(** [INSERT ... ON CONFLICT (sha) DO UPDATE SET to_check=true] *)
Definition upsert_commit (sha : string) (to_check : bool) : M X unit :=
  modify (fun w =>
    set_commit_rows
      (match commit_rows w !! sha with
       | Some _ => <[sha := true]> (commit_rows w)
       | None => <[sha := to_check]> (commit_rows w)
       end) w).

Definition WAIT_FOR_VISIBILITY : list nat := [10; 10; 10; 10].

(** Modelled from the spec: [utils.backoff], which is not part of the module.
    The check is retried on a fixed schedule, four attempts, and exhaustion
    is a time-out failure of the publish step.  [attempts] is what is left of
    the schedule and [i] the number of the attempt. *)
Fixpoint wait_for_visibility (attempts : list nat) (i : nat)
    (repo_name refname expected_head token : string) : M X unit :=
  match attempts with
  | [] =>
      raise (TimeoutError ("Staged head not updated after "
                           ++ pretty (list_sum WAIT_FOR_VISIBILITY) ++ " seconds")%string)
  | _ :: later =>
      let* w := get in
      let* visible := lift_result
        (Visibility.check_visibility (http_get C (remote w) i)
           repo_name refname expected_head token) in
      if visible then ret tt
      else wait_for_visibility later (S i) repo_name refname expected_head token
  end.

(** The loop of [stage_into] over the staging state: a commit record per
    repository, and a dummy commit where nothing was staged. *)
Fixpoint record_heads (rs : list Repository) (original_heads : gmap nat string)
    (staging : StagingState)
  : M X (list (nat * string) * list (nat * string) * StagingState) :=
  match rs with
  | [] => ret ([], [], staging)
  | repo :: rs' =>
      let* it := from_option KeyError (staging !! repo_id repo) in
      let* original := from_option KeyError (original_heads !! repo_id repo) in
      let* '(commit, new_head, staging1) :=
        if negb (String.eqb (slice_head it) original) then
          let* _ := upsert_commit (slice_head it) true in
          ret (slice_head it, slice_head it, staging)
        else
          let* tree := remote_read (fun r => gh_commit_tree C r (repo_id repo) (slice_head it)) in
          let* w := get in
          let msg := ("force rebuild" ++ String nl (String nl "uniquifier: ")
                      ++ uniquifier C w ++ String nl "For-Commit-Id: "
                      ++ slice_head it ++ String nl EmptyString)%string in
          let* dummy_head := remote_call (fun r => gh_post_commit C r (repo_id repo)
                                (mkCommitSpec msg tree [slice_head it] None None)) in
          let* _ := upsert_commit (slice_head it) false in
          let* _ := upsert_commit dummy_head true in
          ret (slice_head it, dummy_head,
               <[repo_id repo := mkSlice dummy_head (working_copy it)]> staging) in
      let* '(heads, commits, staging2) := record_heads rs' original_heads staging1 in
      ret ((repo_id repo, new_head) :: heads, (repo_id repo, commit) :: commits, staging2)
  end.

(** The last loop of [stage_into]: the staging branch, then the wait. *)
Fixpoint publish (branch : Branch) (token : string) (rs : list Repository)
    (staging : StagingState) : M X unit :=
  match rs with
  | [] => ret tt
  | repo :: rs' =>
      let* it := from_option KeyError (staging !! repo_id repo) in
      let refname := ("staging." ++ branch_name branch)%string in
      let* _ := set_ref (repo_id repo) refname (slice_head it) in
      let* _ := wait_for_visibility WAIT_FOR_VISIBILITY 0 (repo_name repo) refname
                  (slice_head it) token in
      publish branch token rs' staging
  end.

Definition stage_into (branch : Branch) (batched_prs : list (list nat))
  : M X (option StagingRec) :=
  let* '(original_heads, staging, order) := staging_setup branch batched_prs in
  let* '(staged, staging) := stage_batches branch batched_prs staging in
  match staged with
  | [] => ret None
  | _ =>
      let* '(heads, commits, staging) := record_heads order original_heads staging in
      (* create actual staging object *)
      let st := mkStagingRec (branch_id branch) staged heads commits in
      let* _ := modify (fun w => set_stagings (stagings w ++ [st]) w) in
      (* create staging branch from tmp *)
      let* w := get in
      let* project := from_option MissingError (projects w !! branch_project branch) in
      let* _ := publish branch (github_token project) (having_branch C w branch) staging in
      ret (Some st)
  end.

End WithCollab.

End Staging.

(** ** The ready-set selector *)

Module Selector.
Import Store.
Local Open Scope m_scope.

Fixpoint strip_prefix (pre s : string) : option string :=
  match pre, s with
  | EmptyString, _ => Some s
  | String a pre', String b s' => if Ascii.eqb a b then strip_prefix pre' s' else None
  | String _ _, EmptyString => None
  end.

(** [:patch-] and one digit or more, to the end of the string. *)
Definition is_patch_tail (s : string) : bool :=
  match strip_prefix ":patch-" s with
  | Some digits => negb (is_empty digits) && all_chars is_digit digits
  | None => false
  end.

(** [label SIMILAR TO '%:patch-[[:digit:]]+']: some suffix of the label is a
    patch tail. *)
Fixpoint is_patch_label (s : string) : bool :=
  is_patch_tail s ||
  match s with
  | String _ rest => is_patch_label rest
  | EmptyString => false
  end.

(** The [CASE] of the [GROUP BY]: the id as text for a patch label, the label
    otherwise. *)
Definition dedup_key (row : nat * PullRequest) : string :=
  if is_patch_label (label (snd row)) then pretty (fst row) else label (snd row).

Definition group_key (row : nat * PullRequest) : nat * string :=
  (target (snd row), dedup_key row).

Definition group_key_eqb (a b : nat * string) : bool :=
  Nat.eqb (fst a) (fst b) && String.eqb (snd a) (snd b).

(** The [WHERE] clause. *)
Definition selectable (branch_ids : list nat) (row : nat * PullRequest) : bool :=
  existsb (Nat.eqb (target (snd row))) branch_ids
  && negb (String.eqb (state (snd row)) "merged")
  && negb (String.eqb (state (snd row)) "closed").

(** The [HAVING] clause. *)
Definition qualifies (g : list (nat * PullRequest)) : bool :=
  existsb (fun row => String.eqb (state (snd row)) "ready") g
  || existsb (fun row => Nat.eqb (priority (snd row)) 0) g.

Definition min_of (l : list nat) : nat :=
  match l with
  | [] => 0
  | x :: l' => fold_left Nat.min l' x
  end.

(** The groups of the [GROUP BY], in the order in which their first row comes
    in the table. *)
Definition groups (rows : list (nat * PullRequest)) : list (list (nat * PullRequest)) :=
  map (fun k => List.filter (fun row => group_key_eqb (group_key row) k) rows)
      (Staging.dedup_by group_key_eqb (map group_key rows)).

(** [ORDER BY min(pr.priority), min(pr.id)] *)
Definition min_priority (g : list (nat * PullRequest)) : nat :=
  min_of (map (fun row => priority (snd row)) g).

Definition row_le (a b : list (nat * PullRequest)) : bool :=
  let pa := min_priority a in
  let pb := min_priority b in
  (pa <? pb)%nat || ((pa =? pb)%nat && (min_of (map fst a) <=? min_of (map fst b))%nat).

Fixpoint insert_row (g : list (nat * PullRequest)) (l : list (list (nat * PullRequest))) :=
  match l with
  | [] => [g]
  | h :: l' => if row_le g h then g :: l else h :: insert_row g l'
  end.

Definition order_rows (l : list (list (nat * PullRequest)))
  : list (list (nat * PullRequest)) :=
  fold_right insert_row [] l.

(** The rows the query answers, as groups of pull requests.  A row of the
    table is an id and the record stored under it. *)
Definition ready_groups (branch_ids : list nat) (table : list (nat * PullRequest))
  : list (list (nat * PullRequest)) :=
  order_rows (List.filter qualifies (groups (List.filter (selectable branch_ids) table))).

(** [ready_prs]: the priority and the ids of each row. *)
Definition ready_prs {X} (for_branch : Branch) : M X (list (nat * list nat)) :=
  let* w := get in
  ret (map (fun g => (min_priority g, map fst g))
           (ready_groups [branch_id for_branch] (map_to_list (prs w)))).

Fixpoint takewhile {A} (p : A -> bool) (l : list A) : list A :=
  match l with
  | x :: l' => if p x then x :: takewhile p l' else []
  | [] => []
  end.

Section WithCollab.
Context {X : Type} (C : Staging.Collab X).

(** [any(prs.mapped('blocked'))] *)
Fixpoint any_blocked (ids : list nat) : M X bool :=
  match ids with
  | [] => ret false
  | id :: ids' =>
      let* p := get_pr id in
      let* b := any_blocked ids' in
      ret (blocked p || b)
  end.

Fixpoint unblocked_rows (rows : list (nat * list nat)) : M X (list (nat * list nat)) :=
  match rows with
  | [] => ret []
  | (p, ids) :: rows' =>
      let* b := any_blocked ids in
      let* rest := unblocked_rows rows' in
      ret (if b then rest else (p, ids) :: rest)
  end.

Fixpoint batches_prs (ids : list nat) : M X (list (list nat)) :=
  match ids with
  | [] => ret []
  | id :: ids' =>
      let* w := get in
      let* b := from_option MissingError (batches w !! id) in
      let* rest := batches_prs ids' in
      ret (batch_prs b :: rest)
  end.

Definition without_split (sid : nat) (b : Branch) : Branch :=
  mkBranch (branch_id b) (branch_name b) (branch_project b) (active_staging_id b)
           (List.filter (fun s => negb (Nat.eqb s sid)) (split_ids b)).

(** [split_ids.unlink()] *)
Definition unlink_split (sid : nat) : M X unit :=
  modify (fun w => set_branches (without_split sid <$> branches w)
                     (set_splits (delete sid (splits w)) w)).

Definition try_staging (branch : Branch) : M X (option StagingRec) :=
  match active_staging_id branch with
  | Some _ => ret None
  | None =>
      let* all_rows := ready_prs branch in
      let* rows := unblocked_rows all_rows in
      match rows with
      | [] => ret None
      | (priority, _) :: _ =>
          let same := map snd (takewhile (fun r => Nat.eqb (fst r) priority) rows) in
          let* batched_prs :=
            if Nat.eqb priority 0 || Nat.eqb priority 1 then
              (* p=0 take precedence over all else *)
              ret same
            else
              match split_ids branch with
              | sid :: _ =>
                  let* w := get in
                  let* split := from_option MissingError (splits w !! sid) in
                  let* bs := batches_prs (split_batch_ids split) in
                  let* _ := unlink_split sid in
                  ret bs
              | [] => ret same
              end in
          Staging.stage_into C branch batched_prs
      end
  end.

End WithCollab.

End Selector.

(** * Definitions used by the statements *)

(** ** Shapes of messages *)

Module MessageShape.
Import Msg.
Local Open Scope string_scope.

(** The lines after the title as the parser keeps them when none is a trailer:
    a blank line stays only where a kept non-blank line follows it, so that
    blank lines at the end go and a run of blank lines leaves one. *)
Fixpoint squeeze_blank (rest : list string) : list string :=
  match rest with
  | [] => []
  | x :: r =>
      let b := squeeze_blank r in
      if is_empty x then (if last_is_nonblank b then x :: b else b) else x :: b
  end.

(** The separation after the title. *)
Definition separated (b : list string) : list string :=
  if last_is_nonblank b then EmptyString :: b else b.

(** No blank line is followed by a blank line or by the end. *)
Fixpoint single_spaced (l : list string) : bool :=
  match l with
  | [] => true
  | x :: r =>
      (if is_empty x
       then match r with [] => false | y :: _ => negb (is_empty y) end
       else true) && single_spaced r
  end.

(** A line that is not trailer-shaped. *)
Definition no_trailer (l : string) : Prop := HEADER_fullmatch l = None.

Definition no_linebreak (l : string) : Prop :=
  all_chars (fun c => negb (is_linebreak c)) l = true.

(** The trailers as [__str__] writes them: for each capitalized key, in order
    of first occurrence and with [Co-authored-by] last, the values recorded
    under that key, whatever its case, in their order. *)
Definition written_trailers (h : Headers) : Headers :=
  flat_map (fun k => map (pair k) (getlist h k))
    (sort_cab_last (ordered_set [] (map capitalize (keys h)))).

(** What follows the body and its newline: nothing when there is no trailer;
    otherwise an empty line, and a line [Key: value] for each trailer. *)
Definition trailers_text (h : Headers) : string :=
  match h with
  | [] => EmptyString
  | _ =>
      String nl
        (String.concat EmptyString
           (map (fun kv => fst kv ++ ": " ++ snd kv ++ String nl EmptyString)
              (written_trailers h)))
  end.

(** A trailer that [__str__] writes on a line which [HEADER] matches. *)
Definition trailer_ok (kv : string * string) : Prop :=
  is_empty (fst kv) = false
  /\ all_chars is_key_char (fst kv) = true
  /\ no_linebreak (snd kv).

(** The line of a trailer, without its end. *)
Definition trailer_text (kv : string * string) : string := fst kv ++ ": " ++ snd kv.

(** Lines, each with a newline after it. *)
Definition terminated (ls : list string) : string :=
  String.concat EmptyString (map (fun l => l ++ String nl EmptyString) ls).

End MessageShape.

(** ** Shapes of labels *)

Module SelectorShape.
Local Open Scope string_scope.

(** A label as the hosting provider gives it: the owner of the head
    repository, a colon, and the branch.  The pattern of the query, which asks
    for a colon before [patch-], presumes it. *)
Definition provider_label (l : string) : Prop :=
  exists owner branch, l = (owner ++ ":" ++ branch)%string.

End SelectorShape.

(** ** Properties of computations *)

Module Hoare.
Import Store.

Section Definitions.
Context {X : Type}.

(** [stable R m]: every run of [m], whether it returns or raises, takes a
    state to one related to it by [R]. *)
Definition stable {A} (R : World X -> World X -> Prop) (m : M X A) : Prop :=
  forall w r w', m w = (r, w') -> R w w'.

(** [stable_ok R m]: the runs of [m] that return take a state to one related
    to it by [R]. *)
Definition stable_ok {A} (R : World X -> World X -> Prop) (m : M X A) : Prop :=
  forall w a w', m w = (Ok a, w') -> R w w'.

(** [ensures Q m]: when [m] returns, [Q] holds of its value and final state. *)
Definition ensures {A} (Q : A -> World X -> Prop) (m : M X A) : Prop :=
  forall w a w', m w = (Ok a, w') -> Q a w'.

End Definitions.

End Hoare.

(** ** What a staging keeps, and the refs it works on *)

Module Frames.
Import Store Staging.
Local Open Scope string_scope.

Section Definitions.
Context {X : Type}.

Definition same_remote (w w' : World X) : Prop := remote w' = remote w.

(** The fields of a record that decide which ref it is staged on. *)
Definition same_place (o o' : option PullRequest) : Prop :=
  match o, o' with
  | Some p, Some p' => repository p' = repository p /\ target p' = target p
  | None, None => True
  | _, _ => False
  end.

Definition places_kept (w w' : World X) : Prop :=
  branches w' = branches w /\ forall q, same_place (prs w !! q) (prs w' !! q).

(** The records other than [id] are left as they are. *)
Definition others_kept (id : nat) (w w' : World X) : Prop :=
  branches w' = branches w /\ forall q, q <> id -> prs w' !! q = prs w !! q.

(** The temporary ref that pull request [q] is staged on, as a key of the
    table of refs. *)
Definition tmp_key (w : World X) (q : nat) : option (nat * string) :=
  match prs w !! q with
  | Some p =>
      match branches w !! target p with
      | Some b => Some (repository p, tmp_ref (branch_name b))
      | None => None
      end
  | None => None
  end.

(** The handler of [stage_batch] can reset the ref of [q]. *)
Definition revertible (staging : StagingState) (w : World X) (q : nat) : Prop :=
  exists k, tmp_key w q = Some k /\ is_Some (staging !! fst k).

(** What [stage_batch] answers when staging pull request [id] raised [e]. *)
Definition failed_batch (id : nat) (staging : StagingState) (e : exn)
  : result (option nat * StagingState) :=
  match e with
  | Mismatch _ _ => Ok (None, staging)
  | GhMergeError what => Err (MergeError [VPr id] what)
  | _ => Err e
  end.

(** The commit that pull request [id] was collapsed or rebased into is [h]. *)
Definition final_commit (id : nat) (h : string) (w : World X) : Prop :=
  exists p, prs w !! id = Some p /\ commits_map p !! EmptyString = Some h.

Definition state_of (w : World X) (id : nat) : option string := state <$> prs w !! id.
Definition head_of (w : World X) (id : nat) : option string := head <$> prs w !! id.
Definition squash_of (w : World X) (id : nat) : option bool := squash <$> prs w !! id.
Definition tmp_master (w : World X) (repo : nat) : option string :=
  refs (remote w) !! (repo, "tmp.master").

(** The slices agree with the temporary refs of branch [name]. *)
Definition agree (name : string) (staging : StagingState) (w : World X) : Prop :=
  forall repo sl, staging !! repo = Some sl ->
    refs (remote w) !! (repo, tmp_ref name) = Some (slice_head sl).

(** Pull request [q] is staged on the temporary ref of branch [name]. *)
Definition staged_on (name : string) (w : World X) (q : nat) : Prop :=
  exists repo, tmp_key w q = Some (repo, tmp_ref name).

(** The refs other than [k] are as they were. *)
Definition refs_but (k : nat * string) (w w' : World X) : Prop :=
  forall k', k' <> k -> refs (remote w') !! k' = refs (remote w) !! k'.

(** Nothing but the remote has changed. *)
Definition remote_only (w w' : World X) : Prop := w' = set_remote (remote w') w.

(** The pull requests outside of [ids] keep their places. *)
Definition places_kept_but (ids : list nat) (w w' : World X) : Prop :=
  branches w' = branches w
  /\ forall q, ~ In q ids -> same_place (prs w !! q) (prs w' !! q).

(** One round of [staging[pr.repository].head = head], with the repository
    that [w] records for the pull request. *)
Definition advance (w : World X) (staging : StagingState) (x : nat * string)
  : StagingState :=
  match prs w !! fst x with
  | Some p =>
      match staging !! repository p with
      | Some it => <[repository p := mkSlice (snd x) (working_copy it)]> staging
      | None => staging
      end
  | None => staging
  end.

(** A failure that no handler of the staging takes for a failure to merge:
    it is neither the [MergeError] of the client nor of the classes of the
    addon's [exceptions] module. *)
Definition remote_failure (e : exn) : Prop :=
  is_merge_error e = false /\ forall what, e <> GhMergeError what.

(** What the staging expects of the client of the provider.  A merge, a
    rebase or an update of a ref changes no ref but the one it is given,
    whether it succeeds or fails, and creating a commit object changes none.
    A merge that succeeds leaves the destination at the merge commit; a rebase
    that succeeds, and is not asked to reset, leaves it at the rebased head;
    [set_ref], when it succeeds, leaves the ref at the commit it was given,
    and when it fails, fails with a remote failure. *)
Record client_contract (C : Collab X) : Prop := mkContract {
  merge_local : forall r repo s dest msg res r',
    gh_merge C r repo s dest msg = (res, r') ->
    forall k, k <> (repo, dest) -> refs r' !! k = refs r !! k;
  merge_moves : forall r repo s dest msg m r',
    gh_merge C r repo s dest msg = (Ok m, r') ->
    refs r' !! (repo, dest) = Some (m_sha m);
  rebase_local : forall r repo n dest reset cs res r',
    gh_rebase C r repo n dest reset cs = (res, r') ->
    forall k, k <> (repo, dest) -> refs r' !! k = refs r !! k;
  rebase_moves : forall r repo n dest cs h mapping r',
    gh_rebase C r repo n dest false cs = (Ok (h, mapping), r') ->
    refs r' !! (repo, dest) = Some h;
  commit_keeps : forall r repo spec res r',
    gh_post_commit C r repo spec = (res, r') -> refs r' = refs r;
  set_ref_local : forall r repo ref h res r',
    gh_set_ref C r repo ref h = (res, r') ->
    forall k, k <> (repo, ref) -> refs r' !! k = refs r !! k;
  set_ref_moves : forall r repo ref h r',
    gh_set_ref C r repo ref h = (Ok tt, r') -> refs r' !! (repo, ref) = Some h;
  set_ref_fails : forall r repo ref h e r',
    gh_set_ref C r repo ref h = (Err e, r') -> remote_failure e
}.

End Definitions.

End Frames.

(** ** A small provider and some pools, for the examples *)

Module Toy.
Import Store Staging.
Local Open Scope string_scope.

Definition mk_pr (number repo target : nat) (hd label : string) (prio : nat)
    (method : option Method) (sq : bool) (msg state : string) : PullRequest :=
  mkPullRequest number repo target hd label prio method sq msg ∅ state None false.

Definition ident (n e : string) : Identity := mkIdentity n e.
Definition ann : Identity := ident "Ann" "ann@example.org".
Definition commit (s : string) (ps : list string) : PrCommit :=
  mkPrCommit s ps ("commit " ++ s) ann ann.

Definition put_ref (r : Remote unit) (repo : nat) (ref h : string) : Remote unit :=
  mkRemote (<[(repo, ref) := h]> (refs r)) tt.

(** A provider that answers [gh.pr] and [gh.commits] from two tables, merges
    and rebases without conflict, except that rebasing pull request number
    [conflicting] moves the target and then fails, and takes every update of
    a ref. *)
Definition collab (pr_table : nat -> option PrDict) (commit_table : nat -> list PrCommit)
    (conflicting : nat) : Collab unit :=
  {| gh_pr := fun _ _ n =>
       match pr_table n with Some d => Ok d | None => Err (RemoteError "404") end;
     gh_commits := fun _ _ n => Ok (commit_table n);
     gh_user := fun _ _ _ => Ok EmptyString;
     gh_commit_tree := fun _ _ s => Ok ("tree of " ++ s);
     gh_merge := fun r repo s dest _ =>
       (Ok (mkMergeResp ("merge of " ++ s) ("tree of " ++ s)),
        put_ref r repo dest ("merge of " ++ s));
     gh_rebase := fun r repo n dest reset cs =>
       if Nat.eqb n conflicting
       then (Err (GhMergeError "conflict"), put_ref r repo dest "half rebased")
       else (Ok ("rebased " ++ pretty n,
                 list_to_map (map (fun c => (sha c, "rebased " ++ sha c)) cs)),
             if reset then r else put_ref r repo dest ("rebased " ++ pretty n));
     gh_post_commit := fun r _ spec => (Ok ("commit of " ++ cs_tree spec), r);
     gh_set_ref := fun r repo ref h => (Ok tt, put_ref r repo ref h);
     git_setup := fun _ _ _ => Ok "/tmp/staging";
     http_get := fun _ _ _ _ => Ok (Visibility.mkResponse false EmptyString);
     make_message := fun d => pd_title d;
     build_merge_message := fun _ _ _ _ => Msg.mkMessage "merge message" [];
     having_branch := fun w _ => map snd (map_to_list (repos w));
     re_search := fun _ _ => true;
     re_escape := fun s => s;
     json_message := fun _ => None;
     uniquifier := fun _ => "uniquifier" |}.

Definition master : Branch := mkBranch 1 "master" 1 None [].
Definition busy : Branch := mkBranch 1 "master" 1 (Some 5) [].

Definition world (rs : list (nat * string * string)) (ps : list (nat * PullRequest))
  : World unit :=
  mkWorld (mkRemote (list_to_map (map (fun x => ((fst (fst x), snd (fst x)), snd x)) rs)) tt)
          (list_to_map ps) ∅
          (list_to_map [(1, master)])
          (list_to_map [(1, mkRepository 1 "org/a" 1); (2, mkRepository 2 "org/b" 1)])
          ∅ ∅ (list_to_map [(1, mkProject "org" 8 "token")]) [] ∅ [].

Definition slices (l : list (nat * string)) : StagingState :=
  list_to_map (map (fun x => (fst x, mkSlice (snd x) "/tmp/staging")) l).

(** A pull request recorded as a single commit, with two commits upstream. *)
Definition stale_squash : World unit :=
  world [(1, "tmp.master", "c0")]
        [(10, mk_pr 1 1 1 "h2" "dev:fix" 2 (Some merge) true "T" "ready")].
Definition live2 : Collab unit :=
  collab (fun _ => Some (mkPrDict 2 "master" "T" EmptyString))
         (fun _ => [commit "h1" ["c0"]; commit "h2" ["h1"]]) 0.

(** A pull request recorded at [cafef00d], whose head is [deadbeef] upstream. *)
Definition stale_head : World unit :=
  world [(1, "tmp.master", "c0")]
        [(10, mk_pr 1 1 1 "cafef00d" "dev:fix" 2 None true "T" "ready")].
Definition live_deadbeef : Collab unit :=
  collab (fun _ => Some (mkPrDict 1 "master" "T" EmptyString))
         (fun _ => [commit "deadbeef" ["c0"]]) 0.

(** A pull request to merge, whose head has two parents outside of it. *)
Definition two_external : World unit :=
  world [(1, "tmp.master", "c0")]
        [(10, mk_pr 1 1 1 "h2" "dev:fix" 2 (Some merge) false "T" "ready")].
Definition live_octopus : Collab unit :=
  collab (fun _ => Some (mkPrDict 2 "master" "T" EmptyString))
         (fun _ => [commit "h1" ["c0"]; commit "h2" ["x1"; "x2"]]) 0.

(** The same pull request, with a commit whose author has no email. *)
Definition live_no_email : Collab unit :=
  collab (fun _ => Some (mkPrDict 2 "master" "T" EmptyString))
         (fun _ => [commit "h1" ["c0"];
                    mkPrCommit "h2" ["h1"] "commit h2" (ident "Ann" EmptyString) ann]) 0.

(** A batch over two repositories; rebasing the second pull request fails
    after having moved the temporary ref. *)
Definition two_repos : World unit :=
  world [(1, "tmp.master", "c0"); (2, "tmp.master", "d0")]
        [(10, mk_pr 1 1 1 "h1" "dev:fix" 2 None true "T" "ready");
         (11, mk_pr 2 2 1 "g1" "dev:fix" 2 None true "T" "ready")].
Definition live_conflict : Collab unit :=
  collab (fun _ => Some (mkPrDict 1 "master" "T" EmptyString))
         (fun n => if Nat.eqb n 1 then [commit "h1" ["c0"]] else [commit "g1" ["d0"]]) 2.
Definition two_slices : StagingState := slices [(1, "c0"); (2, "d0")].

(** An attempt on two repositories: a batch of one pull request, then a batch
    of two, of which the second cannot be rebased. *)
Definition attempt : World unit :=
  world [(1, "master", "c0"); (2, "master", "d0")]
        [(10, mk_pr 1 1 1 "h1" "dev:fix" 2 None true "T" "ready");
         (12, mk_pr 3 1 1 "k1" "dev:more" 2 None true "T" "ready");
         (11, mk_pr 2 2 1 "g1" "dev:more" 2 None true "T" "ready")].
Definition live_attempt : Collab unit :=
  collab (fun _ => Some (mkPrDict 1 "master" "T" EmptyString))
         (fun n => [commit (match n with 1 => "h1" | 2 => "g1" | _ => "k1" end) ["c0"]]) 2.

(** The same provider, which refuses to update a ref that a rebase has left
    halfway. *)
Definition refusing : Collab unit :=
  {| gh_pr := gh_pr live_attempt;
     gh_commits := gh_commits live_attempt;
     gh_user := gh_user live_attempt;
     gh_commit_tree := gh_commit_tree live_attempt;
     gh_merge := gh_merge live_attempt;
     gh_rebase := gh_rebase live_attempt;
     gh_post_commit := gh_post_commit live_attempt;
     gh_set_ref := fun r repo ref h =>
       match refs r !! (repo, ref) with
       | Some old =>
           if String.eqb old "half rebased" then (Err (RemoteError "502"), r)
           else (Ok tt, put_ref r repo ref h)
       | None => (Ok tt, put_ref r repo ref h)
       end;
     git_setup := git_setup live_attempt;
     http_get := http_get live_attempt;
     make_message := make_message live_attempt;
     build_merge_message := build_merge_message live_attempt;
     having_branch := having_branch live_attempt;
     re_search := re_search live_attempt;
     re_escape := re_escape live_attempt;
     json_message := json_message live_attempt;
     uniquifier := uniquifier live_attempt |}.

(** A pull request without a method, with two commits. *)
Definition no_method : World unit :=
  world [(1, "tmp.master", "c0")]
        [(10, mk_pr 1 1 1 "h2" "dev:fix" 2 None false "T" "ready")].

(** A pool where a label is the text of the id of a patch pull request. *)
Definition clash : list (nat * PullRequest) :=
  [(7, mk_pr 70 1 1 "aaaa" "42" 2 None true "m" "ready");
   (42, mk_pr 71 1 1 "bbbb" "dev:patch-1" 2 None true "m" "ready")].

(** A pool with two companions and two patch pull requests of one label. *)
Definition pool : World unit :=
  world []
    [(10, mk_pr 1 1 1 "h1" "dev:fix" 2 None true "T" "ready");
     (11, mk_pr 2 2 1 "g1" "dev:fix" 2 None true "T" "opened");
     (12, mk_pr 3 1 1 "k1" "dev:patch-1" 2 None true "T" "ready");
     (13, mk_pr 4 1 1 "l1" "dev:patch-1" 2 None true "T" "ready")].

(** A visibility endpoint that answers with an error status. *)
Definition failing_get (_ _ : string) : result Visibility.Response :=
  Ok (Visibility.mkResponse false "not a pkt-line").

End Toy.

(** * Properties *)

(** ** The commit-message model *)

Module MessageFacts.
Import Msg MessageShape.
Local Open Scope string_scope.

Lemma scan_lines_cons hb x r :
  scan_lines hb (x :: r) = scan_line hb (scan_lines hb r) x.
Proof. unfold scan_lines. simpl. now rewrite fold_left_app. Qed.

(** Without trailer-shaped lines and without break handling, the loop only
    squeezes the blank lines. *)
Lemma scan_lines_plain rest :
  Forall no_trailer rest ->
  scan_lines false rest =
  {| in_headers := match squeeze_blank rest with [] => true | _ => false end;
     maybe_setex := None; body_rev := squeeze_blank rest; headers_rev := [] |}.
Proof.
  induction 1 as [|x r Hx Hr IH]; [reflexivity|].
  rewrite scan_lines_cons, IH. unfold scan_line, resolve_setex. simpl.
  destruct (is_empty x) eqn:Ex.
  - destruct (squeeze_blank r) as [|y b]; simpl; [reflexivity|].
    destruct (is_empty y); reflexivity.
  - unfold no_trailer in Hx. rewrite Hx. reflexivity.
Qed.

Lemma append_nil_l s : (EmptyString ++ s)%string = s.
Proof. reflexivity. Qed.

Lemma append_cons a s t : (String a s ++ t)%string = String a (s ++ t).
Proof. reflexivity. Qed.

Lemma append_nil_r s : (s ++ EmptyString)%string = s.
Proof. induction s; [reflexivity|]. rewrite append_cons. congruence. Qed.

Lemma splitlines_from_line l : forall cur s,
  no_linebreak l ->
  splitlines_from cur (l ++ s) = splitlines_from (cur ++ l) s.
Proof.
  induction l as [|c l IH]; intros cur s H.
  - now rewrite append_nil_l, append_nil_r.
  - unfold no_linebreak in H. simpl in H. apply andb_true_iff in H as [Hc Hl].
    apply negb_true_iff in Hc. rewrite append_cons. simpl. rewrite Hc, IH by exact Hl.
    f_equal. unfold snoc. clear. induction cur; [reflexivity|].
    rewrite !append_cons. congruence.
Qed.

Lemma join_nl_cons2 a b l :
  join_nl (a :: b :: l) = (a ++ String nl (join_nl (b :: l)))%string.
Proof. reflexivity. Qed.

(** [splitlines] undoes [join_nl] on lines without line boundaries, the last of
    which is not empty. *)
Lemma splitlines_join lines : forall cur,
  Forall no_linebreak lines ->
  match lines with
  | [] => True
  | [l] => is_empty (cur ++ l)%string = false
  | _ => is_empty (List.last lines EmptyString) = false
  end ->
  match lines with
  | [] => True
  | l :: ls => splitlines_from cur (join_nl lines) = (cur ++ l)%string :: ls
  end.
Proof.
  induction lines as [|l ls IH]; intros cur Hall Hlast; [exact I|].
  inversion Hall as [|? ? Hl Hls]; subst.
  destruct ls as [|l2 ls].
  - change (join_nl [l]) with l. rewrite <- (append_nil_r l) at 1.
    rewrite splitlines_from_line by exact Hl. simpl. simpl in Hlast. now rewrite Hlast.
  - rewrite join_nl_cons2, splitlines_from_line by exact Hl.
    specialize (IH EmptyString Hls). simpl in IH.
    assert (Hl' : match ls with [] => is_empty l2 = false
                  | _ => is_empty (List.last (l2 :: ls) EmptyString) = false end).
    { destruct ls; exact Hlast. }
    specialize (IH Hl').
    change (splitlines_from (cur ++ l) (String nl (join_nl (l2 :: ls))))
      with ((cur ++ l)%string ::
            match join_nl (l2 :: ls) with
            | String c' rest' =>
                if ((code nl =? 13) && (code c' =? 10))%nat
                then splitlines_from EmptyString rest'
                else splitlines_from EmptyString (join_nl (l2 :: ls))
            | EmptyString => []
            end).
    f_equal. destruct (join_nl (l2 :: ls)) eqn:E.
    + simpl in IH. discriminate IH.
    + simpl. exact IH.
Qed.

Lemma single_spaced_squeeze l : single_spaced l = true -> squeeze_blank l = l.
Proof.
  induction l as [|x r IH]; [reflexivity|].
  simpl. intros H. apply andb_true_iff in H as [Hx Hr].
  rewrite (IH Hr). destruct (is_empty x); [|reflexivity].
  destruct r as [|y r']; [discriminate|]. simpl. now rewrite Hx.
Qed.

(** The lines of a message of the shape the parser produces (nothing after the
    title, or a blank line and then single-spaced lines) are kept as they
    are. *)
Lemma well_shaped_separated rest :
  single_spaced rest = true ->
  match rest with [] => True | x :: _ => is_empty x = true end ->
  separated (squeeze_blank rest) = rest.
Proof.
  intros H Hx. rewrite (single_spaced_squeeze _ H). unfold separated.
  destruct rest as [|x r]; [reflexivity|]. simpl. now rewrite Hx.
Qed.

Lemma trailer_block_written h :
  trailer_block h
  = String.concat EmptyString
      (map (fun kv => fst kv ++ ": " ++ snd kv ++ String nl EmptyString)
         (written_trailers h)).
Proof.
  unfold trailer_block, written_trailers. f_equal.
  induction (sort_cab_last (ordered_set [] (map capitalize (keys h)))) as [|k ks IH];
    [reflexivity|].
  simpl. rewrite map_app, IH, map_map. reflexivity.
Qed.

Lemma to_str_trailers m : to_str m = (body m ++ String nl (trailers_text (headers m)))%string.
Proof.
  unfold to_str, trailers_text. destruct (headers m) as [|kv h] eqn:E; [reflexivity|].
  rewrite <- E, trailer_block_written. reflexivity.
Qed.

Lemma lower_upper_char c : lower_char (upper_char c) = lower_char c.
Proof. destruct c as [[] [] [] [] [] [] [] []]; reflexivity. Qed.

Lemma upper_lower_char c : upper_char (lower_char c) = upper_char c.
Proof. destruct c as [[] [] [] [] [] [] [] []]; reflexivity. Qed.

Lemma lower_lower_char c : lower_char (lower_char c) = lower_char c.
Proof. destruct c as [[] [] [] [] [] [] [] []]; reflexivity. Qed.

Lemma lower_idem s : lower (lower s) = lower s.
Proof. induction s as [|c s IH]; [reflexivity|]. simpl. now rewrite lower_lower_char, IH. Qed.

Lemma lower_capitalize k : lower (capitalize k) = lower k.
Proof. destruct k as [|c k]; [reflexivity|]. simpl. now rewrite lower_upper_char, lower_idem. Qed.

Lemma capitalize_lower k : capitalize (lower k) = capitalize k.
Proof. destruct k as [|c k]; [reflexivity|]. simpl. now rewrite upper_lower_char, lower_idem. Qed.

Lemma key_eq_capitalize k k' : key_eq k k' = true -> capitalize k = capitalize k'.
Proof.
  unfold key_eq. intros H. apply String.eqb_eq in H.
  rewrite <- (capitalize_lower k), <- (capitalize_lower k'). now rewrite H.
Qed.

Lemma existsb_eqb_In x seen : existsb (String.eqb x) seen = true <-> In x seen.
Proof.
  rewrite existsb_exists. split.
  - intros (y & Hy & E). apply String.eqb_eq in E. now subst.
  - intros H. exists x. split; [exact H|apply String.eqb_refl].
Qed.

Lemma ordered_set_complete l : forall seen x,
  In x l -> ~ In x seen -> In x (ordered_set seen l).
Proof.
  induction l as [|y l IH]; intros seen x Hx Hs; [destruct Hx|].
  simpl. destruct (existsb (String.eqb y) seen) eqn:E.
  - apply existsb_eqb_In in E. destruct Hx as [->|Hx]; [contradiction|]. now apply IH.
  - destruct Hx as [->|Hx]; [now left|].
    destruct (String.eqb_spec x y) as [->|Hne]; [now left|].
    right. apply IH; [exact Hx|]. intros [Heq|Hin]; [now apply Hne|contradiction].
Qed.

Lemma ordered_set_sound l : forall seen x, In x (ordered_set seen l) -> In x l.
Proof.
  induction l as [|y l IH]; intros seen x H; [destruct H|].
  simpl in H. destruct (existsb (String.eqb y) seen).
  - right. exact (IH _ _ H).
  - destruct H as [->|H]; [now left|right; exact (IH _ _ H)].
Qed.

Lemma sort_cab_last_In x ks : In x (sort_cab_last ks) <-> In x ks.
Proof.
  unfold sort_cab_last. rewrite in_app_iff, !filter_In.
  destruct (is_cab x); simpl; intuition discriminate.
Qed.

(** Every trailer is written once under its capitalized key, and nothing
    else is. *)
Lemma written_trailers_In h k v :
  In (k, v) (written_trailers h) <-> exists k0, In (k0, v) h /\ capitalize k0 = k.
Proof.
  unfold written_trailers. rewrite in_flat_map. split.
  - intros (K & HK & Hin). apply in_map_iff in Hin as (v' & Heq & Hv).
    inversion Heq; subst K v'. clear Heq.
    apply sort_cab_last_In, ordered_set_sound in HK.
    apply in_map_iff in HK as (k1 & Hk1 & _).
    unfold getlist in Hv. apply in_map_iff in Hv as ([k0 v0] & Hv0 & Hf).
    simpl in Hv0. subst v0. apply filter_In in Hf as [Hin Hkey]. simpl in Hkey.
    exists k0. split; [exact Hin|].
    rewrite (key_eq_capitalize _ _ Hkey), <- Hk1.
    rewrite <- (capitalize_lower (capitalize k1)), lower_capitalize.
    apply capitalize_lower.
  - intros (k0 & Hin & <-). exists (capitalize k0). split.
    + apply sort_cab_last_In, ordered_set_complete; [|intros []].
      apply in_map_iff. exists k0. split; [reflexivity|].
      unfold keys. apply in_map_iff. now exists (k0, v).
    + apply in_map. unfold getlist. apply in_map_iff. exists (k0, v).
      split; [reflexivity|]. apply filter_In. split; [exact Hin|].
      simpl. unfold key_eq. rewrite lower_capitalize. apply String.eqb_refl.
Qed.

(** C8, as amended.  A message that has a first line parses; the serialization
    of the result is its body, a newline, and, when there are trailers, an
    empty line and a line [Key: value] for each of them: every trailer that was
    parsed is written, under its capitalized key, and nothing else is.  When no
    line after the title is trailer-shaped, there are no trailers and the body
    is the trimmed text of the title, a blank line if other lines follow, and
    the other lines with their blank lines squeezed; that is the trimmed
    message itself when the message already has that shape. *)
Theorem from_message_without_trailers (m title : string) (rest : list string) :
  splitlines m = title :: rest ->
  exists msg,
    from_message (OfStr m) = Ok msg
    /\ to_str msg = (body msg ++ String nl (trailers_text (headers msg)))%string
    /\ (forall k v, In (k, v) (written_trailers (headers msg))
                    <-> exists k0, In (k0, v) (headers msg) /\ capitalize k0 = k)
    /\ (Forall no_trailer rest ->
        headers msg = []
        /\ body msg = strip (join_nl (title :: separated (squeeze_blank rest)))
        /\ (separated (squeeze_blank rest) = rest -> m = join_nl (title :: rest) ->
            body msg = strip m)).
Proof.
  intros Hm. unfold from_message. rewrite Hm. simpl.
  eexists. split; [reflexivity|]. split; [apply to_str_trailers|].
  split; [intros k v; apply written_trailers_In|].
  intros Hrest. rewrite (scan_lines_plain _ Hrest). unfold finish. simpl.
  split; [reflexivity|]. split; [reflexivity|].
  intros Hshape ->. fold (separated (squeeze_blank rest)). now rewrite Hshape.
Qed.

Lemma from_message_without_trailers_witness :
  exists msg,
    from_message (OfStr (join_nl ["Title"; EmptyString; "foo"])) = Ok msg
    /\ headers msg = []
    /\ body msg = strip (join_nl ["Title"; EmptyString; "foo"])
    /\ to_str msg = join_nl ["Title"; EmptyString; "foo"; EmptyString].
Proof.
  destruct (from_message_without_trailers (join_nl ["Title"; EmptyString; "foo"])
              "Title" [EmptyString; "foo"] eq_refl) as (msg & Hmsg & Hstr & _ & H).
  exists msg. split; [exact Hmsg|].
  destruct H as (Hh & _ & Hb).
  - repeat constructor.
  - split; [exact Hh|]. split; [apply Hb; reflexivity|].
    rewrite Hstr, Hh, (Hb eq_refl eq_refl). reflexivity.
Defined.

(** The trailers are grouped by capitalized key, the co-authors last. *)
Example to_str_groups_trailers :
  to_str (mkMessage "Title" [("co-authored-by", "a"); ("fixes", "1");
                             ("Part-Of", "x"); ("Fixes", "2")])
  = join_nl ["Title"; EmptyString; "Fixes: 1"; "Fixes: 2"; "Part-of: x";
             "Co-authored-by: a"; EmptyString].
Proof. reflexivity. Qed.

(** C8, as stated, fails on the two lines [Title] and [foo]: no line is
    trailer-shaped, and the body has a blank line that the message has not. *)
Lemma from_message_adds_separation :
  let m := join_nl ["Title"; "foo"] in
  Forall no_trailer (splitlines m)
  /\ from_message (OfStr m) = Ok (mkMessage (join_nl ["Title"; EmptyString; "foo"]) [])
  /\ join_nl ["Title"; EmptyString; "foo"] <> strip m.
Proof.
  split; [repeat constructor|]. split; [reflexivity|]. discriminate.
Qed.

(** Parsing a serialization again may not give the same body: a trailer-shaped
    line that was kept in the body, because white space followed it, is a
    trailer the second time. *)
Lemma reparse_moves_trailer :
  let m := join_nl ["Title"; EmptyString; "foo"; "Key: val"; "  "] in
  from_message (OfStr m)
  = Ok (mkMessage (join_nl ["Title"; EmptyString; "foo"; "Key: val"]) [])
  /\ from_message
       (OfStr (to_str (mkMessage (join_nl ["Title"; EmptyString; "foo"; "Key: val"]) [])))
     = Ok (mkMessage (join_nl ["Title"; EmptyString; "foo"]) [("Key", "val")]).
Proof. split; reflexivity. Qed.





(** What the break discards is below it. *)
Example break_discards_below :
  from_message (OfPr (join_nl ["T"; EmptyString; "above"; EmptyString; "---"; "below"]))
  = Ok (mkMessage (join_nl ["T"; EmptyString; "above"]) []).
Proof. reflexivity. Qed.

(** *** Parsing, stripping and serializing *)

Lemma splitlines_from_nil cur s : splitlines_from cur s = [] -> cur = EmptyString /\ s = EmptyString.
Proof.
  revert cur. induction s as [|c s IH]; intros cur H; simpl in H.
  - destruct cur; [auto|discriminate].
  - destruct (is_linebreak c); [discriminate|].
    apply IH in H as [H _]. unfold snoc in H. destruct cur; discriminate.
Qed.

(** X1.  [from_message] raises [IndexError] on the empty message, where there
    is no title to take, and on no other message: every other string parses,
    as a string and as the message of a pull request. *)
Theorem from_message_empty (s : string) :
  (s = EmptyString ->
   from_message (OfStr s) = Err IndexError /\ from_message (OfPr s) = Err IndexError)
  /\ (s <> EmptyString ->
      exists m m', from_message (OfStr s) = Ok m /\ from_message (OfPr s) = Ok m').
Proof.
  split.
  - intros ->. split; reflexivity.
  - intros Hs. unfold from_message, from_lines.
    destruct (splitlines s) as [|title rest] eqn:E.
    + apply splitlines_from_nil in E as [_ E]. contradiction.
    + eauto.
Qed.

Lemma rstrip_idem s : rstrip (rstrip s) = rstrip s.
Proof.
  induction s as [|c s IH]; [reflexivity|]. simpl.
  destruct (is_empty (rstrip s) && is_space c) eqn:E; [reflexivity|].
  simpl. rewrite IH, E. reflexivity.
Qed.

Lemma rstrip_lstrip s : rstrip s = s -> rstrip (lstrip s) = lstrip s.
Proof.
  induction s as [|c s IH]; [reflexivity|]. intros H. simpl.
  destruct (is_space c) eqn:Ec; [|exact H].
  apply IH. simpl in H.
  destruct (is_empty (rstrip s) && is_space c); [discriminate|]. congruence.
Qed.

Lemma lstrip_idem s : lstrip (lstrip s) = lstrip s.
Proof.
  induction s as [|c s IH]; [reflexivity|]. simpl.
  destruct (is_space c) eqn:Ec; [exact IH|]. simpl. now rewrite Ec.
Qed.

Lemma strip_idem s : strip (strip s) = strip s.
Proof.
  unfold strip. rewrite (rstrip_lstrip (rstrip s)) by apply rstrip_idem.
  apply lstrip_idem.
Qed.

(** X2.  The body of a parsed message is stripped: stripping it again
    changes nothing. *)
Theorem from_message_body_stripped (src : msg_source) (m : Message) :
  from_message src = Ok m -> strip (body m) = body m.
Proof.
  unfold from_message, from_lines.
  destruct src as [s|s]; destruct (splitlines s); intros H; inversion H; subst;
    unfold finish, new_message; simpl; apply strip_idem.
Qed.

Lemma from_message_body_stripped_witness :
  strip (body (mkMessage (join_nl ["Title"; EmptyString; "foo"]) []))
  = body (mkMessage (join_nl ["Title"; EmptyString; "foo"]) []).
Proof.
  apply (from_message_body_stripped (OfStr (join_nl ["Title"; "foo"; EmptyString]))).
  reflexivity.
Defined.

Lemma append_assoc3 a b c : ((a ++ b) ++ c)%string = (a ++ (b ++ c))%string.
Proof. induction a as [|x a IH]; [reflexivity|]. rewrite !append_cons. congruence. Qed.

Lemma concat_empty_cons x l :
  String.concat EmptyString (x :: l) = (x ++ String.concat EmptyString l)%string.
Proof.
  destruct l as [|y l]; simpl; [now rewrite append_nil_r|reflexivity].
Qed.

Lemma terminated_cons l ls : terminated (l :: ls) = (l ++ String nl (terminated ls))%string.
Proof.
  unfold terminated. simpl map. rewrite concat_empty_cons, append_assoc3. reflexivity.
Qed.

Lemma terminated_app a b : terminated (a ++ b) = (terminated a ++ terminated b)%string.
Proof.
  induction a as [|x a IH]; [reflexivity|].
  change ((x :: a) ++ b)%list with (x :: (a ++ b))%list.
  rewrite !terminated_cons, IH, append_assoc3, append_cons. reflexivity.
Qed.

Lemma join_nl_terminated l ls :
  (join_nl (l :: ls) ++ String nl EmptyString)%string = terminated (l :: ls).
Proof.
  revert l. induction ls as [|l2 ls IH]; intros l.
  - reflexivity.
  - rewrite join_nl_cons2, terminated_cons, append_assoc3, append_cons, IH. reflexivity.
Qed.

Lemma splitlines_terminated ls :
  Forall no_linebreak ls -> splitlines (terminated ls) = ls.
Proof.
  unfold splitlines. induction 1 as [|l ls Hl Hls IH]; [reflexivity|].
  rewrite terminated_cons, splitlines_from_line by exact Hl.
  rewrite append_nil_l. simpl. f_equal.
  destruct (terminated ls) eqn:E; exact IH.
Qed.

(** ** Trailers *)

Lemma span_key k rest :
  all_chars is_key_char k = true ->
  span is_key_char (k ++ String ":" rest) = (k, String ":" rest).
Proof.
  induction k as [|c k IH]; intros H.
  - reflexivity.
  - simpl in H. apply andb_true_iff in H as [Hc Hk].
    rewrite append_cons. simpl. rewrite Hc, (IH Hk). reflexivity.
Qed.

Lemma no_linebreak_no_nl v :
  no_linebreak v -> all_chars (fun c => negb (Ascii.eqb c nl)) v = true.
Proof.
  unfold no_linebreak. induction v as [|c v IH]; [reflexivity|]. simpl.
  intros H. apply andb_true_iff in H as [Hc Hv]. rewrite (IH Hv), andb_true_r.
  destruct (Ascii.eqb c nl) eqn:E; [|reflexivity].
  apply Ascii.eqb_eq in E. subst c. discriminate Hc.
Qed.

Lemma HEADER_trailer_text kv :
  trailer_ok kv -> HEADER_fullmatch (trailer_text kv) = Some kv.
Proof.
  destruct kv as [k v]. intros (Hne & Hk & Hv). simpl in Hne, Hk, Hv.
  unfold trailer_text, HEADER_fullmatch. simpl fst. simpl snd.
  change (k ++ ": " ++ v)%string with (k ++ String ":" (String sp v))%string.
  rewrite (span_key _ _ Hk), Hne. simpl.
  now rewrite (no_linebreak_no_nl _ Hv).
Qed.

Lemma trailer_text_nonempty kv : trailer_ok kv -> is_empty (trailer_text kv) = false.
Proof.
  destruct kv as [k v]. intros (Hne & _). unfold trailer_text. simpl.
  destruct k; [discriminate|reflexivity].
Qed.

Lemma no_linebreak_app a b : no_linebreak a -> no_linebreak b -> no_linebreak (a ++ b).
Proof.
  unfold no_linebreak. induction a as [|c a IH]; intros Ha Hb; [exact Hb|].
  rewrite append_cons. simpl in *. apply andb_true_iff in Ha as [Hc Ha].
  now rewrite Hc, IH.
Qed.

Lemma key_no_linebreak k : all_chars is_key_char k = true -> no_linebreak k.
Proof.
  unfold no_linebreak. induction k as [|c k IH]; [reflexivity|]. simpl.
  intros H. apply andb_true_iff in H as [Hc Hk]. rewrite (IH Hk), andb_true_r.
  clear -Hc. destruct c as [[] [] [] [] [] [] [] []]; try reflexivity; discriminate Hc.
Qed.

Lemma trailer_text_no_linebreak kv : trailer_ok kv -> no_linebreak (trailer_text kv).
Proof.
  destruct kv as [k v]. intros (_ & Hk & Hv). simpl in Hk, Hv. unfold trailer_text. simpl fst. simpl snd.
  apply no_linebreak_app; [now apply key_no_linebreak|].
  apply no_linebreak_app; [reflexivity|exact Hv].
Qed.

(** The trailer lines at the end of a message are all taken as trailers. *)
Lemma scan_trailers hs :
  Forall trailer_ok hs ->
  scan_lines false (map trailer_text hs)
  = {| in_headers := true; maybe_setex := None; body_rev := []; headers_rev := hs |}.
Proof.
  induction 1 as [|kv hs Hkv Hhs IH]; [reflexivity|].
  simpl map. rewrite scan_lines_cons, IH. unfold scan_line, resolve_setex. simpl.
  rewrite (trailer_text_nonempty _ Hkv), (HEADER_trailer_text _ Hkv).
  destruct kv. reflexivity.
Qed.

(** Above them, lines that are not trailer-shaped are body lines. *)
Lemma scan_plain_above rest suffix hs :
  Forall no_trailer rest ->
  scan_lines false suffix
  = {| in_headers := true; maybe_setex := None; body_rev := []; headers_rev := hs |} ->
  scan_lines false (rest ++ suffix)
  = {| in_headers := match squeeze_blank rest with [] => true | _ => false end;
       maybe_setex := None; body_rev := squeeze_blank rest; headers_rev := hs |}.
Proof.
  intros Hrest Hs. induction Hrest as [|x r Hx Hr IH]; [exact Hs|].
  change ((x :: r) ++ suffix)%list with (x :: (r ++ suffix))%list.
  rewrite scan_lines_cons, IH. unfold scan_line, resolve_setex. simpl.
  destruct (is_empty x) eqn:Ex.
  - destruct (squeeze_blank r) as [|y b]; simpl; [reflexivity|].
    destruct (is_empty y); reflexivity.
  - unfold no_trailer in Hx. rewrite Hx. reflexivity.
Qed.

(** ** What [__str__] writes *)

Lemma trailer_line_text k v :
  trailer_line k v = (trailer_text (k, v) ++ String nl EmptyString)%string.
Proof.
  unfold trailer_line, trailer_text. simpl. now rewrite !append_assoc3.
Qed.

Lemma trailer_block_terminated h :
  trailer_block h = terminated (map trailer_text (written_trailers h)).
Proof.
  unfold trailer_block, written_trailers, terminated. f_equal.
  generalize (sort_cab_last (ordered_set [] (map capitalize (keys h)))). intros ks.
  induction ks as [|k ks IH]; [reflexivity|].
  simpl. rewrite !map_app, IH. f_equal.
  rewrite !map_map. apply map_ext. intros v. apply trailer_line_text.
Qed.

Lemma to_str_terminated title rest h :
  to_str (mkMessage (join_nl (title :: rest)) h)
  = terminated (title :: rest ++
                match h with
                | [] => []
                | _ => EmptyString :: map trailer_text (written_trailers h)
                end).
Proof.
  unfold to_str. simpl body. simpl headers. destruct h as [|kv h].
  - rewrite app_nil_r. apply join_nl_terminated.
  - change (title :: rest ++ EmptyString :: map trailer_text (written_trailers (kv :: h)))
      with ((title :: rest) ++ EmptyString :: map trailer_text (written_trailers (kv :: h)))%list.
    rewrite terminated_app, <- (join_nl_terminated title rest).
    rewrite (terminated_cons EmptyString), trailer_block_terminated.
    rewrite append_assoc3. reflexivity.
Qed.

(** ** The trailers that are written are well formed *)

Lemma upper_key_char c : is_key_char c = true -> is_key_char (upper_char c) = true.
Proof. destruct c as [[] [] [] [] [] [] [] []]; intros H; try discriminate H; reflexivity. Qed.

Lemma lower_key_char c : is_key_char c = true -> is_key_char (lower_char c) = true.
Proof. destruct c as [[] [] [] [] [] [] [] []]; intros H; try discriminate H; reflexivity. Qed.

Lemma lower_key k : all_chars is_key_char k = true -> all_chars is_key_char (lower k) = true.
Proof.
  induction k as [|c k IH]; [reflexivity|]. simpl. intros H.
  apply andb_true_iff in H as [Hc Hk]. now rewrite (lower_key_char _ Hc), IH.
Qed.

Lemma capitalize_key k :
  is_empty k = false -> all_chars is_key_char k = true ->
  is_empty (capitalize k) = false /\ all_chars is_key_char (capitalize k) = true.
Proof.
  destruct k as [|c k]; [discriminate|]. intros _ H. simpl in H.
  apply andb_true_iff in H as [Hc Hk]. split; [reflexivity|].
  simpl. now rewrite (upper_key_char _ Hc), lower_key.
Qed.

Lemma written_trailers_ok h : Forall trailer_ok h -> Forall trailer_ok (written_trailers h).
Proof.
  intros Hh. rewrite List.Forall_forall in Hh. apply List.Forall_forall. intros [k v] Hin.
  unfold written_trailers in Hin. apply in_flat_map in Hin as (k0 & Hk0 & Hin).
  apply in_map_iff in Hin as (v0 & Heq & Hv0). inversion Heq; subst k0 v0.
  apply sort_cab_last_In, ordered_set_sound in Hk0.
  apply in_map_iff in Hk0 as (k1 & <- & Hk1).
  unfold keys in Hk1. apply in_map_iff in Hk1 as ([k1' v1] & Hf & Hin1). simpl in Hf. subst k1'.
  unfold getlist in Hv0. apply in_map_iff in Hv0 as ([k2 v2] & Hs & Hin2). simpl in Hs. subst v2.
  apply filter_In in Hin2 as [Hin2 _].
  destruct (Hh _ Hin1) as (Hne & Hkey & _). destruct (Hh _ Hin2) as (_ & _ & Hval).
  destruct (capitalize_key _ Hne Hkey) as [H1 H2].
  split; [exact H1|]. split; [exact H2|exact Hval].
Qed.

(** X3.  Parsing what [__str__] wrote gives the message back: for a body of
    the shape the parser produces (a title, then nothing or an empty line and
    single-spaced lines, none trailer-shaped, the whole stripped) and trailers
    with keys of letters and hyphens and values on one line, the serialization
    parses to the same body and to the trailers as they were written. *)
Theorem from_message_to_str (title : string) (rest : list string) (h : Headers) :
  Forall no_linebreak (title :: rest) ->
  Forall no_trailer rest ->
  single_spaced rest = true ->
  match rest with [] => True | x :: _ => is_empty x = true end ->
  strip (join_nl (title :: rest)) = join_nl (title :: rest) ->
  Forall trailer_ok h ->
  from_message (OfStr (to_str (mkMessage (join_nl (title :: rest)) h)))
  = Ok (mkMessage (join_nl (title :: rest)) (written_trailers h)).
Proof.
  intros Hlines Hplain Hspaced Hblank Hstrip Hh.
  pose proof (written_trailers_ok _ Hh) as Hw.
  rewrite to_str_terminated. unfold from_message.
  set (tail := match h with
               | [] => []
               | _ => EmptyString :: map trailer_text (written_trailers h)
               end).
  assert (Htail : Forall no_linebreak tail).
  { unfold tail. destruct h; [constructor|]. constructor; [reflexivity|].
    apply List.Forall_forall. intros l Hl. apply in_map_iff in Hl as (kv & <- & Hkv).
    rewrite List.Forall_forall in Hw. apply trailer_text_no_linebreak. auto. }
  rewrite splitlines_terminated.
  2:{ inversion Hlines; subst. constructor; [assumption|].
      apply Forall_app. split; assumption. }
  unfold from_lines. f_equal.
  assert (Hscan : scan_lines false tail
            = {| in_headers := true; maybe_setex := None; body_rev := [];
                 headers_rev := written_trailers h |}).
  { unfold tail. destruct h as [|kv h']; [reflexivity|].
    rewrite scan_lines_cons, (scan_trailers _ Hw). reflexivity. }
  rewrite (scan_plain_above _ _ _ Hplain Hscan). unfold finish. simpl.
  fold (separated (squeeze_blank rest)).
  rewrite (well_shaped_separated _ Hspaced Hblank). unfold new_message.
  now rewrite Hstrip.
Qed.

Lemma from_message_to_str_witness :
  from_message
    (OfStr (to_str (mkMessage (join_nl ["Title"; EmptyString; "foo"])
                      [("co-authored-by", "Ann <ann@example.org>");
                       ("Signed-off-by", "Bob"); ("signed-off-by", "Cy")])))
  = Ok (mkMessage (join_nl ["Title"; EmptyString; "foo"])
          [("Signed-off-by", "Bob"); ("Signed-off-by", "Cy");
           ("Co-authored-by", "Ann <ann@example.org>")]).
Proof.
  apply (from_message_to_str "Title" [EmptyString; "foo"]
           [("co-authored-by", "Ann <ann@example.org>");
            ("Signed-off-by", "Bob"); ("signed-off-by", "Cy")]).
  - repeat constructor.
  - repeat constructor.
  - reflexivity.
  - reflexivity.
  - reflexivity.
  - repeat constructor.
Defined.

End MessageFacts.

(** ** The visibility verifier *)

Module VisibilityFacts.
Import Visibility.
Local Open Scope string_scope.

Lemma take_bytes_length n : forall s a b,
  take_bytes n s = (a, b) ->
  (String.length b <= String.length s)%nat
  /\ ((0 < n)%nat -> s <> EmptyString -> (String.length b < String.length s)%nat).
Proof.
  induction n as [|n IH]; intros s a b H.
  - simpl in H. inversion H; subst. split; [lia|lia].
  - destruct s as [|c s]; simpl in H.
    + inversion H; subst. split; [lia|]. intros _ Hs. now destruct Hs.
    + destruct (take_bytes n s) as [a' b'] eqn:E. inversion H; subst.
      destruct (IH _ _ _ E) as [Hle _]. simpl. split; [lia|]. intros _ _. lia.
Qed.

Lemma read_length n s a b :
  read n s = (a, b) -> (String.length b <= String.length s)%nat.
Proof.
  unfold read. destruct (n <? 0)%Z.
  - intros H. inversion H; subst. simpl. lia.
  - intros H. now apply take_bytes_length in H as [H _].
Qed.

Lemma read_line_shrinks s line s' :
  read_line s = (Ok (Some line), s') -> (String.length s' < String.length s)%nat.
Proof.
  unfold read_line. destruct (read 4 s) as [len s1] eqn:E1.
  destruct s as [|c s].
  - cbv in E1. inversion E1; subst. cbv. discriminate.
  - assert (H1 : (String.length s1 < String.length (String c s))%nat).
    { unfold read in E1. simpl (4 <? 0)%Z in E1. cbv iota in E1.
      apply take_bytes_length in E1 as [_ H]. apply H; [simpl; lia|discriminate]. }
    destruct (int16 len) as [length|e]; [|discriminate].
    destruct (length =? 0)%Z; [discriminate|].
    destruct (read (length - 4) s1) as [data s2] eqn:E2.
    intros H. inversion H; subst. apply read_length in E2. lia.
Qed.

(** The rounds given to [ref_lines] by [parse_refs_smart] are enough: more of
    them change nothing. *)
Lemma ref_lines_fuel fuel1 : forall fuel2 s,
  (String.length s < fuel1)%nat -> (String.length s < fuel2)%nat ->
  ref_lines fuel1 s = ref_lines fuel2 s.
Proof.
  induction fuel1 as [|f1 IH]; intros fuel2 s H1 H2; [lia|].
  destruct fuel2 as [|f2]; [lia|]. cbn [ref_lines].
  destruct (read_line s) as [[[line|]|e] s'] eqn:E; try reflexivity.
  apply read_line_shrinks in E.
  destruct (startswith ZERO_REF line); [reflexivity|].
  destruct (refline_fullmatch line) as [[h r]|]; [|reflexivity].
  destruct (decode h); [|reflexivity]. destruct (decode r); [|reflexivity].
  rewrite (IH f2 s') by lia. reflexivity.
Qed.

(** C10.  When the request of the ref advertisement is answered with a status
    that is not a success, [check_visibility] returns false, whatever the body
    of the answer: nothing is parsed and nothing is raised. *)
Theorem check_visibility_http_failure
    (http_get : string -> string -> result Response)
    (repo_name branch_name expected_head token : string) (resp : Response) :
  http_get (refs_url repo_name) token = Ok resp ->
  ok resp = false ->
  check_visibility http_get repo_name branch_name expected_head token = Ok false.
Proof.
  intros Hget Hok. unfold check_visibility. now rewrite Hget, Hok.
Qed.

Lemma check_visibility_http_failure_witness :
  check_visibility Toy.failing_get "org/a" "staging.master" "deadbeef" "token" = Ok false.
Proof.
  apply (check_visibility_http_failure Toy.failing_get "org/a" "staging.master"
           "deadbeef" "token" (mkResponse false "not a pkt-line")); reflexivity.
Defined.

(** The same body under a success status is a protocol failure. *)
Example check_visibility_malformed :
  check_visibility (fun _ _ => Ok (mkResponse true "not a pkt-line"))
    "org/a" "staging.master" "deadbeef" "token" = Err ValueError.
Proof. reflexivity. Qed.

(** An advertisement of another head is not visible. *)
Example check_visibility_other_head :
  check_visibility
    (fun _ _ => Ok (mkResponse true
       ("001e# service=git-upload-pack" +:+ String nl "0000" +:+ "0047"
        +:+ "0123456789abcdef0123456789abcdef01234567 refs/heads/staging.master"
        +:+ String nl "0000")))
    "org/a" "staging.master" "deadbeef" "token" = Ok false.
Proof. reflexivity. Qed.

End VisibilityFacts.

(** ** The ready-set selector *)

Module SelectorFacts.
Import Store Staging Selector SelectorShape.
Local Open Scope string_scope.

Lemma group_key_eqb_eq a b : group_key_eqb a b = true <-> a = b.
Proof.
  destruct a as [a1 a2], b as [b1 b2]. unfold group_key_eqb. simpl.
  rewrite andb_true_iff, Nat.eqb_eq, String.eqb_eq. split.
  - intros [-> ->]. reflexivity.
  - intros H. inversion H. auto.
Qed.

Lemma in_insert_row g x l : In g (insert_row x l) <-> g = x \/ In g l.
Proof.
  induction l as [|h l IH]; simpl.
  - split; [intros [<-|[]]; now left|intros [->|[]]; now left].
  - destruct (row_le x h); simpl.
    + split; intros [E|E]; auto.
    + rewrite IH. split; [intros [E|[E|E]]|intros [E|[E|E]]]; auto.
Qed.

(** Ordering the rows keeps them. *)
Lemma in_order_rows g l : In g (order_rows l) <-> In g l.
Proof.
  induction l as [|x l IH]; [tauto|].
  change (order_rows (x :: l)) with (insert_row x (order_rows l)).
  rewrite in_insert_row, IH. simpl. split; intros [E|E]; auto.
Qed.

Lemma in_groups g rows :
  In g (groups rows) ->
  exists k, g = List.filter (fun row => group_key_eqb (group_key row) k) rows.
Proof.
  unfold groups. rewrite in_map_iff. intros (k & <- & _). now exists k.
Qed.

(** A row of the query is made of the selectable pull requests of one key. *)
Lemma in_ready_groups g ids table :
  In g (ready_groups ids table) ->
  exists k, g = List.filter (fun row => group_key_eqb (group_key row) k)
                  (List.filter (selectable ids) table).
Proof.
  unfold ready_groups. intros H. apply (proj1 (in_order_rows _ _)) in H.
  apply filter_In in H as [H _]. now apply in_groups.
Qed.

Lemma filter_filter_andb {A} (f g : A -> bool) (l : list A) :
  List.filter g (List.filter f l) = List.filter (fun x => f x && g x) l.
Proof.
  induction l as [|x l IH]; [reflexivity|]. simpl.
  destruct (f x); simpl; [destruct (g x)|]; rewrite ?IH; reflexivity.
Qed.

Lemma filter_none {A} (f : A -> bool) (l : list A) :
  (forall r, In r l -> f r = false) -> List.filter f l = [].
Proof.
  induction l as [|x l IH]; intros H; [reflexivity|]. simpl.
  rewrite (H x) by now left. apply IH. intros r Hr. apply H. now right.
Qed.

Lemma filter_singleton {A} (f : A -> bool) (l : list A) (p : A) :
  List.NoDup l -> In p l -> f p = true ->
  (forall r, In r l -> f r = true -> r = p) ->
  List.filter f l = [p].
Proof.
  induction l as [|x l IH]; intros Hnd Hp Hfp Huniq; [destruct Hp|].
  inversion Hnd as [|? ? Hx Hl]; subst. simpl. destruct Hp as [->|Hp].
  - rewrite Hfp. f_equal. apply filter_none. intros r Hr.
    destruct (f r) eqn:E; [|reflexivity].
    exfalso. apply Hx. rewrite <- (Huniq r); auto. now right.
  - destruct (f x) eqn:E.
    + exfalso. apply Hx. rewrite (Huniq x); auto. now left.
    + apply IH; auto. intros r Hr. apply Huniq. now right.
Qed.

Lemma NoDup_fst {A B} (l : list (A * B)) : NoDup (map fst l) -> List.NoDup l.
Proof.
  induction l as [|x t IH]; intros Hnd; [constructor|].
  inversion Hnd as [|? ? Hx Ht]; subst. constructor; [|auto].
  intros Hin. apply Hx. apply list_elem_of_In. now apply (in_map fst).
Qed.

Lemma NoDup_fst_inj {A B} (l : list (A * B)) (p r : A * B) :
  NoDup (map fst l) -> In p l -> In r l -> fst r = fst p -> r = p.
Proof.
  induction l as [|x t IH]; intros Hnd Hp Hr Hkey; [destruct Hr|].
  inversion Hnd as [|? ? Hx Ht]; subst. simpl in Hr, Hp.
  destruct Hr as [->|Hr], Hp as [->|Hp]; auto.
  - exfalso. apply Hx. rewrite Hkey. apply list_elem_of_In. now apply in_map.
  - exfalso. apply Hx. rewrite <- Hkey. apply list_elem_of_In. now apply in_map.
Qed.

(** The grouping, on a table whose ids are distinct. *)
Lemma grouping_table (ids : list nat) (table : list (nat * PullRequest))
    (p q s : nat * PullRequest) (g : list (nat * PullRequest)) :
  NoDup (map fst table) ->
  In p table -> In q table -> In s table ->
  selectable ids p = true -> selectable ids q = true -> selectable ids s = true ->
  In g (ready_groups ids table) ->
  (is_patch_label (label (snd p)) = false ->
   label (snd p) = label (snd q) -> target (snd p) = target (snd q) ->
   (In p g <-> In q g))
  /\ (is_patch_label (label (snd s)) = true ->
      (forall r, In r table -> selectable ids r = true ->
                 target (snd r) = target (snd s) ->
                 is_patch_label (label (snd r)) = false ->
                 label (snd r) <> pretty (fst s)) ->
      In s g -> g = [s]).
Proof.
  intros Hnd Hp Hq Hs Sp Sq Ss Hg.
  apply in_ready_groups in Hg as [k ->]. split.
  - intros Hnp Hl Ht.
    assert (Hk : group_key p = group_key q).
    { unfold group_key, dedup_key. rewrite <- Hl, Hnp, Ht. reflexivity. }
    rewrite !filter_In, Hk. tauto.
  - intros Hpatch Hfree Hin.
    apply filter_In in Hin as [_ Hk]. apply group_key_eqb_eq in Hk. subst k.
    rewrite filter_filter_andb.
    apply filter_singleton; auto using NoDup_fst.
    + rewrite Ss. now apply group_key_eqb_eq.
    + intros r Hr Hf. apply andb_true_iff in Hf as [Sr Hk].
      apply group_key_eqb_eq in Hk.
      unfold group_key, dedup_key in Hk. rewrite Hpatch in Hk.
      inversion Hk as [[Htr Hkey]].
      destruct (is_patch_label (label (snd r))) eqn:Er.
      * apply (inj pretty) in Hkey. eapply NoDup_fst_inj; eauto.
      * exfalso. exact (Hfree r Hr Sr Htr Er Hkey).
Qed.

Lemma in_table {X} (w : World X) (id : nat) (pr : PullRequest) :
  prs w !! id = Some pr -> In (id, pr) (map_to_list (prs w)).
Proof. intros H. apply list_elem_of_In, elem_of_map_to_list. exact H. Qed.

Lemma pretty_N_char_digit x : is_digit (pretty_N_char x) = true.
Proof. unfold pretty_N_char. repeat case_match; reflexivity. Qed.

Lemma pretty_N_go_digits x : forall s,
  all_chars is_digit s = true -> all_chars is_digit (pretty_N_go x s) = true.
Proof.
  induction (N.lt_wf_0 x) as [x _ IH]; intros s Hs.
  assert (x = 0 \/ 0 < x)%N as [->|Hx] by lia.
  - now rewrite pretty_N_go_0.
  - rewrite pretty_N_go_step by exact Hx. apply IH.
    + now apply N.div_lt.
    + simpl. now rewrite pretty_N_char_digit.
Qed.

(** The text of an id is made of digits. *)
Lemma pretty_nat_digits (n : nat) : all_chars is_digit (pretty n) = true.
Proof.
  unfold pretty, pretty_nat, pretty, pretty_N.
  case_decide; [reflexivity|]. now apply pretty_N_go_digits.
Qed.

(** A label as the hosting provider makes them, [owner:branch], is not the
    text of an id. *)
Lemma label_is_no_id (l : string) (n : nat) :
  all_chars is_digit l = false -> l <> pretty n.
Proof. intros H ->. rewrite pretty_nat_digits in H. discriminate. Qed.

Lemma provider_label_no_id (l : string) (n : nat) : provider_label l -> l <> pretty n.
Proof.
  intros (owner & branch & ->). apply label_is_no_id.
  induction owner as [|c owner IH]; [reflexivity|].
  change (String c owner ++ ":" ++ branch) with (String c (owner ++ ":" ++ branch)).
  simpl. rewrite IH. apply andb_false_r.
Qed.

(** C6.  Labels are those of the provider, [owner:branch].  Among the pull
    requests the query selects (a target among the branches asked for,
    neither merged nor closed), two that share a label which is not a patch
    label, on the same target, are in the same rows; and a row that holds a
    pull request with a patch label holds nothing else, whatever the labels of
    the others. *)
Theorem grouping_by_dedup_key {X} (w : World X) (ids : list nat)
    (p q s : nat) (pp pq ps : PullRequest) (g : list (nat * PullRequest)) :
  (forall r pr, prs w !! r = Some pr -> provider_label (label pr)) ->
  prs w !! p = Some pp -> prs w !! q = Some pq -> prs w !! s = Some ps ->
  selectable ids (p, pp) = true -> selectable ids (q, pq) = true ->
  selectable ids (s, ps) = true ->
  In g (ready_groups ids (map_to_list (prs w))) ->
  (is_patch_label (label pp) = false ->
   label pp = label pq -> target pp = target pq ->
   (In (p, pp) g <-> In (q, pq) g))
  /\ (is_patch_label (label ps) = true -> In (s, ps) g -> g = [(s, ps)]).
Proof.
  intros Hlabels Hp Hq Hs Sp Sq Ss Hg.
  destruct (grouping_table ids (map_to_list (prs w)) (p, pp) (q, pq) (s, ps) g)
    as [H1 H2]; auto using in_table.
  - apply NoDup_fst_map_to_list.
  - split; [exact H1|]. intros Hpatch. apply H2; [exact Hpatch|].
    intros [r pr] Hr _ _ _. apply provider_label_no_id.
    apply list_elem_of_In, elem_of_map_to_list in Hr. exact (Hlabels r pr Hr).
Qed.

Lemma pool_labels r pr : prs Toy.pool !! r = Some pr -> provider_label (label pr).
Proof.
  intros H. apply elem_of_map_to_list, list_elem_of_In in H.
  vm_compute in H.
  repeat (destruct H as [H|H]; [inversion H; subst; exists "dev"; eexists; reflexivity|]).
  destruct H.
Qed.

Lemma grouping_by_dedup_key_witness :
  let g := [(10, Toy.mk_pr 1 1 1 "h1" "dev:fix" 2 None true "T" "ready");
            (11, Toy.mk_pr 2 2 1 "g1" "dev:fix" 2 None true "T" "opened")] in
  let g' := [(12, Toy.mk_pr 3 1 1 "k1" "dev:patch-1" 2 None true "T" "ready")] in
  (In (10, Toy.mk_pr 1 1 1 "h1" "dev:fix" 2 None true "T" "ready") g
   <-> In (11, Toy.mk_pr 2 2 1 "g1" "dev:fix" 2 None true "T" "opened") g)
  /\ (forall g0, In g0 (ready_groups [1] (map_to_list (prs Toy.pool))) ->
        In (12, Toy.mk_pr 3 1 1 "k1" "dev:patch-1" 2 None true "T" "ready") g0 -> g0 = g')
  /\ label (Toy.mk_pr 4 1 1 "l1" "dev:patch-1" 2 None true "T" "ready") = "dev:patch-1"
  /\ In g' (ready_groups [1] (map_to_list (prs Toy.pool))).
Proof.
  intros g g'.
  assert (Hg : In g (ready_groups [1] (map_to_list (prs Toy.pool)))).
  { vm_compute. left. reflexivity. }
  split; [|split; [|split]].
  - refine (proj1 (grouping_by_dedup_key Toy.pool [1] 10 11 12 _ _ _ g pool_labels
                     eq_refl eq_refl eq_refl eq_refl eq_refl eq_refl Hg) _ _ _);
      reflexivity.
  - intros g0 Hg0.
    exact (proj2 (grouping_by_dedup_key Toy.pool [1] 10 11 12 _ _ _ g0 pool_labels
                    eq_refl eq_refl eq_refl eq_refl eq_refl eq_refl Hg0) eq_refl).
  - reflexivity.
  - vm_compute. right. left. reflexivity.
Defined.

(** A label that is the text of an id, which no provider gives, would share
    the key of the patch pull request of that id. *)
Lemma patch_group_shared :
  is_patch_label "dev:patch-1" = true
  /\ ready_groups [1] Toy.clash = [Toy.clash].
Proof. vm_compute. split; reflexivity. Qed.

(** With labels that all have a character other than a digit, a pull request
    with a patch label is alone in its row. *)
Corollary patch_label_alone {X} (w : World X) (ids : list nat)
    (s : nat) (ps : PullRequest) (g : list (nat * PullRequest)) :
  prs w !! s = Some ps ->
  selectable ids (s, ps) = true ->
  is_patch_label (label ps) = true ->
  (forall r pr, prs w !! r = Some pr -> all_chars is_digit (label pr) = false) ->
  In g (ready_groups ids (map_to_list (prs w))) ->
  In (s, ps) g -> g = [(s, ps)].
Proof.
  intros Hs Ss Hpatch Hlabels Hg Hin.
  destruct (grouping_table ids (map_to_list (prs w)) (s, ps) (s, ps) (s, ps) g)
    as [_ H]; auto using in_table.
  - apply NoDup_fst_map_to_list.
  - apply H; [exact Hpatch| |exact Hin].
    intros [r pr] Hr _ _ _. apply label_is_no_id.
    apply list_elem_of_In, elem_of_map_to_list in Hr. exact (Hlabels r pr Hr).
Qed.

(** C5.  For a branch that has an active staging, [try_staging] returns
    [None] and leaves the state as it is, whatever the pool: nothing is
    queried, no split is consumed, nothing is staged. *)
Theorem try_staging_active_staging {X} (C : Collab X) (branch : Branch) (w : World X) :
  is_Some (active_staging_id branch) ->
  try_staging C branch w = (Ok None, w).
Proof.
  intros [sid H]. unfold try_staging. rewrite H. reflexivity.
Qed.

Lemma try_staging_active_staging_witness :
  try_staging Toy.live_conflict Toy.busy Toy.two_repos = (Ok None, Toy.two_repos).
Proof.
  apply (try_staging_active_staging Toy.live_conflict Toy.busy Toy.two_repos).
  exists 5. reflexivity.
Defined.

End SelectorFacts.

(** ** Computations *)

Module MonadFacts.
Import Store Staging Hoare.
Local Open Scope string_scope.

Section Monad.
Context {X : Type}.

Lemma bind_Ok_inv {A B} (m : M X A) (k : A -> M X B) w b w' :
  bind m k w = (Ok b, w') ->
  exists a w1, m w = (Ok a, w1) /\ k a w1 = (Ok b, w').
Proof.
  unfold bind. destruct (m w) as [[a|e] w1]; intros H; [eauto|discriminate].
Qed.

Lemma bind_inv {A B} (m : M X A) (k : A -> M X B) w r w' :
  bind m k w = (r, w') ->
  (exists a w1, m w = (Ok a, w1) /\ k a w1 = (r, w'))
  \/ (exists e, m w = (Err e, w') /\ r = Err e).
Proof.
  unfold bind. destruct (m w) as [[a|e] w1]; intros H; [left; eauto|].
  right. inversion H; subst. eauto.
Qed.

Lemma bind_Ok {A B} (m : M X A) (k : A -> M X B) w a w1 :
  m w = (Ok a, w1) -> bind m k w = k a w1.
Proof. unfold bind. now intros ->. Qed.

Lemma bind_Err {A B} (m : M X A) (k : A -> M X B) w e w1 :
  m w = (Err e, w1) -> bind m k w = (Err e, w1).
Proof. unfold bind. now intros ->. Qed.

Context (R : World X -> World X -> Prop) `{!PreOrder R}.

Lemma stable_ret {A} (a : A) : stable R (ret a).
Proof. intros w r w' H. inversion H; subst. reflexivity. Qed.

Lemma stable_raise {A} e : stable R (@raise X A e).
Proof. intros w r w' H. inversion H; subst. reflexivity. Qed.

Lemma stable_get : stable R get.
Proof. intros w r w' H. inversion H; subst. reflexivity. Qed.

Lemma stable_bind {A B} (m : M X A) (k : A -> M X B) :
  stable R m -> (forall a, stable R (k a)) -> stable R (bind m k).
Proof.
  intros Hm Hk w r w' H. apply bind_inv in H as [(a & w1 & H1 & H2)|(e & H1 & _)].
  - etransitivity; [exact (Hm _ _ _ H1)|exact (Hk _ _ _ _ H2)].
  - exact (Hm _ _ _ H1).
Qed.

Lemma stable_try_except {A} (m : M X A) (h : exn -> M X A) :
  stable R m -> (forall e, stable R (h e)) -> stable R (try_except m h).
Proof.
  intros Hm Hh w r w' H. unfold try_except in H.
  destruct (m w) as [[a|e] w1] eqn:E.
  - inversion H; subst. exact (Hm _ _ _ E).
  - etransitivity; [exact (Hm _ _ _ E)|exact (Hh _ _ _ _ H)].
Qed.

Lemma stable_from_option {A} e (o : option A) : stable R (from_option e o).
Proof. destruct o; [apply stable_ret|apply stable_raise]. Qed.

Lemma stable_lift_result {A} (r : result A) : stable R (lift_result r).
Proof. intros w r' w' H. inversion H; subst. reflexivity. Qed.

Lemma stable_for_each {A} (l : list A) (f : A -> M X unit) :
  (forall x, stable R (f x)) -> stable R (for_each l f).
Proof.
  intros Hf. induction l as [|x l IH]; [apply stable_ret|].
  apply stable_bind; [apply Hf|intros _; exact IH].
Qed.

Lemma stable_get_pr id : stable R (get_pr id).
Proof. intros w r w' H. inversion H; subst. reflexivity. Qed.
Lemma stable_get_branch id : stable R (get_branch id).
Proof. intros w r w' H. inversion H; subst. reflexivity. Qed.
Lemma stable_get_repo id : stable R (get_repo id).
Proof. intros w r w' H. inversion H; subst. reflexivity. Qed.
Lemma stable_get_partner id : stable R (get_partner id).
Proof. intros w r w' H. inversion H; subst. reflexivity. Qed.
Lemma stable_gh_head repo ref : stable R (gh_head repo ref).
Proof. intros w r w' H. inversion H; subst. reflexivity. Qed.
Lemma stable_remote_read {A} (f : Remote X -> result A) : stable R (remote_read f).
Proof. intros w r w' H. inversion H; subst. reflexivity. Qed.

Lemma stable_modify (f : World X -> World X) :
  (forall w, R w (f w)) -> stable R (modify f).
Proof. intros Hf w r w' H. inversion H; subst. apply Hf. Qed.

Lemma stable_write_pr id f :
  (forall w p, prs w !! id = Some p -> R w (set_prs (<[id := f p]> (prs w)) w)) ->
  stable R (write_pr id f).
Proof.
  intros Hf w r w' H. unfold write_pr in H. destruct (prs w !! id) eqn:E.
  - inversion H; subst. now apply Hf.
  - inversion H; subst. reflexivity.
Qed.

Lemma stable_remote_call {A} (f : Remote X -> result A * Remote X) :
  (forall w rm, R w (set_remote rm w)) -> stable R (remote_call f).
Proof.
  intros Hf w r w' H. unfold remote_call in H.
  destruct (f (remote w)) as [r1 rm]. inversion H; subst. apply Hf.
Qed.

End Monad.

Section Ensures.
Context {X : Type}.

Lemma ensures_bind {A B} (Q : B -> World X -> Prop) (m : M X A) (k : A -> M X B) :
  (forall a, ensures Q (k a)) -> ensures Q (bind m k).
Proof.
  intros Hk w b w' H. apply bind_Ok_inv in H as (a & w1 & _ & H). exact (Hk _ _ _ _ H).
Qed.

Lemma ensures_raise {A} (Q : A -> World X -> Prop) e : ensures Q (raise e).
Proof. intros w a w' H. discriminate H. Qed.

Lemma ensures_ret {A} (Q : A -> World X -> Prop) a :
  (forall w, Q a w) -> ensures Q (ret a).
Proof. intros HQ w a' w' H. inversion H; subst. apply HQ. Qed.

Lemma ensures_write_ret {A} (Q : A -> World X -> Prop) id f (a : A) :
  (forall w p, prs w !! id = Some p -> Q a (set_prs (<[id := f p]> (prs w)) w)) ->
  ensures Q (bind (write_pr id f) (fun _ => ret a)).
Proof.
  intros HQ w a' w' H. apply bind_Ok_inv in H as ([] & w1 & H1 & H2).
  inversion H2; subst. unfold write_pr in H1.
  destruct (prs w !! id) eqn:E; inversion H1; subst. now apply HQ.
Qed.
End Ensures.

Ltac ensures_step :=
first
  [ apply ensures_raise
  | apply ensures_write_ret
  | apply ensures_bind; intros ?
  | match goal with
    | |- ensures _ (match ?x with _ => _ end) => destruct x
    | |- ensures _ (let '(_, _) := ?x in _) => destruct x
    end ].

Ltac stable_apply lem := apply lem; try (solve [typeclasses eauto]).

Section StableOk.
Context {X : Type} (R : World X -> World X -> Prop) `{!PreOrder R}.

Lemma stable_ok_of_stable {A} (m : M X A) : stable R m -> stable_ok R m.
Proof. intros H w a w' E. exact (H _ _ _ E). Qed.

Lemma stable_ok_raise {A} e : stable_ok R (@raise X A e).
Proof. intros w a w' H. discriminate H. Qed.

Lemma stable_ok_bind {A B} (m : M X A) (k : A -> M X B) :
  stable_ok R m -> (forall a, stable_ok R (k a)) -> stable_ok R (bind m k).
Proof.
  intros Hm Hk w b w' H. apply bind_Ok_inv in H as (a & w1 & H1 & H2).
  etransitivity; [exact (Hm _ _ _ H1)|exact (Hk _ _ _ _ H2)].
Qed.

Lemma stable_ok_bind_raise {A B} (m : M X A) e :
  stable_ok R (bind m (fun _ => @raise X B e)).
Proof.
  intros w b w' H. apply bind_Ok_inv in H as (a & w1 & _ & H2). discriminate H2.
Qed.

Lemma stable_ok_for_each {A} (l : list A) (f : A -> M X unit) :
  (forall x, stable_ok R (f x)) -> stable_ok R (for_each l f).
Proof.
  intros Hf. induction l as [|x l IH].
  - apply stable_ok_of_stable, stable_ret. exact _.
  - apply stable_ok_bind; [apply Hf|intros _; exact IH].
Qed.
End StableOk.

Ltac stable_ok_step :=
first
  [ apply stable_ok_raise
  | apply stable_ok_bind_raise
  | stable_apply @stable_ok_bind; [|intros ?]
  | stable_apply @stable_ok_for_each; intros ?
  | match goal with
    | |- stable_ok _ (match ?x with _ => _ end) => destruct x
    | |- stable_ok _ (let '(_, _) := ?x in _) => destruct x
    end ].

Ltac stable_step :=
first
  [ stable_apply @stable_ret | stable_apply @stable_raise | stable_apply @stable_get
  | stable_apply @stable_get_pr | stable_apply @stable_get_branch
  | stable_apply @stable_get_repo | stable_apply @stable_get_partner
  | stable_apply @stable_gh_head | stable_apply @stable_remote_read
  | stable_apply @stable_from_option | stable_apply @stable_lift_result
  | stable_apply @stable_bind; [|intros ?]
  | stable_apply @stable_for_each; intros ?
  | stable_apply @stable_try_except; [|intros ?]
  | match goal with
    | |- stable _ (match ?x with _ => _ end) => destruct x
    | |- stable _ (let '(_, _) := ?x in _) => destruct x
    end ].


End MonadFacts.

(** ** The staging transaction *)

Module StagingFacts.
Import Store Staging Hoare Frames MonadFacts.
Local Open Scope string_scope.

Section Frames.
Context {X : Type} (C : Collab X).

Global Instance same_remote_preorder : PreOrder (@same_remote X).
Proof. split; [now intros w|intros a b c H1 H2; unfold same_remote in *; congruence]. Qed.

Lemma stage_prepare_same_remote id repo :
  stable same_remote (stage_prepare C id repo).
Proof.
  unfold stage_prepare, unlink_pr.
  repeat stable_step.
  all: try (stable_apply @stable_write_pr; intros; reflexivity).
  all: try (stable_apply @stable_modify; intros; reflexivity).
Qed.
End Frames.

Section Stage.
Context {X : Type} (C : Collab X).

Lemma final_commit_insert id h (w : World X) (p : PullRequest) (f : PullRequest -> PullRequest) :
  commits_map (f p) !! EmptyString = Some h ->
  final_commit id h (set_prs (<[id := f p]> (prs w)) w).
Proof. intros H. exists (f p). split; [apply lookup_insert_eq|exact H]. Qed.

Lemma strategy_final_commit m id pr repo target commits related :
  ensures (final_commit id) (strategy C m id pr repo target commits related).
Proof.
  destruct m; unfold strategy, stage_merge, stage_rebase_merge, stage_rebase_ff,
    stage_squash, set_commits_map.
  all: repeat ensures_step.
  all: intros; apply final_commit_insert; simpl.
  all: try apply lookup_insert_eq.
  rewrite lookup_insert. case_decide; [reflexivity|apply lookup_insert_eq].
Qed.

(** C3.  When [stage] returns a method and a new head, whichever of the four
    strategies ran, the commits map written to the pull request has the new
    head under the empty key. *)
Theorem staged_commits_map_final_commit id repo target related (w : World X) m h w' :
  stage C id repo target related w = (Ok (m, h), w') ->
  exists p, prs w' !! id = Some p /\ commits_map p !! EmptyString = Some h.
Proof.
  unfold stage. intros H.
  apply bind_Ok_inv in H as ([[pr method] cs] & w1 & _ & H).
  destruct method as [m'|]; [|discriminate H].
  apply bind_Ok_inv in H as (h' & w2 & Hs & H). inversion H; subst.
  exact (strategy_final_commit _ _ _ _ _ _ _ _ _ _ Hs).
Qed.
End Stage.

Section Method.
Context {X : Type} (C : Collab X).

Lemma get_pr_inv id (w : World X) r w' :
  get_pr id w = (r, w') ->
  w' = w /\ r = match prs w !! id with Some p => Ok p | None => Err MissingError end.
Proof. unfold get_pr. intros H. inversion H; subst. auto. Qed.

Lemma stage_prepare_method id repo (w : World X) pr prdict x w' :
  prs w !! id = Some pr ->
  gh_pr C (remote w) repo (number pr) = Ok prdict ->
  stage_prepare C id repo w = (Ok x, w') ->
  fst (fst x) = pr /\ snd (fst x) = choose_method pr (pd_commits prdict).
Proof.
  intros Hpr Hpd H. unfold stage_prepare in H.
  apply bind_Ok_inv in H as (pr' & w1 & H1 & H).
  apply get_pr_inv in H1 as [-> H1]. rewrite Hpr in H1. inversion H1; subst pr'.
  apply bind_Ok_inv in H as (pd & w1 & H2 & H).
  unfold remote_read in H2. rewrite Hpd in H2. inversion H2; subst pd w1.
  match type of H with
  | ?m _ = _ =>
      assert (E : ensures (fun x (_ : World X) =>
                     fst (fst x) = pr
                     /\ snd (fst x) = choose_method pr (pd_commits prdict)) m)
  end.
  { repeat ensures_step. apply ensures_ret. intros _. split; reflexivity. }
  exact (E _ _ _ H).
Qed.

(** C7.  For a pull request without a merge method: with exactly one live
    commit, [stage] is the preparation followed by [stage_rebase_ff], and the
    method it returns is rebase-ff; with any other number of commits no
    strategy runs: [stage] is the preparation followed by the failure to find
    the strategy function, it raises, and the remote is as it was. *)
Theorem stage_without_method id repo target related (w : World X) pr prdict :
  prs w !! id = Some pr ->
  merge_method pr = None ->
  gh_pr C (remote w) repo (number pr) = Ok prdict ->
  (pd_commits prdict = 1 ->
   stage C id repo target related w
   = bind (stage_prepare C id repo)
          (fun x => bind (stage_rebase_ff C id (fst (fst x)) repo target (snd x) related)
                         (fun h => ret (rebase_ff, h))) w)
  /\ (pd_commits prdict <> 1 ->
      stage C id repo target related w
      = bind (stage_prepare C id repo) (fun _ => raise (UnboundLocalError "fn")) w
      /\ exists e w', stage C id repo target related w = (Err e, w')
                      /\ remote w' = remote w).
Proof.
  intros Hpr Hm Hpd.
  assert (Hmethod : forall x w', stage_prepare C id repo w = (Ok x, w') ->
            fst (fst x) = pr
            /\ snd (fst x) = if (pd_commits prdict =? 1)%nat then Some rebase_ff else None).
  { intros x w' E. destruct (stage_prepare_method _ _ _ _ _ _ _ Hpr Hpd E) as [H1 H2].
    unfold choose_method in H2. rewrite Hm in H2. auto. }
  split; intros Hc.
  - unfold stage, bind.
    destruct (stage_prepare C id repo w) as [[x|e] w1] eqn:E; [|reflexivity].
    destruct (Hmethod _ _ eq_refl) as [Hx1 Hx2]. destruct x as [[pr' method] cs].
    simpl in Hx1, Hx2. subst pr' method. rewrite Hc. reflexivity.
  - assert (Heq : stage C id repo target related w
                  = bind (stage_prepare C id repo)
                         (fun _ => raise (UnboundLocalError "fn")) w).
    { unfold stage, bind.
      destruct (stage_prepare C id repo w) as [[x|e] w1] eqn:E; [|reflexivity].
      destruct (Hmethod _ _ eq_refl) as [Hx1 Hx2]. destruct x as [[pr' method] cs].
      simpl in Hx1, Hx2. subst pr' method.
      apply Nat.eqb_neq in Hc. rewrite Hc. reflexivity. }
    split; [exact Heq|]. rewrite Heq. unfold bind.
    destruct (stage_prepare C id repo w) as [[x|e] w1] eqn:E.
    + exists (UnboundLocalError "fn"), w1. split; [reflexivity|].
      exact (stage_prepare_same_remote C id repo _ _ _ E).
    + exists e, w1. split; [reflexivity|].
      exact (stage_prepare_same_remote C id repo _ _ _ E).
Qed.
End Method.

Section Rollback.
Context {X : Type} (C : Collab X).

Global Instance places_kept_preorder : PreOrder (@places_kept X).
Proof.
  split.
  - intros w. split; [reflexivity|]. intros q. unfold same_place.
    destruct (prs w !! q); auto.
  - intros a b c [Hb1 Hp1] [Hb2 Hp2]. split; [congruence|]. intros q.
    specialize (Hp1 q). specialize (Hp2 q). unfold same_place in *.
    destruct (prs a !! q), (prs b !! q), (prs c !! q); try tauto.
    destruct Hp1, Hp2. split; congruence.
Qed.

Global Instance others_kept_preorder id : PreOrder (@others_kept X id).
Proof.
  split.
  - intros w. split; auto.
  - intros a b c [Hb1 Hp1] [Hb2 Hp2]. split; [congruence|]. intros q Hq.
    rewrite Hp2, Hp1; auto.
Qed.

Lemma add_self_references_stable (R : World X -> World X -> Prop) `{!PreOrder R}
    pr commits :
  stable R (add_self_references C pr commits).
Proof.
  induction commits as [|c cs IH]; simpl; [stable_apply @stable_ret|].
  unfold is_mentioned, display_name.
  repeat stable_step. exact IH.
Qed.

Ltac strategy_frames :=
  unfold strategy, stage_merge, stage_rebase_merge, stage_rebase_ff,
    stage_squash, set_commits_map, set_ref;
  repeat first [stable_apply @add_self_references_stable | stable_step].

Lemma strategy_others_kept m id pr repo target commits related :
  stable (others_kept id) (strategy C m id pr repo target commits related).
Proof.
  destruct m; strategy_frames.
  all: try (stable_apply @stable_write_pr; intros; split; [reflexivity|];
            intros q Hq; simpl; now rewrite lookup_insert_ne by auto).
  all: try (stable_apply @stable_remote_call; intros; split; reflexivity).
  all: try (stable_apply @stable_modify; intros; split; reflexivity).
Qed.

Lemma stage_others_kept id repo target related :
  stable (others_kept id) (stage C id repo target related).
Proof.
  unfold stage, stage_prepare, unlink_pr.
  repeat first [stable_apply @strategy_others_kept | stable_step].
  all: try (stable_apply @stable_write_pr; intros; split; [reflexivity|];
            intros q Hq; simpl; now rewrite lookup_insert_ne by auto).
  all: try (stable_apply @stable_modify; intros; split; [reflexivity|];
            intros q Hq; simpl; try reflexivity; now rewrite lookup_delete_ne by auto).
Qed.
Ltac leaf :=
  stable_apply @stable_ok_of_stable;
  first [ stable_apply @add_self_references_stable
        | stable_apply @stable_ret | stable_apply @stable_get
        | stable_apply @stable_get_pr | stable_apply @stable_get_branch
        | stable_apply @stable_get_repo | stable_apply @stable_get_partner
        | stable_apply @stable_gh_head | stable_apply @stable_remote_read
        | stable_apply @stable_from_option | stable_apply @stable_lift_result
        | stable_apply @stable_remote_call; intros; split; [reflexivity|];
          intros q; simpl; destruct (prs _ !! q); simpl; auto
        | stable_apply @stable_modify; intros; split; [reflexivity|];
          intros q; simpl; destruct (prs _ !! q); simpl; auto ].

Lemma write_commits_map_places id cm :
  stable places_kept (write_pr (X:=X) id (with_commits_map cm)).
Proof.
  stable_apply @stable_write_pr. intros w p Hp. split; [reflexivity|].
  intros q. simpl. destruct (decide (q = id)) as [->|Hq].
  - rewrite lookup_insert_eq, Hp. simpl. auto.
  - rewrite lookup_insert_ne by auto. destruct (prs w !! q); simpl; auto.
Qed.

Lemma strategy_places_kept m id pr repo target commits related :
  stable_ok places_kept (strategy C m id pr repo target commits related).
Proof.
  destruct m; unfold strategy, stage_merge, stage_rebase_merge, stage_rebase_ff,
    stage_squash, set_commits_map, set_ref.
  all: repeat first [ stable_ok_step
                    | apply stable_ok_of_stable, write_commits_map_places
                    | leaf ].
Qed.

Lemma stage_places_kept id repo target related :
  stable_ok places_kept (stage C id repo target related).
Proof.
  unfold stage, stage_prepare, unlink_pr.
  repeat first [ apply strategy_places_kept | stable_ok_step | leaf ].
Qed.

Lemma tmp_key_places (w w' : World X) q :
  places_kept w w' -> tmp_key w' q = tmp_key w q.
Proof.
  intros [Hb Hp]. specialize (Hp q). unfold tmp_key, same_place in *.
  rewrite Hb. destruct (prs w !! q), (prs w' !! q); try tauto.
  destruct Hp as [-> ->]. reflexivity.
Qed.

Lemma tmp_key_others id (w w' : World X) q :
  others_kept id w w' -> q <> id -> tmp_key w' q = tmp_key w q.
Proof. intros [Hb Hp] Hq. unfold tmp_key. now rewrite Hb, Hp. Qed.

Lemma try_except_Ok_inv {A} (m : M X A) h w a w' :
  try_except m h w = (Ok a, w') ->
  m w = (Ok a, w') \/ exists e w1, m w = (Err e, w1) /\ h e w1 = (Ok a, w').
Proof.
  unfold try_except. destruct (m w) as [[a'|e] w1]; intros H; [left; exact H|].
  right. eauto.
Qed.

Lemma in_dict_set q id h nh :
  In q (map fst (dict_set id h nh)) <-> q = id \/ In q (map fst nh).
Proof.
  induction nh as [|[k v] nh IH]; simpl.
  - split; [intros [<-|[]]; now left|intros [->|[]]; now left].
  - destruct (Nat.eqb id k) eqn:E; simpl.
    + apply Nat.eqb_eq in E. subst k. split; [intros [<-|H]; auto|intros [->|[<-|H]]; auto].
    + rewrite IH. split; [intros [H|[H|H]]|intros [H|[H|H]]]; auto.
Qed.

Lemma stage_one_staged all staging nh id (w : World X) nh' w' :
  stage_one C all staging nh id w = (Ok (Staged nh'), w') ->
  places_kept w w' /\ revertible staging w id /\ exists h, nh' = dict_set id h nh.
Proof.
  unfold stage_one. intros H.
  apply bind_Ok_inv in H as (p & w1 & H1 & H).
  apply get_pr_inv in H1 as [-> H1].
  destruct (prs w !! id) as [p'|] eqn:Ep; inversion H1; subst p'.
  apply bind_Ok_inv in H as (sl & w1 & H2 & H).
  destruct (staging !! repository p) as [sl'|] eqn:Es; inversion H2; subst sl' w1.
  apply bind_Ok_inv in H as (b & w1 & H3 & H).
  unfold get_branch in H3.
  destruct (branches w !! target p) as [b'|] eqn:Eb; inversion H3; subst b' w1.
  apply bind_Ok_inv in H as (oh & w1 & H4 & H).
  unfold gh_head in H4.
  destruct (refs (remote w) !! (repository p, tmp_ref (branch_name b)));
    inversion H4; subst.
  assert (Hrev : revertible staging w1 id).
  { exists (repository p, tmp_ref (branch_name b)). unfold tmp_key.
    rewrite Ep, Eb. split; [reflexivity|]. simpl. rewrite Es. eauto. }
  apply try_except_Ok_inv in H as [H|(e & w2 & _ & H)].
  - apply bind_Ok_inv in H as ([m h] & w2 & H5 & H). inversion H; subst.
    apply try_except_Ok_inv in H5 as [H5|(e & w3 & _ & H5)].
    + split; [exact (stage_places_kept _ _ _ _ _ _ _ H5)|]. split; [exact Hrev|eauto].
    + apply bind_Ok_inv in H5 as (? & ? & _ & H5). discriminate H5.
  - unfold classify in H. destruct e; discriminate H.
Qed.

Lemma revertible_places staging (w w' : World X) q :
  places_kept w w' -> revertible staging w' q -> revertible staging w q.
Proof.
  intros Hk (k & Hq & Hs). exists k. split; [|exact Hs].
  now rewrite <- (tmp_key_places _ _ _ Hk).
Qed.

Lemma stage_loop_staged all staging l : forall nh0 (w : World X) nh w',
  stage_loop C all staging l nh0 w = (Ok (Staged nh), w') ->
  places_kept w w'
  /\ Forall (revertible staging w) l
  /\ (forall q, In q (map fst nh) <-> In q (map fst nh0) \/ In q l).
Proof.
  induction l as [|id l IH]; intros nh0 w nh w' H.
  - inversion H; subst. split; [reflexivity|]. split; [constructor|].
    intros q. simpl. tauto.
  - simpl in H. apply bind_Ok_inv in H as (r & w1 & H1 & H).
    destruct r as [nh1|]; [|discriminate H].
    apply stage_one_staged in H1 as (Hk1 & Hrev & h & ->).
    apply IH in H as (Hk2 & Hall & Hkeys).
    split; [etransitivity; eassumption|]. split.
    + constructor; [exact Hrev|].
      eapply Forall_impl; [exact Hall|]. intros q. now apply revertible_places.
    + intros q. rewrite Hkeys, in_dict_set. simpl. split.
      * intros [[->|H]|H]; auto.
      * intros [H|[<-|H]]; auto.
Qed.

Lemma stage_loop_app all staging l1 l2 : forall nh0 (w : World X),
  stage_loop C all staging (l1 ++ l2) nh0 w
  = match stage_loop C all staging l1 nh0 w with
    | (Ok (Staged nh), w1) => stage_loop C all staging l2 nh w1
    | other => other
    end.
Proof.
  induction l1 as [|id l1 IH]; intros nh0 w; [reflexivity|].
  simpl. unfold bind.
  destruct (stage_one C all staging nh0 id w) as [[[nh1|]|e] w1]; try reflexivity.
  apply IH.
Qed.

End Rollback.

(** *** The client, and the refs it leaves *)

Section Contract.
Context {X : Type} (C : Collab X) (HC : client_contract C).

Global Instance refs_but_preorder k : PreOrder (@refs_but X k).
Proof.
  split.
  - intros w k' _. reflexivity.
  - intros a b c H1 H2 k' Hk. rewrite (H2 k' Hk). exact (H1 k' Hk).
Qed.

Global Instance remote_only_preorder : PreOrder (@remote_only X).
Proof.
  split.
  - intros w. unfold remote_only. now destruct w.
  - intros a b c H1 H2. unfold remote_only in *. rewrite H2, H1. reflexivity.
Qed.

Lemma same_remote_refs_but {A} k (m : M X A) :
  stable same_remote m -> stable (refs_but k) m.
Proof. intros H w r w' E k' _. now rewrite (H _ _ _ E). Qed.

Lemma call_refs_but {A} k (f : Remote X -> result A * Remote X) :
  (forall r res r', f r = (res, r') -> forall k', k' <> k -> refs r' !! k' = refs r !! k') ->
  stable (refs_but k) (remote_call f).
Proof.
  intros Hf w r w' H. unfold remote_call in H.
  destruct (f (remote w)) as [res rm] eqn:E. inversion H; subst.
  intros k' Hk. simpl. exact (Hf _ _ _ E k' Hk).
Qed.

Lemma call_remote_only {A} (f : Remote X -> result A * Remote X) :
  stable remote_only (remote_call f).
Proof.
  intros w r w' H. unfold remote_call in H.
  destruct (f (remote w)) as [res rm]. inversion H; subst. reflexivity.
Qed.

Lemma set_ref_refs_but repo ref h : stable (refs_but (repo, ref)) (set_ref C repo ref h).
Proof. apply call_refs_but. intros r res r'. apply (set_ref_local C HC). Qed.

Lemma merge_refs_but repo s dest msg :
  stable (refs_but (repo, dest)) (remote_call (fun r => gh_merge C r repo s dest msg)).
Proof. apply call_refs_but. intros r res r'. apply (merge_local C HC). Qed.

Lemma rebase_refs_but repo n dest reset cs :
  stable (refs_but (repo, dest))
    (remote_call (fun r => gh_rebase C r repo n dest reset cs)).
Proof. apply call_refs_but. intros r res r'. apply (rebase_local C HC). Qed.

Lemma commit_refs_but k repo spec :
  stable (refs_but k) (remote_call (fun r => gh_post_commit C r repo spec)).
Proof.
  apply call_refs_but. intros r res r' H k' _. now rewrite (commit_keeps C HC _ _ _ _ _ H).
Qed.

Lemma write_pr_refs_but k id f : stable (refs_but k) (write_pr (X:=X) id f).
Proof. stable_apply @stable_write_pr. intros w p _ k' _. reflexivity. Qed.

Lemma strategy_refs_but m id pr repo target commits related :
  stable (refs_but (repo, target)) (strategy C m id pr repo target commits related).
Proof.
  destruct m; unfold strategy, stage_merge, stage_rebase_merge, stage_rebase_ff,
    stage_squash, set_commits_map.
  all: repeat first [ stable_apply @add_self_references_stable
                    | apply set_ref_refs_but
                    | apply merge_refs_but
                    | apply rebase_refs_but
                    | apply commit_refs_but
                    | apply write_pr_refs_but
                    | stable_step ].
Qed.

Lemma stage_refs_but id repo target related :
  stable (refs_but (repo, target)) (stage C id repo target related).
Proof.
  unfold stage. stable_apply @stable_bind.
  - apply same_remote_refs_but, stage_prepare_same_remote.
  - intros [[pr method] cs]. destruct method as [m|].
    + stable_apply @stable_bind; [apply strategy_refs_but|].
      intros h. stable_apply @stable_ret.
    + stable_apply @stable_raise.
Qed.

(** Where a strategy that returns leaves the ref. *)
Lemma write_pr_remote id f (w : World X) r w' :
  write_pr id f w = (r, w') -> remote w' = remote w.
Proof.
  unfold write_pr. destruct (prs w !! id); intros H; inversion H; subst; reflexivity.
Qed.

Lemma set_ref_Ok repo ref h (w : World X) w' :
  set_ref C repo ref h w = (Ok tt, w') -> refs (remote w') !! (repo, ref) = Some h.
Proof.
  unfold set_ref, remote_call. destruct (gh_set_ref C (remote w) repo ref h) as [res rm] eqn:E.
  intros H. inversion H; subst. simpl. exact (set_ref_moves C HC _ _ _ _ _ E).
Qed.

Lemma merge_Ok repo s dest msg (w : World X) m w' :
  remote_call (fun r => gh_merge C r repo s dest msg) w = (Ok m, w') ->
  refs (remote w') !! (repo, dest) = Some (m_sha m).
Proof.
  unfold remote_call. destruct (gh_merge C (remote w) repo s dest msg) as [res rm] eqn:E.
  intros H. inversion H; subst. simpl. exact (merge_moves C HC _ _ _ _ _ _ _ E).
Qed.

Lemma rebase_Ok repo n dest cs (w : World X) h mapping w' :
  remote_call (fun r => gh_rebase C r repo n dest false cs) w = (Ok (h, mapping), w') ->
  refs (remote w') !! (repo, dest) = Some h.
Proof.
  unfold remote_call. destruct (gh_rebase C (remote w) repo n dest false cs) as [res rm] eqn:E.
  intros H. inversion H; subst. simpl. exact (rebase_moves C HC _ _ _ _ _ _ _ _ E).
Qed.

Lemma written_then_returned id cm (h : string) (w : World X) h' w' :
  bind (set_commits_map id cm) (fun _ => ret h) w = (Ok h', w') ->
  h' = h /\ remote w' = remote w.
Proof.
  intros H. apply bind_Ok_inv in H as ([] & w1 & H1 & H). inversion H; subst.
  split; [reflexivity|]. exact (write_pr_remote _ _ _ _ _ H1).
Qed.

Lemma strategy_moves m id pr repo target commits related (w : World X) h w' :
  strategy C m id pr repo target commits related w = (Ok h, w') ->
  refs (remote w') !! (repo, target) = Some h.
Proof.
  destruct m; unfold strategy; intros H.
  - (* merge *)
    unfold stage_merge in H.
    apply bind_Ok_inv in H as (pr_head & w1 & _ & H).
    apply bind_Ok_inv in H as (base & w2 & _ & H).
    assert (Hplain : forall w2 h w',
      bind get (fun w0 : World X =>
        bind (remote_call (fun r => gh_merge C r repo (head pr) target
                (Msg.to_str (build_merge_message C w0 id (ArgPr id) []))))
          (fun merged =>
             bind (set_commits_map id
                     (<[EmptyString := m_sha merged]>
                        (list_to_map (map (fun c => (sha c, sha c)) commits))))
                  (fun _ => ret (m_sha merged)))) w2 = (Ok h, w') ->
      refs (remote w') !! (repo, target) = Some h).
    { clear - HC. intros w2 h w' H.
      apply bind_Ok_inv in H as (w0 & w3 & H0 & H). inversion H0; subst w0 w3.
      apply bind_Ok_inv in H as (merged & w3 & Hm & H).
      apply written_then_returned in H as [-> Hr]. rewrite Hr.
      exact (merge_Ok _ _ _ _ _ _ _ Hm). }
    destruct base as [b|]; [|exact (Hplain _ _ _ H)].
    destruct (negb (is_empty b)); [|exact (Hplain _ _ _ H)].
    apply bind_Ok_inv in H as (oh & w3 & _ & H).
    apply bind_Ok_inv in H as (merged & w4 & _ & H).
    apply bind_Ok_inv in H as (w0 & w5 & _ & H).
    apply bind_Ok_inv in H as (copy & w6 & _ & H).
    apply bind_Ok_inv in H as ([] & w7 & Hs & H).
    apply written_then_returned in H as [-> Hr]. rewrite Hr.
    exact (set_ref_Ok _ _ _ _ _ Hs).
  - (* rebase-merge *)
    unfold stage_rebase_merge in H.
    apply bind_Ok_inv in H as (cs & w1 & _ & H).
    apply bind_Ok_inv in H as ([h0 mapping] & w2 & _ & H).
    apply bind_Ok_inv in H as (w0 & w3 & _ & H).
    apply bind_Ok_inv in H as (merged & w4 & Hm & H).
    apply written_then_returned in H as [-> Hr]. rewrite Hr.
    exact (merge_Ok _ _ _ _ _ _ _ Hm).
  - (* rebase-ff *)
    unfold stage_rebase_ff in H.
    apply bind_Ok_inv in H as (lc & w1 & _ & H).
    apply bind_Ok_inv in H as (w0 & w2 & _ & H).
    apply bind_Ok_inv in H as (cs & w3 & _ & H).
    apply bind_Ok_inv in H as ([h0 mapping] & w4 & Hrb & H).
    apply written_then_returned in H as [-> Hr]. rewrite Hr.
    exact (rebase_Ok _ _ _ _ _ _ _ _ Hrb).
  - (* squash *)
    unfold stage_squash in H.
    apply bind_Ok_inv in H as (w0 & w1 & _ & H).
    match type of H with
    | (let '(_, _) := ?x in _) _ = _ => destruct x as [author msg]
    end.
    apply bind_Ok_inv in H as (oh & w2 & _ & H).
    apply bind_Ok_inv in H as (merged & w3 & _ & H).
    apply bind_Ok_inv in H as (nh & w4 & _ & H).
    apply bind_Ok_inv in H as ([] & w5 & Hs & H).
    apply written_then_returned in H as [-> Hr]. rewrite Hr.
    exact (set_ref_Ok _ _ _ _ _ Hs).
Qed.

Lemma stage_moves id repo target related (w : World X) m h w' :
  stage C id repo target related w = (Ok (m, h), w') ->
  refs (remote w') !! (repo, target) = Some h.
Proof.
  unfold stage. intros H.
  apply bind_Ok_inv in H as ([[pr method] cs] & w1 & _ & H).
  destruct method as [m'|]; [|discriminate H].
  apply bind_Ok_inv in H as (h' & w2 & Hs & H). inversion H; subst.
  exact (strategy_moves _ _ _ _ _ _ _ _ _ _ Hs).
Qed.

End Contract.

(** *** The places of the pull requests, and the slices *)

Section Keys.
Context {X : Type}.

Lemma tmp_key_remote_only (w w' : World X) q :
  remote_only w w' -> tmp_key w' q = tmp_key w q.
Proof. intros H. rewrite H. reflexivity. Qed.

Lemma tmp_key_places_but l (w w' : World X) q :
  places_kept_but l w w' -> ~ In q l -> tmp_key w' q = tmp_key w q.
Proof.
  intros [Hb Hp] Hq. specialize (Hp q Hq). unfold tmp_key, same_place in *.
  rewrite Hb. destruct (prs w !! q), (prs w' !! q); try tauto.
  destruct Hp as [-> ->]. reflexivity.
Qed.

Global Instance places_kept_but_preorder l : PreOrder (@places_kept_but X l).
Proof.
  split.
  - intros w. split; [reflexivity|]. intros q _. unfold same_place.
    destruct (prs w !! q); auto.
  - intros a b c [Hb1 Hp1] [Hb2 Hp2]. split; [congruence|]. intros q Hq.
    specialize (Hp1 q Hq). specialize (Hp2 q Hq). unfold same_place in *.
    destruct (prs a !! q), (prs b !! q), (prs c !! q); try tauto.
    destruct Hp1, Hp2. split; congruence.
Qed.

Lemma places_kept_but_mono l l' (w w' : World X) :
  (forall q, In q l -> In q l') -> places_kept_but l w w' -> places_kept_but l' w w'.
Proof. intros Hl [Hb Hp]. split; [exact Hb|]. intros q Hq. apply Hp. auto. Qed.

Lemma places_kept_places_but l (w w' : World X) :
  places_kept w w' -> places_kept_but l w w'.
Proof. intros [Hb Hp]. split; [exact Hb|]. intros q _. apply Hp. Qed.

Lemma others_kept_places_but id l (w w' : World X) :
  In id l -> others_kept id w w' -> places_kept_but l w w'.
Proof.
  intros Hid [Hb Hp]. split; [exact Hb|]. intros q Hq.
  rewrite Hp by (intros ->; auto). unfold same_place. destruct (prs w !! q); auto.
Qed.

Lemma remote_only_places (w w' : World X) : remote_only w w' -> places_kept w w'.
Proof.
  intros H. rewrite H. split; [reflexivity|]. intros q. simpl. unfold same_place.
  destruct (prs w !! q); auto.
Qed.

Lemma staged_on_key name (w w' : World X) q :
  tmp_key w' q = tmp_key w q -> staged_on name w q -> staged_on name w' q.
Proof. intros E [r Hr]. exists r. now rewrite E. Qed.

(** [advance] and the slices *)
Lemma advance_places (w w' : World X) s x :
  places_kept w w' -> advance w' s x = advance w s x.
Proof.
  intros [_ Hp]. specialize (Hp (fst x)). unfold advance, same_place in *.
  destruct (prs w !! x.1), (prs w' !! x.1); try tauto.
  destruct Hp as [-> _]. reflexivity.
Qed.

Lemma advanced_places (w w' : World X) nh : forall s,
  places_kept w w' -> fold_left (advance w') nh s = fold_left (advance w) nh s.
Proof.
  induction nh as [|x nh IH]; intros s H; [reflexivity|].
  simpl. rewrite (advance_places _ _ _ _ H). now apply IH.
Qed.

Lemma advance_dom (w : World X) s x r :
  is_Some (advance w s x !! r) <-> is_Some (s !! r).
Proof.
  unfold advance. destruct (prs w !! x.1) as [p|]; [|reflexivity].
  destruct (s !! repository p) as [it|] eqn:E; [|reflexivity].
  destruct (decide (r = repository p)) as [->|Hne].
  - rewrite lookup_insert_eq, E. split; eauto.
  - now rewrite lookup_insert_ne by auto.
Qed.

Lemma advanced_dom (w : World X) nh r : forall s,
  is_Some (fold_left (advance w) nh s !! r) <-> is_Some (s !! r).
Proof.
  induction nh as [|x nh IH]; intros s; [reflexivity|].
  simpl. rewrite IH. apply advance_dom.
Qed.

Lemma advanced_other (w : World X) nh r : forall s,
  (forall q p, In q (map fst nh) -> prs w !! q = Some p -> repository p <> r) ->
  fold_left (advance w) nh s !! r = s !! r.
Proof.
  induction nh as [|x nh IH]; intros s H; [reflexivity|].
  simpl. rewrite IH by (intros q p Hq; apply H; now right).
  unfold advance. destruct (prs w !! x.1) as [p|] eqn:Ep; [|reflexivity].
  destruct (s !! repository p); [|reflexivity].
  rewrite lookup_insert_ne; [reflexivity|].
  apply (H (fst x) p); [now left|exact Ep].
Qed.

Lemma dict_set_fresh id h nh :
  ~ In id (map fst nh) -> dict_set id h nh = (nh ++ [(id, h)])%list.
Proof.
  induction nh as [|[k v] nh IH]; intros H; [reflexivity|].
  simpl in *. destruct (Nat.eqb id k) eqn:E.
  - apply Nat.eqb_eq in E. subst. tauto.
  - rewrite IH by tauto. reflexivity.
Qed.

Lemma remote_failure_plain e : remote_failure e ->
  is_merge_error e = false /\ (forall (A : Type) (id : nat) (pr : PullRequest),
                                 classify (X:=X) id pr e = raise e).
Proof.
  intros [H1 H2]. split; [exact H1|]. intros A id pr.
  destruct e; try reflexivity; try discriminate H1. now destruct (H2 what).
Qed.

End Keys.

Section Resets.
Context {X : Type} (C : Collab X) (HC : client_contract C).

Lemma set_ref_Err repo ref h (w : World X) e w' :
  set_ref C repo ref h w = (Err e, w') -> remote_failure e.
Proof.
  unfold set_ref, remote_call.
  destruct (gh_set_ref C (remote w) repo ref h) as [res rm] eqn:E.
  intros H. inversion H; subst. exact (set_ref_fails C HC _ _ _ _ _ _ E).
Qed.

Lemma set_ref_remote_only repo ref h : stable remote_only (set_ref (X:=X) C repo ref h).
Proof. apply call_remote_only. Qed.

Lemma revert_one_Ok staging q (w w' : World X) :
  revert_one C staging q w = (Ok tt, w') ->
  remote_only w w'
  /\ exists k sl, tmp_key w q = Some k /\ staging !! fst k = Some sl
       /\ refs (remote w') !! k = Some (slice_head sl) /\ refs_but k w w'.
Proof.
  unfold revert_one. intros H.
  apply bind_Ok_inv in H as (p & w1 & H1 & H).
  apply get_pr_inv in H1 as [-> H1].
  destruct (prs w !! q) as [p'|] eqn:Ep; inversion H1; subst p'.
  apply bind_Ok_inv in H as (sl & w1 & H2 & H).
  destruct (staging !! repository p) as [sl'|] eqn:Es; inversion H2; subst sl' w1.
  apply bind_Ok_inv in H as (b & w1 & H3 & H).
  unfold get_branch in H3.
  destruct (branches w !! target p) as [b'|] eqn:Eb; inversion H3; subst b' w1.
  split; [exact (set_ref_remote_only _ _ _ _ _ _ H)|].
  exists (repository p, tmp_ref (branch_name b)), sl.
  unfold tmp_key. rewrite Ep, Eb. split; [reflexivity|]. split; [exact Es|].
  split; [exact (set_ref_Ok C HC _ _ _ _ _ H)|exact (set_ref_refs_but C HC _ _ _ _ _ _ H)].
Qed.

Lemma revert_one_Err staging q (w : World X) e w' :
  revert_one C staging q w = (Err e, w') -> remote_failure e.
Proof.
  unfold revert_one. intros H.
  apply bind_inv in H as [(p & w1 & _ & H)|(e' & H & Heq)].
  2:{ inversion Heq; subst e'. unfold get_pr in H.
      destruct (prs w !! q); inversion H; subst.
      split; [reflexivity|discriminate]. }
  apply bind_inv in H as [(sl & w2 & _ & H)|(e' & H & Heq)].
  2:{ inversion Heq; subst e'.
      destruct (staging !! repository p); inversion H; subst.
      split; [reflexivity|discriminate]. }
  apply bind_inv in H as [(b & w3 & _ & H)|(e' & H & Heq)].
  2:{ inversion Heq; subst e'. unfold get_branch in H.
      destruct (branches w2 !! target p); inversion H; subst.
      split; [reflexivity|discriminate]. }
  exact (set_ref_Err _ _ _ _ _ _ H).
Qed.

Lemma revert_all staging (l : list nat) : forall w w' : World X,
  for_each l (revert_one C staging) w = (Ok tt, w') ->
  remote_only w w'
  /\ (forall q k, In q l -> tmp_key w q = Some k ->
        refs (remote w') !! k = slice_head <$> staging !! fst k)
  /\ (forall k, (forall q, In q l -> tmp_key w q <> Some k) ->
        refs (remote w') !! k = refs (remote w) !! k).
Proof.
  induction l as [|x l IH]; intros w w' H.
  - inversion H; subst. split; [reflexivity|]. split; [intros q k []|auto].
  - simpl in H. apply bind_Ok_inv in H as ([] & w1 & H1 & H).
    apply revert_one_Ok in H1 as (Hro & kx & sx & Hkx & Hsx & Hset1 & Hbut).
    apply IH in H as (Hro' & Hset & Hframe).
    assert (Hkeys : forall q, tmp_key w1 q = tmp_key w q)
      by (intros q; now apply tmp_key_remote_only).
    split; [etransitivity; eassumption|]. split.
    + intros q k [->|Hq] Hk.
      * rewrite Hkx in Hk. inversion Hk; subst k.
        destruct (decide (Exists (fun q' => tmp_key w q' = Some kx) l)) as [Hex|Hno].
        -- apply Exists_exists in Hex as (q' & Hq' & Hk').
           apply list_elem_of_In in Hq'. apply (Hset q' kx Hq'). now rewrite Hkeys.
        -- rewrite Hframe.
           ++ rewrite Hset1, Hsx. reflexivity.
           ++ intros q' Hq' Hk'. apply Hno. apply Exists_exists. exists q'.
              split; [now apply list_elem_of_In|now rewrite <- Hkeys].
      * apply (Hset q k Hq). now rewrite Hkeys.
    + intros k Hk. rewrite Hframe.
      * apply Hbut. intros ->. exact (Hk x (or_introl eq_refl) Hkx).
      * intros q Hq. rewrite Hkeys. apply Hk. now right.
Qed.

Lemma revert_all_Err staging (l : list nat) : forall (w : World X) e w',
  for_each l (revert_one C staging) w = (Err e, w') -> remote_failure e.
Proof.
  induction l as [|x l IH]; intros w e w' H; [discriminate H|].
  simpl in H. apply bind_inv in H as [([] & w1 & _ & H)|(e' & H & Heq)].
  - exact (IH _ _ _ H).
  - inversion Heq; subst e'. exact (revert_one_Err _ _ _ _ _ H).
Qed.

Lemma rollback_Ok staging repo target oh nh (w w' : World X) :
  rollback C staging repo target oh nh w = (Ok tt, w') ->
  remote_only w w'
  /\ (forall q k, In q (map fst nh) -> tmp_key w q = Some k ->
        refs (remote w') !! k = slice_head <$> staging !! fst k)
  /\ ((forall q, In q (map fst nh) -> tmp_key w q <> Some (repo, target)) ->
      refs (remote w') !! (repo, target) = Some oh)
  /\ (forall k, k <> (repo, target) ->
        (forall q, In q (map fst nh) -> tmp_key w q <> Some k) ->
        refs (remote w') !! k = refs (remote w) !! k).
Proof.
  unfold rollback. intros H.
  apply bind_Ok_inv in H as ([] & w1 & H1 & H).
  pose proof (set_ref_remote_only _ _ _ _ _ _ H1) as Hro.
  apply revert_all in H as (Hro' & Hset & Hframe).
  assert (Hkeys : forall q, tmp_key w1 q = tmp_key w q)
    by (intros q; now apply tmp_key_remote_only).
  split; [etransitivity; eassumption|]. split; [|split].
  - intros q k Hq Hk. apply (Hset q k Hq). now rewrite Hkeys.
  - intros Hno. rewrite Hframe; [exact (set_ref_Ok C HC _ _ _ _ _ H1)|].
    intros q Hq. rewrite Hkeys. now apply Hno.
  - intros k Hk Hno. rewrite Hframe.
    + exact (set_ref_refs_but C HC _ _ _ _ _ _ H1 k Hk).
    + intros q Hq. rewrite Hkeys. now apply Hno.
Qed.

Lemma rollback_Err staging repo target oh nh (w : World X) e w' :
  rollback C staging repo target oh nh w = (Err e, w') -> remote_failure e.
Proof.
  unfold rollback. intros H.
  apply bind_inv in H as [([] & w1 & _ & H)|(e' & H & Heq)].
  - exact (revert_all_Err _ _ _ _ _ H).
  - inversion Heq; subst e'. exact (set_ref_Err _ _ _ _ _ _ H).
Qed.

End Resets.

(** *** The slices and the refs, along the batches *)

Section Agree.
Context {X : Type} (C : Collab X) (HC : client_contract C) (name : string).

Lemma agree_same_remote st (w w' : World X) :
  remote w' = remote w -> agree name st w -> agree name st w'.
Proof. intros E H r sl Hsl. rewrite E. now apply H. Qed.

Lemma staged_on_repository (w : World X) q r p :
  tmp_key w q = Some (r, tmp_ref name) -> prs w !! q = Some p -> repository p = r.
Proof.
  unfold tmp_key. intros H Hp. rewrite Hp in H.
  destruct (branches w !! target p); inversion H. reflexivity.
Qed.

(** After the handler of [stage_batch], the refs are those of the slices. *)
Lemma rolled_back_agree st nh id k oh (w1 w2 w3 : World X) :
  agree name (fold_left (advance w1) nh st) w1 ->
  Forall (staged_on name w1) (map fst nh) ->
  ~ In id (map fst nh) ->
  snd k = tmp_ref name ->
  refs (remote w1) !! k = Some oh ->
  refs_but k w1 w2 -> others_kept id w1 w2 ->
  rollback C st (fst k) (snd k) oh nh w2 = (Ok tt, w3) ->
  agree name st w3.
Proof.
  intros Hag Hon Hfresh Hk Hoh Hbut Hothers Hroll r sl Hsl.
  destruct k as [rk tk]. simpl in Hk, Hroll. subst tk.
  apply (rollback_Ok C HC) in Hroll as (_ & Hset & Hfail & Hframe).
  assert (Hkeys : forall q, In q (map fst nh) -> tmp_key w2 q = tmp_key w1 q).
  { intros q Hq. apply (tmp_key_others id); [exact Hothers|]. intros ->. auto. }
  destruct (decide (Exists (fun q => tmp_key w2 q = Some (r, tmp_ref name)) (map fst nh)))
    as [Hex|Hno].
  - apply Exists_exists in Hex as (q & Hq & Hkq). apply list_elem_of_In in Hq.
    rewrite (Hset q _ Hq Hkq). simpl. now rewrite Hsl.
  - assert (Hno' : forall q, In q (map fst nh) -> tmp_key w2 q <> Some (r, tmp_ref name)).
    { intros q Hq Hkq. apply Hno. apply Exists_exists. exists q.
      split; [now apply list_elem_of_In|exact Hkq]. }
    assert (Hsame : fold_left (advance w1) nh st !! r = st !! r).
    { apply advanced_other. intros q p Hq Hp Hr.
      rewrite Forall_forall in Hon.
      destruct (Hon q (proj2 (list_elem_of_In _ _) Hq)) as [rq Hrq].
      pose proof (staged_on_repository _ _ _ _ Hrq Hp) as E.
      apply (Hno' q Hq). rewrite (Hkeys q Hq), Hrq. congruence. }
    assert (Hw1 : refs (remote w1) !! (r, tmp_ref name) = Some (slice_head sl)).
    { apply Hag. now rewrite Hsame. }
    destruct (decide ((r, tmp_ref name) = (rk, tmp_ref name))) as [E|Hne].
    + inversion E; subst rk. rewrite (Hfail Hno'). congruence.
    + rewrite (Hframe _ Hne Hno'). rewrite (Hbut _ Hne). exact Hw1.
Qed.

Lemma handler_never_returns {A} st repo target oh nh (e : exn) (w : World X) (a : A) w' :
  bind (rollback C st repo target oh nh) (fun _ => raise e) w <> (Ok a, w').
Proof.
  intros H. apply bind_Ok_inv in H as (? & ? & _ & H). discriminate H.
Qed.

Lemma stage_one_agree all st nh id (w : World X) r w' :
  stage_one C all st nh id w = (r, w') ->
  ~ In id (map fst nh) ->
  staged_on name w id ->
  Forall (staged_on name w) (map fst nh) ->
  agree name (fold_left (advance w) nh st) w ->
  match r with
  | Ok (Staged nh') =>
      places_kept w w'
      /\ (exists h, nh' = (nh ++ [(id, h)])%list)
      /\ agree name (fold_left (advance w') nh' st) w'
  | Ok Mismatched => agree name st w'
  | Err e => is_merge_error e = true -> agree name st w'
  end.
Proof.
  intros H Hfresh [rid Hid] Hon Hag. unfold stage_one in H.
  apply bind_inv in H as [(p & w1 & H1 & H)|(e & H & ->)].
  2:{ unfold get_pr in H. destruct (prs w !! id); inversion H. discriminate. }
  apply get_pr_inv in H1 as [-> H1].
  destruct (prs w !! id) as [p'|] eqn:Ep; inversion H1; subst p'. clear H1.
  apply bind_inv in H as [(sl & w1 & H2 & H)|(e & H & ->)].
  2:{ destruct (st !! repository p); inversion H. discriminate. }
  destruct (st !! repository p) as [sl'|] eqn:Es; inversion H2; subst sl' w1. clear H2.
  apply bind_inv in H as [(b & w1 & H3 & H)|(e & H & ->)].
  2:{ unfold get_branch in H. destruct (branches w !! target p); inversion H. discriminate. }
  unfold get_branch in H3.
  destruct (branches w !! target p) as [b'|] eqn:Eb; inversion H3; subst b' w1. clear H3.
  apply bind_inv in H as [(oh & w1 & H4 & H)|(e & H & ->)].
  2:{ unfold gh_head in H.
      destruct (refs (remote w) !! (repository p, tmp_ref (branch_name b)));
        inversion H. discriminate. }
  unfold gh_head in H4.
  destruct (refs (remote w) !! (repository p, tmp_ref (branch_name b))) as [oh'|] eqn:Eoh;
    inversion H4; subst oh' w1. clear H4.
  assert (Hkey : (repository p, tmp_ref (branch_name b)) = (rid, tmp_ref name)).
  { unfold tmp_key in Hid. rewrite Ep, Eb in Hid. congruence. }
  assert (Hrid : repository p = rid) by congruence.
  assert (Hname : tmp_ref (branch_name b) = tmp_ref name) by congruence.
  clear Hkey. rewrite Hname in H, Eoh.
  unfold try_except at 1 in H.
  match type of H with
  | match ?m w with _ => _ end = _ => destruct (m w) as [[x|e] wi] eqn:Einner
  end.
  - (* the pull request is staged *)
    inversion H; subst r w'. clear H.
    apply bind_Ok_inv in Einner as ([m h] & w2 & Hst & Hret). inversion Hret; subst x wi.
    apply try_except_Ok_inv in Hst as [Hst|(e & w3 & _ & Hst)].
    2:{ now apply handler_never_returns in Hst. }
    pose proof (stage_places_kept C _ _ _ _ _ _ _ Hst) as Hplaces.
    pose proof (stage_refs_but C HC _ _ _ _ _ _ _ Hst) as Hbut.
    pose proof (stage_moves C HC _ _ _ _ _ _ _ _ Hst) as Hmoves.
    rewrite dict_set_fresh by exact Hfresh.
    split; [exact Hplaces|]. split; [eauto|].
    rewrite fold_left_app. simpl.
    rewrite (advanced_places _ _ _ _ Hplaces).
    assert (Hp2 : exists p2, prs w2 !! id = Some p2 /\ repository p2 = repository p).
    { destruct Hplaces as [_ Hp]. specialize (Hp id). unfold same_place in Hp.
      rewrite Ep in Hp. destruct (prs w2 !! id) as [p2|]; [|tauto].
      exists p2. split; [reflexivity|tauto]. }
    destruct Hp2 as (p2 & Ep2 & Hrepo).
    destruct (proj2 (advanced_dom w nh (repository p) st)) as [it Hit]; [eauto|].
    unfold advance at 1. simpl fst. simpl snd. rewrite Ep2, Hrepo, Hit.
    intros r' sl0. destruct (decide (r' = repository p)) as [->|Hne].
    + rewrite lookup_insert_eq. intros Heq. inversion Heq; subst sl0. simpl.
      exact Hmoves.
    + rewrite lookup_insert_ne by auto. intros Hsl.
      rewrite (Hbut (r', tmp_ref name)) by (intros Heq; inversion Heq; auto).
      now apply Hag.
  - (* staging the pull request has raised *)
    apply bind_inv in Einner as [(? & ? & Hst & Hret)|(e' & Hst & Heq)].
    { destruct x as [? ?]. discriminate Hret. }
    inversion Heq; subst e'. clear Heq.
    unfold try_except in Hst.
    destruct (stage C id (repository p) (tmp_ref name)
                (List.filter (fun q => negb (Nat.eqb q id)) all) w)
      as [[mh|e0] w2] eqn:Es0; [discriminate Hst|].
    apply bind_inv in Hst as [([] & w3 & Hroll & Hraise)|(e' & Hroll & Heq)].
    + inversion Hraise; subst e0 wi. clear Hraise.
      assert (Hag3 : agree name st w3).
      { apply (rolled_back_agree st nh id (repository p, tmp_ref name) oh w w2 w3);
          auto.
        - exact (stage_refs_but C HC _ _ _ _ _ _ _ Es0).
        - exact (stage_others_kept C _ _ _ _ _ _ _ Es0). }
      destruct e; simpl in H; inversion H; subst; try (intros _; exact Hag3).
      all: exact Hag3.
    + inversion Heq; subst e'. clear Heq.
      apply (rollback_Err C HC) in Hroll.
      destruct (remote_failure_plain (X:=X) e Hroll) as [Hme Hcl].
      rewrite (Hcl progress) in H. inversion H; subst. rewrite Hme. discriminate.
Qed.

Lemma stage_loop_agree all st : forall todo nh (w : World X) r w',
  stage_loop C all st todo nh w = (r, w') ->
  NoDup (map fst nh ++ todo) ->
  Forall (staged_on name w) (map fst nh ++ todo) ->
  agree name (fold_left (advance w) nh st) w ->
  match r with
  | Ok (Staged nh') =>
      places_kept w w' /\ agree name (fold_left (advance w') nh' st) w'
  | Ok Mismatched => agree name st w'
  | Err e => is_merge_error e = true -> agree name st w'
  end.
Proof.
  induction todo as [|id todo IH]; intros nh w r w' H Hnd Hon Hag.
  - inversion H; subst. split; [reflexivity|exact Hag].
  - simpl in H.
    apply NoDup_ListNoDup in Hnd.
    assert (Hfresh : ~ In id (map fst nh)).
    { intros Hin. apply NoDup_remove_2 in Hnd. apply Hnd. apply in_or_app. now left. }
    assert (Hon_id : staged_on name w id).
    { rewrite Forall_forall in Hon. apply Hon. apply list_elem_of_In.
      apply in_or_app. right. now left. }
    assert (Hon_nh : Forall (staged_on name w) (map fst nh)).
    { apply Forall_forall. intros q Hq. rewrite Forall_forall in Hon. apply Hon.
      apply list_elem_of_In. apply in_or_app. left. now apply list_elem_of_In. }
    apply bind_inv in H as [(r1 & w1 & H1 & H)|(e & H1 & ->)].
    + pose proof (stage_one_agree _ _ _ _ _ _ _ H1 Hfresh Hon_id Hon_nh Hag) as Hone.
      destruct r1 as [nh1|].
      * destruct Hone as (Hplaces & [h ->] & Hag1).
        assert (Hlist : (map fst (nh ++ [(id, h)]) ++ todo = map fst nh ++ id :: todo)%list).
        { rewrite map_app, <- app_assoc. reflexivity. }
        specialize (IH (nh ++ [(id, h)])%list w1 r w' H).
        rewrite Hlist in IH.
        assert (Hon1 : Forall (staged_on name w1) (map fst nh ++ id :: todo)).
        { eapply Forall_impl; [exact Hon|]. intros q. apply staged_on_key.
          exact (tmp_key_places _ _ _ Hplaces). }
        specialize (IH ltac:(now apply NoDup_ListNoDup) Hon1 Hag1).
        destruct r as [[nh'|]|e]; auto.
        destruct IH as [Hp2 Hag2]. split; [etransitivity; eassumption|exact Hag2].
      * inversion H; subst. exact Hone.
    + exact (stage_one_agree _ _ _ _ _ _ _ H1 Hfresh Hon_id Hon_nh Hag).
Qed.

Lemma update_heads_Ok nh : forall st (w : World X) st' w',
  update_heads nh st w = (Ok st', w') -> w' = w /\ st' = fold_left (advance w) nh st.
Proof.
  induction nh as [|[id h] nh IH]; intros st w st' w' H.
  - inversion H; subst. auto.
  - simpl in H. apply bind_Ok_inv in H as (p & w1 & H1 & H).
    apply get_pr_inv in H1 as [-> H1].
    destruct (prs w !! id) as [p'|] eqn:Ep; inversion H1; subst p'.
    apply bind_Ok_inv in H as (it & w1 & H2 & H).
    destruct (st !! repository p) as [it'|] eqn:Es; inversion H2; subst it' w1.
    apply IH in H as [-> ->]. split; [reflexivity|].
    simpl. f_equal. unfold advance. simpl. now rewrite Ep, Es.
Qed.

Lemma update_heads_Err nh : forall st (w : World X) e w',
  update_heads nh st w = (Err e, w') -> is_merge_error e = false.
Proof.
  induction nh as [|[id h] nh IH]; intros st w e w' H; [discriminate H|].
  simpl in H. apply bind_inv in H as [(p & w1 & _ & H)|(e' & H & Heq)].
  2:{ inversion Heq; subst e'. unfold get_pr in H.
      destruct (prs w !! id); inversion H. reflexivity. }
  apply bind_inv in H as [(it & w2 & _ & H)|(e' & H & Heq)].
  2:{ inversion Heq; subst e'. destruct (st !! repository p); inversion H. reflexivity. }
  exact (IH _ _ _ _ H).
Qed.

Lemma stage_batch_agree batch st (w : World X) r w' :
  stage_batch C batch st w = (r, w') ->
  NoDup batch -> Forall (staged_on name w) batch -> agree name st w ->
  match r with
  | Ok (_, st') => agree name st' w'
  | Err e => is_merge_error e = true -> agree name st w'
  end.
Proof.
  intros H Hnd Hon Hag. unfold stage_batch in H.
  apply bind_inv in H as [(r1 & w1 & H1 & H)|(e & H1 & ->)].
  - pose proof (stage_loop_agree _ _ _ [] _ _ _ H1 Hnd Hon Hag) as Hloop.
    destruct r1 as [nh|].
    + destruct Hloop as [_ Hag1].
      apply bind_inv in H as [(st1 & w2 & H2 & H)|(e & H2 & ->)].
      2:{ apply update_heads_Err in H2. rewrite H2. discriminate. }
      apply update_heads_Ok in H2 as [-> ->].
      apply bind_inv in H as [(first & w2 & H3 & H)|(e & H3 & ->)].
      2:{ destruct (List.head batch); inversion H3. discriminate. }
      assert (w2 = w1) by (destruct (List.head batch); inversion H3; reflexivity).
      subst w2.
      apply bind_inv in H as [(p & w2 & H4 & H)|(e & H4 & ->)].
      2:{ unfold get_pr in H4. destruct (prs w1 !! first); inversion H4. discriminate. }
      apply get_pr_inv in H4 as [-> _].
      unfold bind, get, modify, ret in H. inversion H; subst.
      apply (agree_same_remote _ w1); [reflexivity|exact Hag1].
    + inversion H; subst. exact Hloop.
  - exact (stage_loop_agree _ _ _ [] _ _ _ H1 Hnd Hon Hag).
Qed.

End Agree.

Section Batches.
Context {X : Type} (C : Collab X).

Lemma stable_weaken {A} (R R' : World X -> World X -> Prop) (m : M X A) :
  (forall w w', R w w' -> R' w w') -> stable R m -> stable R' m.
Proof. intros HR H w r w' E. apply HR. exact (H _ _ _ E). Qed.

Lemma stage_places_but id l repo target related :
  In id l -> stable (places_kept_but l) (stage C id repo target related).
Proof.
  intros Hid. apply (stable_weaken (others_kept id)).
  - intros w w'. now apply others_kept_places_but.
  - apply stage_others_kept.
Qed.

Ltac places_leaf :=
  first [ stable_apply @stable_remote_call; intros; apply places_kept_places_but;
          split; [reflexivity|]; intros q; simpl; unfold same_place;
          destruct (prs _ !! q); auto
        | stable_apply @stable_modify; intros; apply places_kept_places_but;
          split; [reflexivity|]; intros q; simpl; unfold same_place;
          destruct (prs _ !! q); auto ].

Lemma stage_one_places_but all st nh id l :
  In id l -> stable (places_kept_but l) (stage_one C all st nh id).
Proof.
  intros Hid. unfold stage_one, rollback, revert_one, classify, send, set_ref.
  repeat first [ apply (stage_places_but id l _ _ _ Hid) | stable_step | places_leaf ].
Qed.

Lemma stage_loop_places_but all st l : forall todo nh,
  (forall q, In q todo -> In q l) ->
  stable (places_kept_but l) (stage_loop C all st todo nh).
Proof.
  induction todo as [|id todo IH]; intros nh Hl; simpl.
  - stable_apply @stable_ret.
  - stable_apply @stable_bind.
    + apply stage_one_places_but. apply Hl. now left.
    + intros [nh'|]; [|stable_apply @stable_ret].
      apply IH. intros q Hq. apply Hl. now right.
Qed.

Lemma update_heads_stable (R : World X -> World X -> Prop) `{!PreOrder R} nh :
  forall st, stable R (update_heads (X:=X) nh st).
Proof.
  induction nh as [|[id h] nh IH]; intros st; simpl; [stable_apply @stable_ret|].
  repeat stable_step. apply IH.
Qed.

Lemma stage_batch_places_but batch st :
  stable (places_kept_but batch) (stage_batch C batch st).
Proof.
  unfold stage_batch. stable_apply @stable_bind.
  - apply stage_loop_places_but. auto.
  - intros [nh|]; [|stable_apply @stable_ret].
    repeat first [ stable_apply @update_heads_stable | stable_step | places_leaf ].
Qed.

Lemma write_state_places s id :
  stable places_kept (write_pr (X:=X) id (with_state s)).
Proof.
  stable_apply @stable_write_pr. intros w p Hp. split; [reflexivity|].
  intros q. simpl. destruct (decide (q = id)) as [->|Hq].
  - rewrite lookup_insert_eq, Hp. simpl. auto.
  - rewrite lookup_insert_ne by auto. unfold same_place. destruct (prs w !! q); auto.
Qed.

Lemma on_merge_error_places staged e :
  stable places_kept (on_merge_error C staged e).
Proof.
  unfold on_merge_error, send.
  repeat first [ apply write_state_places | stable_step ].
  all: stable_apply @stable_modify; intros; split; [reflexivity|];
    intros q; simpl; unfold same_place; destruct (prs _ !! q); auto.
Qed.

Lemma on_merge_error_same_remote staged e :
  stable same_remote (on_merge_error C staged e).
Proof.
  unfold on_merge_error, send.
  repeat stable_step.
  all: try (stable_apply @stable_write_pr; intros; reflexivity).
  all: stable_apply @stable_modify; intros; reflexivity.
Qed.

Context (HC : client_contract C) (name : string).

Lemma NoDup_app_parts {A} (l1 l2 : list A) :
  NoDup (l1 ++ l2) -> NoDup l1 /\ NoDup l2 /\ forall x, In x l1 -> ~ In x l2.
Proof.
  intros H. apply NoDup_app in H as (H1 & H2 & H3). split; [exact H1|].
  split; [exact H3|]. intros x Hx Hx'. apply (H2 x); now apply list_elem_of_In.
Qed.

Lemma Forall_app_parts {A} (P : A -> Prop) (l1 l2 : list A) :
  Forall P (l1 ++ l2) -> Forall P l1 /\ Forall P l2.
Proof. intros H. now apply Forall_app in H. Qed.

(** The agreement of the slices and the refs goes through the batches that
    [stage_batches] has been through. *)
Lemma stage_batches_loop_agree limit : forall done st staged (w : World X) staged' st' w',
  stage_batches_loop C limit done st staged w = (Ok (staged', st'), w') ->
  NoDup (concat done) -> Forall (staged_on name w) (concat done) -> agree name st w ->
  agree name st' w' /\ places_kept_but (concat done) w w'.
Proof.
  induction done as [|batch others IH]; intros st staged w staged' st' w' H Hnd Hon Hag.
  - inversion H; subst. split; [exact Hag|reflexivity].
  - simpl in H. destruct (limit <=? length staged)%nat.
    { inversion H; subst. split; [exact Hag|reflexivity]. }
    simpl in Hnd, Hon.
    apply NoDup_app_parts in Hnd as (Hnd1 & Hnd2 & Hdisj).
    apply Forall_app_parts in Hon as [Hon1 Hon2].
    apply bind_Ok_inv in H as ([staged1 st1] & w1 & Htry & H).
    assert (Hstep : agree name st1 w1 /\ places_kept_but batch w w1).
    { unfold try_except in Htry. unfold bind at 1 in Htry.
      destruct (stage_batch C batch st w) as [[[b st2]|e] w2] eqn:Eb.
      - inversion Htry; subst. split.
        + exact (stage_batch_agree C HC name _ _ _ _ _ Eb Hnd1 Hon1 Hag).
        + exact (stage_batch_places_but _ _ _ _ _ Eb).
      - destruct (is_merge_error e) eqn:Eme; [|discriminate Htry].
        apply bind_Ok_inv in Htry as ([] & w3 & Hh & Hret). inversion Hret; subst.
        pose proof (stage_batch_agree C HC name _ _ _ _ _ Eb Hnd1 Hon1 Hag Eme) as Hag2.
        split.
        + apply (agree_same_remote name _ w2); [|exact Hag2].
          exact (on_merge_error_same_remote _ _ _ _ _ Hh).
        + etransitivity; [exact (stage_batch_places_but _ _ _ _ _ Eb)|].
          apply places_kept_places_but. exact (on_merge_error_places _ _ _ _ _ Hh). }
    destruct Hstep as [Hag1 Hpl1].
    assert (Hon' : Forall (staged_on name w1) (concat others)).
    { apply Forall_forall. intros q Hq. rewrite Forall_forall in Hon2.
      apply (staged_on_key name w); [|now apply Hon2].
      apply (tmp_key_places_but batch); [exact Hpl1|].
      intros Hin. apply list_elem_of_In in Hq. exact (Hdisj q Hin Hq). }
    destruct (IH _ _ _ _ _ _ H Hnd2 Hon' Hag1) as [Hag' Hpl'].
    split; [exact Hag'|].
    etransitivity.
    + apply (places_kept_but_mono batch); [|exact Hpl1]. intros q Hq.
      apply in_or_app. now left.
    + apply (places_kept_but_mono (concat others)); [|exact Hpl'].
      intros q Hq. apply in_or_app. now right.
Qed.

(** [staging_setup] *)
Lemma heads_in_same_remote repo ids : stable same_remote (heads_in (X:=X) repo ids).
Proof.
  induction ids as [|id ids IH]; simpl; [stable_apply @stable_ret|].
  repeat stable_step. exact IH.
Qed.

Lemma heads_in_remote_only repo ids : stable remote_only (heads_in (X:=X) repo ids).
Proof.
  induction ids as [|id ids IH]; simpl; [stable_apply @stable_ret|].
  repeat stable_step. exact IH.
Qed.

Lemma setup_repos_remote_only target all_prs rs : forall oh st,
  stable remote_only (setup_repos C target all_prs rs oh st).
Proof.
  induction rs as [|repo rs IH]; intros oh st; simpl; [stable_apply @stable_ret|].
  unfold set_ref.
  repeat first [ apply IH | apply heads_in_remote_only | apply call_remote_only
               | stable_step ].
Qed.

Lemma staging_setup_remote_only target batched_prs :
  stable remote_only (staging_setup C target batched_prs).
Proof.
  unfold staging_setup.
  repeat first [ apply setup_repos_remote_only | stable_step ].
Qed.

Lemma setup_repos_agree target all_prs rs : forall oh st (w : World X) oh' st' w',
  setup_repos C target all_prs rs oh st w = (Ok (oh', st'), w') ->
  agree (branch_name target) st w ->
  (forall repo sl, st !! repo = Some sl -> oh !! repo = Some (slice_head sl)) ->
  agree (branch_name target) st' w'
  /\ (forall repo sl, st' !! repo = Some sl -> oh' !! repo = Some (slice_head sl))
  /\ (forall id, is_Some (st !! id) \/ In id (map repo_id rs) -> is_Some (st' !! id)).
Proof.
  induction rs as [|repo rs IH]; intros oh st w oh' st' w' H Hag Hoh.
  - inversion H; subst. split; [exact Hag|]. split; [exact Hoh|].
    intros id [Hid|[]]. exact Hid.
  - simpl in H.
    apply bind_Ok_inv in H as (h & w1 & H1 & H).
    unfold gh_head in H1.
    destruct (refs (remote w) !! (repo_id repo, branch_name target)) eqn:E;
      inversion H1; subst.
    apply bind_Ok_inv in H as ([] & w2 & H2 & H).
    pose proof (set_ref_Ok C HC _ _ _ _ _ H2) as Hset.
    pose proof (set_ref_refs_but C HC _ _ _ _ _ _ H2) as Hbut.
    apply bind_Ok_inv in H as (hs & w3 & H3 & H).
    apply heads_in_same_remote in H3.
    apply bind_Ok_inv in H as (wc & w4 & H4 & H).
    unfold lift_result in H4. inversion H4; subst w4. clear H4.
    apply IH in H as (Hag' & Hoh' & Hdom).
    + split; [exact Hag'|]. split; [exact Hoh'|].
      intros id Hid. apply Hdom.
      destruct (decide (id = repo_id repo)) as [->|Hne].
      * left. rewrite lookup_insert_eq. eauto.
      * destruct Hid as [Hid|[Hid|Hid]]; [left|congruence|right; exact Hid].
        now rewrite lookup_insert_ne by auto.
    + intros r sl Hsl. unfold same_remote in H3. rewrite H3.
      destruct (decide (r = repo_id repo)) as [->|Hne].
      * rewrite lookup_insert_eq in Hsl. inversion Hsl; subst. simpl. exact Hset.
      * rewrite lookup_insert_ne in Hsl by auto.
        rewrite (Hbut (r, tmp_ref (branch_name target)))
          by (intros Heq; inversion Heq; auto).
        now apply Hag.
    + intros r sl Hsl. destruct (decide (r = repo_id repo)) as [->|Hne].
      * rewrite lookup_insert_eq in Hsl. inversion Hsl; subst. simpl.
        apply lookup_insert_eq.
      * rewrite lookup_insert_ne in Hsl by auto. rewrite lookup_insert_ne by auto.
        now apply Hoh.
Qed.

(** [staging_setup] leaves the temporary ref of every repository of the
    branch at the head it records in the slice and in the original heads. *)
Lemma staging_setup_agree target batched_prs (w : World X) oh st rs w' :
  staging_setup C target batched_prs w = (Ok (oh, st, rs), w') ->
  agree (branch_name target) st w'
  /\ (forall repo, In repo rs ->
        exists sl, st !! repo_id repo = Some sl
                   /\ oh !! repo_id repo = Some (slice_head sl)).
Proof.
  unfold staging_setup. intros H.
  apply bind_Ok_inv in H as (w0 & w1 & H0 & H). inversion H0; subst w0 w1.
  apply bind_Ok_inv in H as ([oh1 st1] & w1 & H1 & H). inversion H; subst.
  apply setup_repos_agree in H1 as (Hag & Hoh & Hdom).
  - split; [exact Hag|]. intros repo Hr.
    destruct (Hdom (repo_id repo)) as [sl Hsl].
    { right. now apply in_map. }
    exists sl. split; [exact Hsl|]. now apply Hoh.
  - intros r sl Hsl. rewrite lookup_empty in Hsl. discriminate.
  - intros r sl Hsl. rewrite lookup_empty in Hsl. discriminate.
Qed.

End Batches.

Section Attempt.
Context {X : Type} (C : Collab X).

(** C1, as amended.  A staging attempt on branch [target], on a client that
    keeps its contract, whose pull requests are distinct and staged on the
    temporary ref of the branch: after the setup and the batches [done], a
    batch in which the pull requests [before] were staged and staging the
    next one, [id], raises [e].  When the provider takes the resets of the
    handler, [stage_batch] ends with the answer that the class of [e] calls
    for, and before the exception is classified the temporary ref of every
    pull request of [before] holds the head of the slice of its repository,
    which is the value it had when this batch began; the temporary ref of
    [id] holds the value read before [id] was staged, unless it is also the
    ref of a pull request of [before], in which case the slice head is what
    it holds; and the temporary ref of every repository of the staging is as
    it was when this batch began. *)
Theorem stage_batch_rollback (target : Branch) (batched done : list (list nat))
    (before after : list nat) (id : nat) (limit : nat)
    (wi ws w0 w1 w2 w3 : World X) (heads : gmap nat string)
    (st0 staging : StagingState) (rs : list Repository) (staged : list nat)
    (nh : list (nat * string)) (k : nat * string) (oh : string) (e : exn) :
  let batch := (before ++ id :: after)%list in
  let name := branch_name target in
  client_contract C ->
  NoDup (concat done ++ before ++ [id]) ->
  Forall (staged_on name wi) (concat done ++ before ++ [id]) ->
  staging_setup C target batched wi = (Ok (heads, st0, rs), ws) ->
  stage_batches_loop C limit done st0 [] ws = (Ok (staged, staging), w0) ->
  stage_loop C batch staging before [] w0 = (Ok (Staged nh), w1) ->
  tmp_key w1 id = Some k ->
  is_Some (staging !! fst k) ->
  refs (remote w1) !! k = Some oh ->
  stage C id (fst k) (snd k) (List.filter (fun q => negb (Nat.eqb q id)) batch) w1
  = (Err e, w2) ->
  rollback C staging (fst k) (snd k) oh nh w2 = (Ok tt, w3) ->
  exists w4,
    stage_batch C batch staging w0 = (failed_batch id staging e, w4)
    /\ remote w4 = remote w3
    /\ (forall q, In q before ->
          exists kq sl,
            tmp_key w0 q = Some kq /\ staging !! fst kq = Some sl
            /\ refs (remote w3) !! kq = Some (slice_head sl)
            /\ refs (remote w0) !! kq = Some (slice_head sl))
    /\ ((forall q, In q before -> tmp_key w0 q <> Some k) ->
        refs (remote w3) !! k = Some oh)
    /\ (forall repo sl, staging !! repo = Some sl ->
          refs (remote w3) !! (repo, tmp_ref name)
          = refs (remote w0) !! (repo, tmp_ref name)).
Proof.
  intros batch name HC Hnd Hon Hsetup Hdone Hloop Hk [sl Hsl] Hoh Hstage Hroll.
  destruct k as [rk tk]. cbn [fst snd] in Hsl, Hstage, Hroll.
  (* the attempt up to this batch *)
  apply NoDup_app_parts in Hnd as (Hnd_done & Hnd_batch & Hdisj).
  apply Forall_app_parts in Hon as [Hon_done Hon_batch].
  pose proof (staging_setup_remote_only C _ _ _ _ _ Hsetup) as Hro.
  destruct (staging_setup_agree C HC _ _ _ _ _ _ _ Hsetup) as [Hag_s _].
  assert (Hon_s : forall l, Forall (staged_on name wi) l -> Forall (staged_on name ws) l).
  { intros l Hl. eapply Forall_impl; [exact Hl|]. intros q. apply staged_on_key.
    now apply tmp_key_remote_only. }
  destruct (stage_batches_loop_agree C HC name limit _ _ _ _ _ _ _ Hdone Hnd_done
              (Hon_s _ Hon_done) Hag_s) as [Hag0 Hpl0].
  assert (Hon0 : Forall (staged_on name w0) (before ++ [id])).
  { apply Forall_forall. intros q Hq. pose proof (Hon_s _ Hon_batch) as H.
    rewrite Forall_forall in H. apply (staged_on_key name ws); [|now apply H].
    apply (tmp_key_places_but (concat done)); [exact Hpl0|].
    intros Hin. apply list_elem_of_In in Hq. exact (Hdisj q Hin Hq). }
  apply Forall_app_parts in Hon0 as [Hon_before Hon_id].
  apply NoDup_app_parts in Hnd_batch as (Hnd_before & _ & Hfresh0).
  assert (Hfresh : ~ In id before).
  { intros Hin. apply (Hfresh0 id Hin). now left. }
  (* the pull requests staged before [id] *)
  destruct (stage_loop_staged _ _ _ _ _ _ _ _ Hloop) as (Hkept & Hrevs & Hkeys).
  assert (Hkeys' : forall q, In q (map fst nh) <-> In q before).
  { intros q. rewrite Hkeys. simpl. tauto. }
  assert (Hstart : NoDup (map fst (@nil (nat * string)) ++ before)) by exact Hnd_before.
  pose proof (stage_loop_agree C HC name _ _ _ [] _ _ _ Hloop Hstart Hon_before Hag0)
    as [_ Hag1].
  pose proof (stage_others_kept C id rk tk _ _ _ _ Hstage) as Hothers.
  pose proof (stage_refs_but C HC id rk tk _ _ _ _ Hstage) as Hbut.
  assert (Hkey2 : forall q, In q before -> tmp_key w2 q = tmp_key w0 q).
  { intros q Hq. rewrite (tmp_key_others id w1 w2 q Hothers) by (intros ->; auto).
    exact (tmp_key_places _ _ _ Hkept). }
  assert (Hname : tk = tmp_ref name).
  { rewrite Forall_forall in Hon_id.
    destruct (Hon_id id) as [r Hr]; [apply list_elem_of_In; now left|].
    rewrite (tmp_key_places _ _ _ Hkept) in Hk. rewrite Hr in Hk.
    congruence. }
  assert (Hon1 : Forall (staged_on name w1) (map fst nh)).
  { apply Forall_forall. intros q Hq. apply list_elem_of_In, Hkeys' in Hq.
    rewrite Forall_forall in Hon_before.
    apply (staged_on_key name w0); [exact (tmp_key_places _ _ _ Hkept)|].
    apply Hon_before. now apply list_elem_of_In. }
  assert (Hag3 : agree name staging w3).
  { assert (Hf : ~ In id (map fst nh)) by (intros Hin; apply Hfresh; now apply Hkeys').
    exact (rolled_back_agree C HC name staging nh id (rk, tk) oh w1 w2 w3
             Hag1 Hon1 Hf Hname Hoh Hbut Hothers Hroll). }
  destruct (rollback_Ok C HC _ _ _ _ _ _ _ Hroll) as (_ & _ & Hfail & _).
  (* the refs after the handler *)
  assert (Hrefs_done : forall q, In q before ->
            exists kq sl', tmp_key w0 q = Some kq /\ staging !! fst kq = Some sl'
              /\ refs (remote w3) !! kq = Some (slice_head sl')
              /\ refs (remote w0) !! kq = Some (slice_head sl')).
  { intros q Hq. rewrite Forall_forall in Hrevs.
    destruct (Hrevs q (proj2 (list_elem_of_In _ _) Hq)) as (kq & Hkq & [sl' Hs]).
    exists kq, sl'. split; [exact Hkq|]. split; [exact Hs|].
    rewrite Forall_forall in Hon_before.
    destruct (Hon_before q (proj2 (list_elem_of_In _ _) Hq)) as [r Hr].
    rewrite Hr in Hkq. inversion Hkq; subst kq. simpl in Hs.
    split; [now apply Hag3|now apply Hag0]. }
  assert (Hrefs_failed : (forall q, In q before -> tmp_key w0 q <> Some (rk, tk)) ->
            refs (remote w3) !! (rk, tk) = Some oh).
  { intros Hno. apply Hfail.
    intros q Hq. apply Hkeys' in Hq. rewrite Hkey2 by exact Hq. now apply Hno. }
  assert (Hrefs_all : forall repo sl', staging !! repo = Some sl' ->
            refs (remote w3) !! (repo, tmp_ref name)
            = refs (remote w0) !! (repo, tmp_ref name)).
  { intros repo sl' Hs. now rewrite (Hag3 _ _ Hs), (Hag0 _ _ Hs). }
  (* the run of the loop *)
  assert (Hhandler :
    try_except
      (stage C id rk tk (List.filter (fun q => negb (Nat.eqb q id)) batch))
      (fun e => bind (rollback C staging rk tk oh nh) (fun _ => raise e)) w1
    = (Err e, w3)).
  { unfold try_except. rewrite Hstage.
    rewrite (bind_Ok _ _ w2 tt w3 Hroll). reflexivity. }
  clear Hname. unfold tmp_key in Hk.
  destruct (prs w1 !! id) as [p|] eqn:Ep; [|discriminate].
  destruct (branches w1 !! Store.target p) as [b|] eqn:Eb; [|discriminate].
  inversion Hk; subst rk tk.
  assert (Hone : forall h, try_except
            (bind (try_except
               (stage C id (repository p) (tmp_ref (branch_name b))
                  (List.filter (fun q => negb (Nat.eqb q id)) batch))
               (fun e => bind (rollback C staging (repository p)
                                 (tmp_ref (branch_name b)) oh nh)
                              (fun _ => raise e)))
               (fun x => match x with (_, new_head) =>
                           ret (Staged (dict_set id new_head nh)) end))
            h w1 = h e w3).
  { intros h. unfold try_except at 1. rewrite (bind_Err _ _ _ _ _ Hhandler). reflexivity. }
  assert (Hstep : stage_one C batch staging nh id w1 = classify id p e w3).
  { unfold stage_one.
    rewrite (bind_Ok _ _ w1 p w1) by (unfold get_pr; now rewrite Ep).
    rewrite Hsl. simpl.
    rewrite (bind_Ok _ _ w1 sl w1) by reflexivity.
    rewrite (bind_Ok _ _ w1 b w1) by (unfold get_branch; now rewrite Eb).
    rewrite (bind_Ok _ _ w1 oh w1) by (unfold gh_head; now rewrite Hoh).
    apply Hone. }
  assert (Hall : stage_loop C batch staging batch [] w0
                  = bind (classify id p e)
                      (fun r => match r with
                                | Staged nh' => stage_loop C batch staging after nh'
                                | Mismatched => ret Mismatched
                                end) w3).
  { unfold batch at 2. rewrite stage_loop_app, Hloop. simpl.
    unfold bind at 1. rewrite Hstep. reflexivity. }
  unfold stage_batch. unfold bind at 1. rewrite Hall.
  destruct e; simpl;
    try (exists w3; split; [reflexivity|]; split; [reflexivity|];
         split; [exact Hrefs_done|]; split; [exact Hrefs_failed|exact Hrefs_all]).
  (* Mismatch: the feedback is sent, the refs are those after the handler *)
  eexists. split; [reflexivity|]. split; [reflexivity|].
  split; [exact Hrefs_done|]. split; [exact Hrefs_failed|exact Hrefs_all].
Qed.

End Attempt.

Lemma pair_eta {A B} (r : A * B) (a : A) : fst r = a -> r = (a, snd r).
Proof. destruct r. simpl. now intros ->. Qed.

Section General.
Context {X : Type} (C : Collab X).

Lemma for_each_emails id (cs : list PrCommit) (w : World X) :
  forallb has_emails cs = true ->
  for_each cs (fun c =>
    if has_emails c then ret tt
    else raise (Unmergeable
                  [VPr id;
                   VStr ("All commits must have author and committer email, "
                         ++ "missing email on " ++ sha c ++ " indicates the authorship is "
                         ++ "most likely incorrect.")%string])) w = (Ok tt, w).
Proof.
  induction cs as [|c cs IH]; [reflexivity|]. simpl. intros H.
  apply andb_true_iff in H as [Hc Hcs]. rewrite Hc.
  rewrite (bind_Ok _ _ w tt w) by reflexivity. auto.
Qed.

(** What the consistency check of [stage] does with a head, a single-commit
    flag or a message that the live pull request contradicts, when the
    target branch has not changed. *)
Lemma stage_mismatch id repo target related (w : World X) pr prdict cs c b :
  prs w !! id = Some pr ->
  gh_pr C (remote w) repo (number pr) = Ok prdict ->
  gh_commits C (remote w) repo (number pr) = Ok cs ->
  (pd_commits prdict <= 50)%nat ->
  forallb has_emails cs = true ->
  last cs = Some c ->
  branches w !! Store.target pr = Some b ->
  branch_name b = pd_base_ref prdict ->
  head pr <> sha c
  \/ (pd_commits prdict = 1 /\ squash pr = false)
  \/ message pr <> make_message C prdict ->
  exists keys diff p',
    stage C id repo target related w
    = (Err (Mismatch keys diff), set_prs (<[id := p']> (prs w)) w)
    /\ head p' = sha c /\ state p' = "opened"
    /\ (pd_commits prdict = 1 -> squash pr = false -> squash p' = true)
    /\ message p' = make_message C prdict.
Proof.
  intros Hpr Hpd Hcs H50 Hmail Hlast Hb Hname Hdiff.
  cut (exists keys diff p',
          stage_prepare C id repo w
          = (Err (Mismatch keys diff), set_prs (<[id := p']> (prs w)) w)
          /\ head p' = sha c /\ state p' = "opened"
          /\ (pd_commits prdict = 1 -> squash pr = false -> squash p' = true)
          /\ message p' = make_message C prdict).
  { intros (keys & diff & p' & Hrun & Hrest). exists keys, diff, p'.
    split; [|exact Hrest]. unfold stage. now rewrite (bind_Err _ _ _ _ _ Hrun). }
  assert (E50 : (50 <? pd_commits prdict)%nat = false) by (apply Nat.ltb_ge; lia).
  assert (E250 : (250 <? pd_commits prdict)%nat = false) by (apply Nat.ltb_ge; lia).
  assert (Hsome :
    negb (String.eqb (head pr) (sha c))
    || (bool_ne_int (squash pr) (pd_commits prdict) && (pd_commits prdict =? 1)%nat)
    || negb (String.eqb (message pr) (make_message C prdict)) = true).
  { destruct Hdiff as [H|[[H1 H2]|H]].
    - apply String.eqb_neq in H. now rewrite H.
    - rewrite H1, H2. simpl. now rewrite orb_true_r.
    - apply String.eqb_neq in H. rewrite H. simpl. apply orb_true_r. }
  assert (Hsq : pd_commits prdict = 1 -> squash pr = false ->
                bool_ne_int (squash pr) (pd_commits prdict)
                && (pd_commits prdict =? 1)%nat = true).
  { intros -> ->. reflexivity. }
  assert (Hrun : forall w1, for_each cs (fun c0 =>
    if has_emails c0 then ret tt
    else raise (Unmergeable
                  [VPr id;
                   VStr ("All commits must have author and committer email, "
                         ++ "missing email on " ++ sha c0 ++ " indicates the authorship is "
                         ++ "most likely incorrect.")%string])) w1 = (Ok tt, w1))
    by (intros w1; now apply for_each_emails).
  destruct (negb (String.eqb (head pr) (sha c))) eqn:Eh;
    destruct (bool_ne_int (squash pr) (pd_commits prdict) && (pd_commits prdict =? 1)%nat)
      eqn:Es;
    destruct (negb (String.eqb (message pr) (make_message C prdict))) eqn:Em;
    try discriminate Hsome;
    (eexists _, _, _; split;
     [ unfold stage_prepare, bind, get_pr, remote_read, get_branch, from_option, ret,
         raise, write_pr;
       rewrite Hpr, Hpd, E50, E250, Hcs, Hrun, Hlast; cbv beta iota;
       rewrite Eh; cbv beta iota;
       rewrite Hb; cbv beta iota;
       rewrite Hname, String.eqb_refl; simpl negb; cbv beta iota;
       rewrite Es; cbv beta iota; rewrite Em; cbv beta iota;
       simpl; rewrite Hpr; reflexivity
     | unfold apply_invalid; simpl; repeat split; auto ]).
  all: try (intros H1 H2; rewrite (Hsq H1 H2) in Es; discriminate Es).
  all: try (intros H1 H2; now rewrite H1).
  all: try (apply negb_false_iff, String.eqb_eq in Em; exact Em).
  all: intros H1 H2; discriminate (Hsq H1 H2).
Qed.
End General.

Section Setup.
Context {X : Type} (C : Collab X).

(** What the handler of [stage_batches] does with an [Unmergeable] whose
    first argument is the pull request: the state is [error] and the failure
    is sent. *)
Lemma on_merge_error_unmergeable staged id rest (w : World X) pr :
  prs w !! id = Some pr ->
  on_merge_error C staged (Unmergeable (VPr id :: rest)) w
  = (Ok tt,
     set_sent (sent w ++ [MergeFailed (repository pr) (number pr) id
                            (failure_reason C (Unmergeable (VPr id :: rest)))])
       (set_prs (<[id := with_state "error" pr]> (prs w)) w)).
Proof.
  intros Hpr. unfold on_merge_error. simpl.
  rewrite (bind_Ok _ _ w (VPr id) w) by reflexivity.
  rewrite (bind_Ok _ _ w id w) by reflexivity.
  rewrite (bind_Ok _ _ w pr w) by (unfold get_pr; now rewrite Hpr).
  rewrite orb_true_r.
  erewrite bind_Ok; [|unfold write_pr; rewrite Hpr; reflexivity].
  reflexivity.
Qed.

(** With the explanation in the place of the pull request, the handler
    raises before it has changed anything. *)
Lemma on_merge_error_text staged text rest (w : World X) :
  on_merge_error C staged (Unmergeable (VStr text :: rest)) w
  = (Err (AttributeError "'str' object has no attribute 'display_name'"), w).
Proof. reflexivity. Qed.

(** [stage_merge] on a head with several parents outside the pull request. *)
Lemma stage_merge_external_parents id pr repo target commits related (w : World X) c :
  last commits = Some c ->
  (1 < length (List.filter (fun p => negb (in_strings p (map sha commits)))
                 (dedup_by String.eqb (parents c))))%nat ->
  exists text,
    stage_merge C id pr repo target commits related w = (Err (Unmergeable [VStr text]), w).
Proof.
  intros Hlast Hext. unfold stage_merge. rewrite Hlast. simpl from_option.
  rewrite (bind_Ok _ _ w c w) by reflexivity.
  assert (Hpar : (1 <? length (dedup_by String.eqb (parents c)))%nat = true).
  { apply Nat.ltb_lt. eapply Nat.lt_le_trans; [exact Hext|].
    generalize (dedup_by String.eqb (parents c)). intros l.
    induction l as [|x l IH]; simpl; [lia|]. destruct (negb _); simpl; lia. }
  rewrite Hpar. apply Nat.ltb_lt in Hext. rewrite Hext.
  eexists. reflexivity.
Qed.

(** When every attempt is answered with an error status, the wait ends in a
    time-out and nothing is raised before. *)
Lemma wait_for_visibility_http_failures repo_name refname expected token (w : World X) :
  (forall i, (i < 4)%nat ->
     exists resp, http_get C (remote w) i (Visibility.refs_url repo_name) token = Ok resp
                  /\ Visibility.ok resp = false) ->
  exists text,
    wait_for_visibility C WAIT_FOR_VISIBILITY 0 repo_name refname expected token w
    = (Err (TimeoutError text), w).
Proof.
  intros H. unfold WAIT_FOR_VISIBILITY.
  assert (Hstep : forall i later, (i < 4)%nat ->
    wait_for_visibility C (10 :: later) i repo_name refname expected token w
    = wait_for_visibility C later (S i) repo_name refname expected token w).
  { intros i later Hi. destruct (H i Hi) as (resp & Hget & Hok).
    cbn [wait_for_visibility].
    rewrite (bind_Ok _ _ w w w) by reflexivity.
    rewrite (bind_Ok _ _ w false w); [reflexivity|].
    unfold lift_result, Visibility.check_visibility. now rewrite Hget, Hok. }
  rewrite !Hstep by lia. eexists. reflexivity.
Qed.

End Setup.

Lemma put_ref_other (r : Remote unit) repo ref h k :
  k <> (repo, ref) -> refs (Toy.put_ref r repo ref h) !! k = refs r !! k.
Proof. intros Hk. unfold Toy.put_ref. simpl. now rewrite lookup_insert_ne by auto. Qed.

Lemma put_ref_same (r : Remote unit) repo ref h :
  refs (Toy.put_ref r repo ref h) !! (repo, ref) = Some h.
Proof. unfold Toy.put_ref. simpl. apply lookup_insert_eq. Qed.

Lemma toy_contract pr_table commit_table conflicting :
  client_contract (Toy.collab pr_table commit_table conflicting).
Proof.
  constructor; simpl.
  - intros r repo s dest msg res r' H k Hk. inversion H; subst. now apply put_ref_other.
  - intros r repo s dest msg m r' H. inversion H; subst. apply put_ref_same.
  - intros r repo n dest reset cs res r' H k Hk.
    destruct (Nat.eqb n conflicting); inversion H; subst.
    + now apply put_ref_other.
    + destruct reset; [reflexivity|now apply put_ref_other].
  - intros r repo n dest cs h mapping r' H.
    destruct (Nat.eqb n conflicting); inversion H; subst. apply put_ref_same.
  - intros r repo spec res r' H. now inversion H.
  - intros r repo ref h res r' H k Hk. inversion H; subst. now apply put_ref_other.
  - intros r repo ref h r' H. inversion H; subst. apply put_ref_same.
  - intros r repo ref h e r' H. discriminate H.
Qed.

Lemma refusing_contract : client_contract Toy.refusing.
Proof.
  destruct (toy_contract (fun _ => Some (mkPrDict 1 "master" "T" EmptyString))
              (fun n => [Toy.commit (match n with 1 => "h1" | 2 => "g1" | _ => "k1" end)
                           ["c0"]]) 2) as [H1 H2 H3 H4 H5 _ _ _].
  constructor; try assumption; simpl.
  - intros r repo ref h res r' H k Hk.
    destruct (refs r !! (repo, ref)) as [old|];
      [destruct (String.eqb old "half rebased")|]; inversion H; subst;
      try reflexivity; now apply put_ref_other.
  - intros r repo ref h r' H.
    destruct (refs r !! (repo, ref)) as [old|];
      [destruct (String.eqb old "half rebased")|]; inversion H; subst;
      apply put_ref_same.
  - intros r repo ref h e r' H.
    destruct (refs r !! (repo, ref)) as [old|];
      [destruct (String.eqb old "half rebased")|]; inversion H; subst.
    split; [reflexivity|discriminate].
Qed.

Lemma stage_batch_rollback_witness :
let C := Toy.live_attempt in
let ws := snd (staging_setup C Toy.master [[10]; [12; 11]] Toy.attempt) in
let st0 := Toy.slices [(1, "c0"); (2, "d0")] in
let staging := Toy.slices [(1, "rebased 1"); (2, "d0")] in
let w0 := snd (stage_batches_loop C 8 [[10]] st0 [] ws) in
let w1 := snd (stage_loop C [12; 11] staging [12] [] w0) in
let w2 := snd (stage C 11 2 "tmp.master" [12] w1) in
let w3 := snd (rollback C staging 2 "tmp.master" "d0" [(12, "rebased 3")] w2) in
exists w4,
  stage_batch C [12; 11] staging w0 = (Err (MergeError [VPr 11] "conflict"), w4)
  /\ refs (remote w0) !! (1, "tmp.master") = Some "rebased 1"
  /\ refs (remote w1) !! (1, "tmp.master") = Some "rebased 3"
  /\ refs (remote w2) !! (2, "tmp.master") = Some "half rebased"
  /\ refs (remote w3) !! (1, "tmp.master") = Some "rebased 1"
  /\ refs (remote w3) !! (2, "tmp.master") = Some "d0".
Proof.
intros C ws st0 staging w0 w1 w2 w3.
destruct (stage_batch_rollback C Toy.master [[10]; [12; 11]] [[10]] [12] [] 11 8
            Toy.attempt ws w0 w1 w2 w3
            (list_to_map [(1, "c0"); (2, "d0")]) st0 staging
            [mkRepository 2 "org/b" 1; mkRepository 1 "org/a" 1] [1]
            [(12, "rebased 3")] (2, "tmp.master") "d0" (GhMergeError "conflict"))
  as (w4 & Hrun & _ & Hbefore & Hfailed & _).
- apply toy_contract.
- change (NoDup [10; 12; 11]).
  apply NoDup_ListNoDup; repeat constructor; simpl; intuition discriminate.
- change (Forall (staged_on "master" Toy.attempt) [10; 12; 11]).
  constructor; [exists 1; vm_compute; reflexivity|].
  constructor; [exists 1; vm_compute; reflexivity|].
  constructor; [exists 2; vm_compute; reflexivity|constructor].
- apply pair_eta; vm_compute; reflexivity.
- apply pair_eta; vm_compute; reflexivity.
- apply pair_eta; vm_compute; reflexivity.
- vm_compute; reflexivity.
- vm_compute; eauto.
- vm_compute; reflexivity.
- apply pair_eta; vm_compute; reflexivity.
- apply pair_eta; vm_compute; reflexivity.
- exists w4. split; [exact Hrun|].
  split; [vm_compute; reflexivity|]. split; [vm_compute; reflexivity|].
  split; [vm_compute; reflexivity|]. split.
  + destruct (Hbefore 12 (or_introl eq_refl)) as (kq & sl & Hk & Hs & Hr & _).
    vm_compute in Hk. inversion Hk; subst kq.
    vm_compute in Hs. inversion Hs; subst sl. exact Hr.
  + apply Hfailed. intros q [<-|[]]. vm_compute. discriminate.
Defined.

(** C1, as stated, fails where a reset is refused.  The first batch has
    moved the temporary ref of repository 1 to [rebased 1]; in the second
    batch pull request 12 is staged, the rebase of pull request 11 fails
    halfway, and the provider refuses the reset of the ref of repository 2:
    the handler stops there, and the ref of repository 1 stays where pull
    request 12 has left it. *)
Lemma rollback_reset_refused :
let C := Toy.refusing in
let setup := staging_setup C Toy.master [[10]; [12; 11]] Toy.attempt in
let st0 := Toy.slices [(1, "c0"); (2, "d0")] in
let earlier := stage_batches_loop C 8 [[10]] st0 [] (snd setup) in
let staging := Toy.slices [(1, "rebased 1"); (2, "d0")] in
let w0 := snd earlier in
let first := stage_loop C [12; 11] staging [12] [] w0 in
let r := stage_batch C [12; 11] staging w0 in
(exists heads rs, fst setup = Ok (heads, st0, rs))
/\ fst earlier = Ok ([1], staging)
/\ refs (remote w0) !! (1, "tmp.master") = Some "rebased 1"
/\ fst first = Ok (Staged [(12, "rebased 3")])
/\ fst (stage C 11 2 "tmp.master" [12] (snd first)) = Err (GhMergeError "conflict")
/\ fst r = Err (RemoteError "502")
/\ refs (remote (snd r)) !! (1, "tmp.master") = Some "rebased 3"
/\ refs (remote (snd r)) !! (2, "tmp.master") = Some "half rebased".
Proof.
split; [eexists _, _; vm_compute; reflexivity|].
vm_compute. repeat split; reflexivity.
Qed.

Lemma staged_commits_map_final_commit_witness :
exists p,
  prs (snd (stage Toy.live_conflict 10 1 "tmp.master" [] Toy.two_repos)) !! 10 = Some p
  /\ commits_map p !! EmptyString = Some "rebased 1".
Proof.
apply (staged_commits_map_final_commit Toy.live_conflict 10 1 "tmp.master" []
         Toy.two_repos rebase_ff "rebased 1").
apply pair_eta. vm_compute. reflexivity.
Defined.

Lemma stage_without_method_witness :
stage Toy.live_conflict 10 1 "tmp.master" [] Toy.two_repos
= bind (stage_prepare Toy.live_conflict 10 1)
    (fun x => bind (stage_rebase_ff Toy.live_conflict 10 (fst (fst x)) 1 "tmp.master"
                      (snd x) [])
                   (fun h => ret (rebase_ff, h))) Toy.two_repos
/\ fst (stage Toy.live2 10 1 "tmp.master" [] Toy.no_method) = Err (UnboundLocalError "fn").
Proof.
split.
- refine (proj1 (stage_without_method Toy.live_conflict 10 1 "tmp.master" []
                   Toy.two_repos
                   (Toy.mk_pr 1 1 1 "h1" "dev:fix" 2 None true "T" "ready")
                   (mkPrDict 1 "master" "T" EmptyString) _ _ _) _);
    reflexivity.
- pose proof (proj2 (stage_without_method Toy.live2 10 1 "tmp.master" [] Toy.no_method
              (Toy.mk_pr 1 1 1 "h2" "dev:fix" 2 None false "T" "ready")
              (mkPrDict 2 "master" "T" EmptyString) eq_refl eq_refl eq_refl)) as H.
  assert (Hne : pd_commits (mkPrDict 2 "master" "T" EmptyString) <> 1) by discriminate.
  destruct (H Hne) as [Heq _]. rewrite Heq. vm_compute. reflexivity.
Defined.

(** C2, at an input where the code departs from it.  The pull request is
    recorded as a single commit ([squash] set) and has two commits upstream;
    everything else agrees.  [stage] does not see the difference: it merges,
    returns, and leaves the record ready, with its flag. *)
Theorem stale_squash_flag_not_detected :
let r := stage Toy.live2 10 1 "tmp.master" [] Toy.stale_squash in
squash_of Toy.stale_squash 10 = Some true
/\ pd_commits (mkPrDict 2 "master" "T" EmptyString) = 2
/\ fst r = Ok (merge, "merge of h2")
/\ state_of (snd r) 10 = Some "ready"
/\ squash_of (snd r) 10 = Some true
/\ tmp_master (snd r) 1 = Some "merge of h2".
Proof. vm_compute. repeat split; reflexivity. Qed.

(** The scenario of the stale head: the mismatch is raised, the head is
    rewritten, the state is [opened], and the remote is as it was. *)
Lemma stale_head_detected :
let r := stage Toy.live_deadbeef 10 1 "tmp.master" [] Toy.stale_head in
fst r = Err (Mismatch ["head"] [("Head", "cafef00d", "deadbeef")])
/\ head_of (snd r) 10 = Some "deadbeef"
/\ state_of (snd r) 10 = Some "opened"
/\ remote (snd r) = remote Toy.stale_head.
Proof. vm_compute. repeat split; reflexivity. Qed.

(** C4, at an input where the code departs from it.  The head of the pull
    request has two parents outside of it; [stage_merge] raises [Unmergeable]
    with the explanation as its only argument, the handler of [stage_batches]
    takes that text for the pull request, and the attribute error that follows
    leaves the pull request ready and nothing sent. *)
Theorem two_external_parents_not_reported :
let r := stage_batches Toy.live_octopus Toy.master [[10]] (Toy.slices [(1, "c0")])
           Toy.two_external in
fst r = Err (AttributeError "'str' object has no attribute 'display_name'")
/\ state_of (snd r) 10 = Some "ready"
/\ sent (snd r) = [].
Proof. vm_compute. repeat split; reflexivity. Qed.

(** The sibling path, a commit without email: the pull request is set to
    [error] and the failure is sent. *)
Lemma missing_email_reported :
let r := stage_batches Toy.live_no_email Toy.master [[10]] (Toy.slices [(1, "c0")])
           Toy.two_external in
fst r = Ok ([], Toy.slices [(1, "c0")])
/\ state_of (snd r) 10 = Some "error"
/\ exists reason, sent (snd r) = [MergeFailed 1 1 10 (Some reason)].
Proof. vm_compute. repeat split; eauto. Qed.


End StagingFacts.
